(** * HoneyNet mobile services: a shallow embedding and its properties

    The development follows the TypeScript services of the mobile client
    ([BlockchainService], [GamificationService], [QuantumService],
    [HoneyNetService], [SwarmService]).  Every service is a module; the
    private fields of the service class become a record of state, methods
    become functions over that state, and the outcomes of the outside world
    (clock, random generator, network, storage) are explicit arguments.

    Numbers: counters and time values are integers; the points of
    [GamificationService] are binary64 values; the strengths of
    [SwarmService] are real numbers.  The [async] methods of
    [QuantumService] are cut at their [await]s and run by an event loop that
    may resume the pending calls in any order. *)

From Stdlib Require Import ZArith List String Ascii Bool Lia Arith.
From Stdlib Require Import DecimalString DecimalZ.
From Stdlib Require Import PrimFloat FloatOps SpecFloat Uint63.
From Stdlib Require Import QArith.
From Stdlib Require Import Reals Lra Permutation Sorted.
Import ListNotations.

#[local] Set Warnings "-register-all,-inexact-float".

Local Open Scope string_scope.
Local Open Scope Z_scope.

(** ** JavaScript primitives used by the services *)

Module JS.

(** Strings are sequences of code units; the model keeps the code units
    below 256, one per [ascii]. *)
Definition charCodes (s : string) : list Z :=
  map (fun c => Z.of_N (N_of_ascii c)) (list_ascii_of_string s).

(** [ToInt32]: the value modulo 2^32, read as a signed 32-bit integer. *)
Definition toInt32 (z : Z) : Z :=
  let m := z mod 2 ^ 32 in
  if m <? 2 ^ 31 then m else m - 2 ^ 32.

(** [x << n] and [x & y] on Numbers holding integers. *)
Definition shl (x n : Z) : Z := toInt32 (Z.shiftl (toInt32 x) (n mod 32)).
Definition band (x y : Z) : Z := toInt32 (Z.land (toInt32 x) (toInt32 y)).

(** [Number.prototype.toString()] on an integer (below 10^21 in size, where
    JavaScript prints all the digits). *)
Definition toString10 (z : Z) : string := NilZero.string_of_int (Z.to_int z).

Definition hexDigit (d : Z) : ascii :=
  if d <? 10 then ascii_of_N (Z.to_N (48 + d)) else ascii_of_N (Z.to_N (87 + d)).

Fixpoint hexDigits (fuel : nat) (n : Z) (acc : string) : string :=
  match fuel with
  | O => acc
  | S fuel' =>
      let acc' := String (hexDigit (n mod 16)) acc in
      if n / 16 =? 0 then acc' else hexDigits fuel' (n / 16) acc'
  end.

(** [n.toString(16)] on an integer: sign, then lower-case hexadecimal digits. *)
Definition toString16 (n : Z) : string :=
  let digits := hexDigits (S (Z.to_nat (Z.log2 (Z.abs n)))) (Z.abs n) "" in
  if n <? 0 then String "-" digits else digits.

(** *** [JSON.stringify] on values built from integers, strings, arrays and
    objects (an object is the list of its own properties, in insertion
    order). *)
Inductive json : Type :=
| JNull
| JBool (b : bool)
| JNum (z : Z)
| JStr (s : string)
| JArr (items : list json)
| JObj (props : list (string * json)).

Definition hex4 (n : Z) : string :=
  String (hexDigit (n / 4096 mod 16)) (String (hexDigit (n / 256 mod 16))
    (String (hexDigit (n / 16 mod 16)) (String (hexDigit (n mod 16)) ""))).

Definition backslash : ascii := ascii_of_N 92.
Definition dquote : ascii := ascii_of_N 34.

(** [QuoteJSONString] for one code unit. *)
Definition quoteChar (c : ascii) : string :=
  let n := Z.of_N (N_of_ascii c) in
  if n =? 8 then String backslash "b"
  else if n =? 9 then String backslash "t"
  else if n =? 10 then String backslash "n"
  else if n =? 12 then String backslash "f"
  else if n =? 13 then String backslash "r"
  else if n =? 34 then String backslash (String dquote "")
  else if n =? 92 then String backslash (String backslash "")
  else if n <? 32 then String backslash ("u" ++ hex4 n)
  else String c "".

Fixpoint quoteBody (s : string) : string :=
  match s with
  | EmptyString => ""
  | String c rest => quoteChar c ++ quoteBody rest
  end.

Definition quote (s : string) : string :=
  String dquote (quoteBody s ++ String dquote "").

Definition joinComma (parts : list string) : string :=
  match parts with
  | [] => ""
  | p :: ps => fold_left (fun acc q => acc ++ "," ++ q) ps p
  end.

Fixpoint stringify (v : json) : string :=
  match v with
  | JNull => "null"
  | JBool true => "true"
  | JBool false => "false"
  | JNum z => toString10 z
  | JStr s => quote s
  | JArr items => "[" ++ joinComma (map stringify items) ++ "]"
  | JObj props =>
      "{" ++ joinComma (map (fun kv => quote (fst kv) ++ ":" ++ stringify (snd kv)) props)
          ++ "}"
  end.

(** *** [Date.prototype.toISOString] on a time value (milliseconds since the
    epoch), through the civil date of its day number. *)
Definition civilFromDays (days : Z) : Z * Z * Z :=
  let z := days + 719468 in
  let era := z / 146097 in
  let doe := z - era * 146097 in
  let yoe := (doe - doe / 1460 + doe / 36524 - doe / 146096) / 365 in
  let doy := doe - (365 * yoe + yoe / 4 - yoe / 100) in
  let mp := (5 * doy + 2) / 153 in
  let d := doy - (153 * mp + 2) / 5 + 1 in
  let m := if mp <? 10 then mp + 3 else mp - 9 in
  let y := yoe + era * 400 in
  (if m <=? 2 then y + 1 else y, m, d).

Fixpoint padZeros (missing : nat) (s : string) : string :=
  match missing with
  | O => s
  | S k => String "0" (padZeros k s)
  end.

Definition padStart (width : nat) (z : Z) : string :=
  let s := toString10 z in padZeros (width - String.length s) s.

Definition toISOString (ms : Z) : string :=
  let day := ms / 86400000 in
  let rest := ms mod 86400000 in
  let '(y, m, d) := civilFromDays day in
  let year :=
    if (0 <=? y) && (y <=? 9999) then padStart 4 y
    else (if y <? 0 then "-" else "+") ++ padStart 6 (Z.abs y) in
  year ++ "-" ++ padStart 2 m ++ "-" ++ padStart 2 d ++ "T"
       ++ padStart 2 (rest / 3600000) ++ ":" ++ padStart 2 (rest / 60000 mod 60) ++ ":"
       ++ padStart 2 (rest / 1000 mod 60) ++ "." ++ padStart 3 (rest mod 1000) ++ "Z".

End JS.

(** ** BlockchainService

    The calls to [HoneyNetService] (connection, latest blocks, submission of
    a record) belong to the outside world: what they answer is an argument
    of the method that makes them. *)

Module Blockchain.

Record ThreatRecord : Type := {
  id : string;
  threatType : string;
  severity : string;
  sourceIp : string;
  targetIp : string;
  timestamp : Z;                       (* Date, as its time value *)
  signature : string;
  metadata : list (string * JS.json)   (* Record<string, any> *)
}.

Record Block : Type := {
  blockNumber : Z;
  blockHash : string;
  previousHash : string;
  blockTimestamp : Z;                  (* Date, as its time value *)
  threatRecords : list ThreatRecord;
  minerId : string;
  nonce : Z;
  merkleRoot : string
}.

(** The argument of [submitThreatRecord]. *)
Record ThreatData : Type := {
  td_threatType : string;
  td_severity : string;
  td_sourceIp : string;
  td_targetIp : string;
  td_signature : string;
  td_metadata : list (string * JS.json)
}.

(** The private fields of [BlockchainServiceClass]. *)
Record Service : Type := {
  localChain : list Block;
  pendingThreatRecords : list ThreatRecord;
  isConnected : bool;
  nodeId : string
}.

(** [generateThreatId]: [now] is the reading of [Date.now()], [random] the
    text of [Math.random().toString(36).substring(2)]. *)
Definition generateThreatId (now : Z) (random : string) : string :=
  "threat_" ++ JS.toString10 now ++ "_" ++ random.

(** What the outside world answers during one [submitThreatRecord]: the two
    readings of the clock, the random draw, and whether
    [HoneyNetService.submitThreatToBlockchain] resolves. *)
Record SubmitEnv : Type := {
  env_now : Z;
  env_random : string;
  env_date : Z;
  env_networkOk : bool
}.

(** [submitThreatRecord]: the id on success, [inr tt] when the network call
    throws (the error is rethrown); the record is pushed first either way. *)
Definition submitThreatRecord (env : SubmitEnv) (s : Service) (threatData : ThreatData)
  : (string + unit) * Service :=
  let threatRecord :=
    {| id := generateThreatId (env_now env) (env_random env);
       threatType := td_threatType threatData;
       severity := td_severity threatData;
       sourceIp := td_sourceIp threatData;
       targetIp := td_targetIp threatData;
       signature := td_signature threatData;
       metadata := td_metadata threatData;
       timestamp := env_date env |} in
  let s' :=
    {| localChain := localChain s;
       pendingThreatRecords := (pendingThreatRecords s ++ [threatRecord])%list;
       isConnected := isConnected s;
       nodeId := nodeId s |} in
  if isConnected s && negb (env_networkOk env) then (inr tt, s')
  else (inl (id threatRecord), s').

(** The object a [ThreatRecord] is when [JSON.stringify] walks it: the
    properties in the order [submitThreatRecord] creates them. *)
Definition threatRecordJSON (r : ThreatRecord) : JS.json :=
  JS.JObj [("id", JS.JStr (id r));
           ("threatType", JS.JStr (threatType r));
           ("severity", JS.JStr (severity r));
           ("sourceIp", JS.JStr (sourceIp r));
           ("targetIp", JS.JStr (targetIp r));
           ("signature", JS.JStr (signature r));
           ("metadata", JS.JObj (metadata r));
           ("timestamp", JS.JStr (JS.toISOString (timestamp r)))].

Definition blockData (block : Block) : JS.json :=
  JS.JObj [("blockNumber", JS.JNum (blockNumber block));
           ("previousHash", JS.JStr (previousHash block));
           ("timestamp", JS.JNum (blockTimestamp block));
           ("threatRecords", JS.JArr (map threatRecordJSON (threatRecords block)));
           ("nonce", JS.JNum (nonce block))].

(** One turn of the hash loop: [hash = ((hash << 5) - hash) + char;
    hash = hash & hash]. *)
Definition hashStep (hash char : Z) : Z :=
  let hash := (JS.shl hash 5 - hash) + char in
  JS.band hash hash.

Definition calculateBlockHash (block : Block) : string :=
  let dataString := JS.stringify (blockData block) in
  JS.toString16 (fold_left hashStep (JS.charCodes dataString) 0).

(** The loop of [validateChain] from index [i] on, [previousBlock] being
    [chain[i - 1]] and [rest] the blocks from [chain[i]]. *)
Fixpoint validateFrom (previousBlock : Block) (rest : list Block) : bool :=
  match rest with
  | [] => true
  | currentBlock :: rest' =>
      if negb (previousHash currentBlock =? blockHash previousBlock)%string then false
      else if negb (calculateBlockHash currentBlock =? blockHash currentBlock)%string
           then false
           else validateFrom currentBlock rest'
  end.

Definition validateChain (chain : list Block) : bool :=
  match chain with
  | [] => true
  | first :: rest => validateFrom first rest
  end.

(** [mergeChains]: the local chain is replaced when the network's is longer
    and valid ([saveLocalChain] only writes to storage and logs its errors). *)
Definition mergeChains (s : Service) (networkBlocks : list Block) : Service :=
  if (List.length (localChain s) <? List.length networkBlocks)%nat then
    let isValid := validateChain networkBlocks in
    if isValid then
      {| localChain := networkBlocks;
         pendingThreatRecords := pendingThreatRecords s;
         isConnected := isConnected s;
         nodeId := nodeId s |}
    else s
  else s.

(** The loop of [submitPendingRecords] over the copy [recordsToSubmit];
    [submitOk k] tells whether the [k]-th call of [submitToNetwork] resolves,
    and [pending] is the current [pendingThreatRecords]. *)
Fixpoint submitLoop (submitOk : nat -> bool) (k : nat)
  (recordsToSubmit pending : list ThreatRecord) : list ThreatRecord :=
  match recordsToSubmit with
  | [] => pending
  | record :: rest =>
      let pending' :=
        if submitOk k
        then filter (fun r => negb (id r =? id record)%string) pending
        else pending in
      submitLoop submitOk (S k) rest pending'
  end.

Definition submitPendingRecords (submitOk : nat -> bool) (s : Service) : Service :=
  if negb (isConnected s) || (List.length (pendingThreatRecords s) =? 0)%nat then s
  else
    let recordsToSubmit := pendingThreatRecords s in
    {| localChain := localChain s;
       pendingThreatRecords :=
         submitLoop submitOk 0 recordsToSubmit (pendingThreatRecords s);
       isConnected := isConnected s;
       nodeId := nodeId s |}.

(** *** Queries and housekeeping *)

Definition getTotalThreatsInChain (s : Service) : Z :=
  fold_left (fun total block => total + Z.of_nat (List.length (threatRecords block)))
            (localChain s) 0.

(** [l.slice(start)] for an integer [start]: a negative one counts from the
    end. *)
Definition sliceFrom {A : Type} (start : Z) (l : list A) : list A :=
  let len := Z.of_nat (List.length l) in
  let from := if start <? 0 then Z.max (len + start) 0 else Z.min start len in
  skipn (Z.to_nat from) l.

(** [getRecentBlocks(limit)]; [networkAnswer] is what
    [HoneyNetService.getRecentBlocks] resolves to, [None] when it rejects
    (the method then answers the empty array). *)
Definition getRecentBlocks (limit : Z) (networkAnswer : option (list Block)) (s : Service)
  : list Block :=
  if isConnected s then
    match networkAnswer with
    | Some blocks => blocks
    | None => []
    end
  else rev (sliceFrom (- limit) (localChain s)).

(** [getBlockByHash]: the local chain first, then the network. *)
Definition getBlockByHash (hash : string) (networkAnswer : option (option Block))
  (s : Service) : option Block :=
  match find (fun block => (blockHash block =? hash)%string) (localChain s) with
  | Some localBlock => Some localBlock
  | None =>
      if isConnected s then
        match networkAnswer with
        | Some answer => answer
        | None => None
        end
      else None
  end.

(** The loop of [getThreatRecord] over the blocks of the local chain. *)
Fixpoint findInChain (threatId : string) (chain : list Block) : option ThreatRecord :=
  match chain with
  | [] => None
  | block :: rest =>
      match find (fun r => (id r =? threatId)%string) (threatRecords block) with
      | Some record => Some record
      | None => findInChain threatId rest
      end
  end.

(** [getThreatRecord]: the pending records first, then the local chain,
    then the network. *)
Definition getThreatRecord (threatId : string) (networkAnswer : option (option ThreatRecord))
  (s : Service) : option ThreatRecord :=
  match find (fun record => (id record =? threatId)%string) (pendingThreatRecords s) with
  | Some pendingRecord => Some pendingRecord
  | None =>
      match findInChain threatId (localChain s) with
      | Some record => Some record
      | None =>
          if isConnected s then
            match networkAnswer with
            | Some answer => answer
            | None => None
            end
          else None
      end
  end.

Definition verifyLocalChain (s : Service) : bool := validateChain (localChain s).

(** [calculateChainIntegrity]: 1.0 or 0.0. *)
Definition calculateChainIntegrity (s : Service) : Z :=
  if (List.length (localChain s) =? 0)%nat then 1
  else if verifyLocalChain s then 1 else 0.

(** [verifyChainIntegrity]; [networkAnswer] is what
    [HoneyNetService.verifyChainIntegrity] resolves to, [None] when it
    rejects. *)
Definition verifyChainIntegrity (networkAnswer : option bool) (s : Service) : bool :=
  let localIntegrity := verifyLocalChain s in
  if isConnected s then
    match networkAnswer with
    | Some networkIntegrity => localIntegrity && networkIntegrity
    | None => false
    end
  else localIntegrity.

(** [cleanup]: the state in memory is cleared ([stopMining] and the two
    storage writes catch their own errors). *)
Definition cleanup (s : Service) : Service :=
  {| localChain := []; pendingThreatRecords := []; isConnected := false;
     nodeId := nodeId s |}.

End Blockchain.
(** ** GamificationService *)

Module Gamification.

(** Numbers of this service are binary64 values, as JavaScript's are. *)

(** [Math.round]: the nearest integer, a tie going to the larger one; NaN,
    the infinities and integral values are returned as they are. *)
Definition Math_round (x : float) : float :=
  match Prim2SF x with
  | S754_finite s m e =>
      if 0 <=? e then x
      else
        let num := if s then Z.neg m else Z.pos m in
        let den := 2 ^ (- e) in
        let n := (2 * num + den) / (2 * den) in
        if n =? 0 then (if s then (-0)%float else 0%float)
        else if n <? 0 then PrimFloat.opp (PrimFloat.of_uint63 (Uint63.of_Z (- n)))
        else PrimFloat.of_uint63 (Uint63.of_Z n)
  | _ => x
  end.

(** What reading a property of an object literal of numbers can give. *)
Inductive value : Type :=
| VUndefined
| VNumber (x : float)
| VInherited.          (* a function or object found on [Object.prototype] *)

(** The properties every object literal inherits from [Object.prototype]. *)
Definition objectPrototype : list string :=
  ["constructor"; "hasOwnProperty"; "isPrototypeOf"; "propertyIsEnumerable";
   "toLocaleString"; "toString"; "valueOf"; "__proto__";
   "__defineGetter__"; "__defineSetter__"; "__lookupGetter__"; "__lookupSetter__"].

Fixpoint ownProperty (props : list (string * float)) (key : string) : option float :=
  match props with
  | [] => None
  | (k, x) :: rest => if (k =? key)%string then Some x else ownProperty rest key
  end.

(** [obj[key]]: the own property, else the inherited one, else [undefined]. *)
Definition getProperty (props : list (string * float)) (key : string) : value :=
  match ownProperty props key with
  | Some x => VNumber x
  | None =>
      if existsb (fun k => (k =? key)%string) objectPrototype then VInherited
      else VUndefined
  end.

Definition truthy (v : value) : bool :=
  match v with
  | VUndefined => false
  | VNumber x => negb (PrimFloat.eqb x 0 || PrimFloat.is_nan x)
  | VInherited => true
  end.

(** [v || d] *)
Definition orElse (v : value) (d : float) : value :=
  if truthy v then v else VNumber d.

(** [ToNumber]: a function or a plain object converts to NaN. *)
Definition toNumber (v : value) : float :=
  match v with
  | VUndefined => nan
  | VNumber x => x
  | VInherited => nan
  end.

Definition basePoints : list (string * float) :=
  [("low", 10%float); ("medium", 25%float); ("high", 50%float); ("critical", 100%float)].

Definition typeMultiplier : list (string * float) :=
  [("malware", 1.2%float); ("phishing", 1.1%float); ("ddos", 1.3%float);
   ("brute_force", 1.0%float); ("sql_injection", 1.4%float); ("xss", 1.1%float)].

Definition calculateThreatPoints (threatType severity : string) : float :=
  let base := orElse (getProperty basePoints severity) 10 in
  let multiplier := orElse (getProperty typeMultiplier threatType) 1.0 in
  Math_round (toNumber base * toNumber multiplier)%float.

Inductive Rarity : Type := common | rare | epic | legendary.

Record Achievement : Type := {
  id : string;
  name : string;
  description : string;
  icon : string;
  unlockedAt : Z;
  rarity : Rarity;
  points : float
}.

Record NFTBadge : Type := {
  badge_id : string;
  badge_name : string;
  badge_description : string;
  imageUrl : string;
  mintedAt : Z;
  badge_rarity : string;
  attributes : list (string * JS.json)
}.

Record PlayerStats : Type := {
  playerId : string;
  level : float;
  totalPoints : float;
  threatsDetected : float;
  honeypotsTriggered : float;
  currentLeague : string;
  achievements : list Achievement;
  nftBadges : list NFTBadge
}.

Record LeaderboardEntry : Type := {
  entry_playerId : string;
  playerName : string;
  entry_level : float;
  entry_points : float;
  rank : float;
  avatar : option string
}.

Record Leaderboard : Type := {
  players : list LeaderboardEntry;
  userRank : float;
  totalPlayers : float
}.

(** The private fields of [GamificationServiceClass]. *)
Record Service : Type := {
  playerStats : option PlayerStats;
  serviceAchievements : list Achievement;
  leaderboard : option Leaderboard
}.

Definition unlockAchievement (s : Service) (achievement : Achievement) : Service :=
  match playerStats s with
  | None => s
  | Some stats =>
      let alreadyUnlocked :=
        existsb (fun a => (id a =? id achievement)%string) (achievements stats) in
      if alreadyUnlocked then s
      else
        {| playerStats :=
             Some {| playerId := playerId stats;
                     level := level stats;
                     totalPoints := (totalPoints stats + points achievement)%float;
                     threatsDetected := threatsDetected stats;
                     honeypotsTriggered := honeypotsTriggered stats;
                     currentLeague := currentLeague stats;
                     achievements := (achievements stats ++ [achievement])%list;
                     nftBadges := nftBadges stats |};
           serviceAchievements := serviceAchievements s;
           leaderboard := leaderboard s |}
  end.

End Gamification.
(** ** QuantumService *)

Module Quantum.

(** Counters are integers; the fractional numbers of this service
    (confidence, coherence, random noise) are kept as exact rationals. *)

Inductive QuantumState : Type := superposition | entangled | collapsed | decoherent.

Inductive KeyStrength : Type := post_quantum_256 | post_quantum_512 | post_quantum_1024.

Inductive SignatureType : Type :=
| quantum_brute_force | shor_algorithm | grover_search | quantum_mitm | decoherence_attack.

Inductive Algorithm : Type := kyber | dilithium | falcon | sphincs | mceliece.

Record QuantumCharacteristics : Type := {
  qc_coherenceTime : option Q;
  qc_entanglementDegree : option Q;
  qc_quantumVolume : option Q;
  qc_errorRate : option Q
}.

Record QuantumAttackSignature : Type := {
  signatureId : string;
  signatureType : SignatureType;
  confidence : Q;
  detectedAt : Z;
  attackVector : string;
  quantumCharacteristics : QuantumCharacteristics;
  countermeasures : list string
}.

Inductive MetaValue : Type :=
| MetaDate (ms : Z)
| MetaText (s : string)
| MetaNumber (q : Q).

Record QuantumHoneypot : Type := {
  honeypotId : string;
  quantumState : QuantumState;
  entanglementPartner : option string;
  keyStrength : KeyStrength;
  lastKeyRotation : Z;
  attacksDetected : Z;
  quantumSignatures : list QuantumAttackSignature;
  isActive : bool;
  location : string;
  metadata : list (string * MetaValue)
}.

Record QuantumKey : Type := {
  keyId : string;
  algorithm : Algorithm;
  keySize : Z;
  publicKey : string;
  privateKey : string;
  createdAt : Z;
  expiresAt : Z;
  usageCount : Z;
  isCompromised : bool
}.

Record QuantumSystemStatus : Type := {
  totalHoneypots : Z;
  activeHoneypots : Z;
  quantumStates : list (QuantumState * Z);
  entangledPairs : Q;
  averageKeyStrength : KeyStrength;
  totalAttacksDetected : Z;
  systemCoherence : Q;
  lastQuantumSync : Z
}.

(** The private fields of [QuantumServiceClass]. *)
Record Service : Type := {
  quantumHoneypots : list QuantumHoneypot;
  quantumKeys : list QuantumKey;
  attackSignatures : list QuantumAttackSignature;
  systemStatus : QuantumSystemStatus;
  isQuantumSystemActive : bool
}.

(** The argument [attackData : any], read through the properties the
    service looks at. *)
Record AttackData : Type := {
  ad_coherenceTime : option Q;
  ad_entanglementDegree : option Q;
  ad_quantumVolume : option Q;
  ad_vector : option string
}.

(** *** Updates of the state *)

Definition withHoneypots (s : Service) (l : list QuantumHoneypot) : Service :=
  {| quantumHoneypots := l; quantumKeys := quantumKeys s;
     attackSignatures := attackSignatures s; systemStatus := systemStatus s;
     isQuantumSystemActive := isQuantumSystemActive s |}.

Definition withKeys (s : Service) (l : list QuantumKey) : Service :=
  {| quantumHoneypots := quantumHoneypots s; quantumKeys := l;
     attackSignatures := attackSignatures s; systemStatus := systemStatus s;
     isQuantumSystemActive := isQuantumSystemActive s |}.

Definition withSignatures (s : Service) (l : list QuantumAttackSignature) : Service :=
  {| quantumHoneypots := quantumHoneypots s; quantumKeys := quantumKeys s;
     attackSignatures := l; systemStatus := systemStatus s;
     isQuantumSystemActive := isQuantumSystemActive s |}.

Definition withStatus (s : Service) (st : QuantumSystemStatus) : Service :=
  {| quantumHoneypots := quantumHoneypots s; quantumKeys := quantumKeys s;
     attackSignatures := attackSignatures s; systemStatus := st;
     isQuantumSystemActive := isQuantumSystemActive s |}.

(** A honeypot object is referred to by its place in [quantumHoneypots]:
    the operations below only push onto that array, so a place keeps
    denoting the same object.  (Reading a place past the end, which no
    operation can hold, ends the method.) *)
Definition Ref : Type := nat.

Fixpoint updateAt {A : Type} (i : nat) (f : A -> A) (l : list A) : list A :=
  match l, i with
  | [], _ => []
  | x :: rest, O => f x :: rest
  | x :: rest, S j => x :: updateAt j f rest
  end.

(** Assignment to fields of the object at [ref]. *)
Definition modify (ref : Ref) (f : QuantumHoneypot -> QuantumHoneypot) (s : Service)
  : Service :=
  withHoneypots s (updateAt ref f (quantumHoneypots s)).

Fixpoint findIndexFrom {A : Type} (p : A -> bool) (i : nat) (l : list A) : option nat :=
  match l with
  | [] => None
  | x :: rest => if p x then Some i else findIndexFrom p (S i) rest
  end.

(** [quantumHoneypots.find(h => h.honeypotId === id)], as a reference. *)
Definition findHoneypot (honeypotId' : string) (s : Service) : option Ref :=
  findIndexFrom (fun h => (honeypotId h =? honeypotId')%string) 0 (quantumHoneypots s).

Definition setQuantumState (q : QuantumState) (h : QuantumHoneypot) : QuantumHoneypot :=
  {| honeypotId := honeypotId h; quantumState := q;
     entanglementPartner := entanglementPartner h; keyStrength := keyStrength h;
     lastKeyRotation := lastKeyRotation h; attacksDetected := attacksDetected h;
     quantumSignatures := quantumSignatures h; isActive := isActive h;
     location := location h; metadata := metadata h |}.

Definition setEntanglement (partner : string) (h : QuantumHoneypot) : QuantumHoneypot :=
  {| honeypotId := honeypotId h; quantumState := entangled;
     entanglementPartner := Some partner; keyStrength := keyStrength h;
     lastKeyRotation := lastKeyRotation h; attacksDetected := attacksDetected h;
     quantumSignatures := quantumSignatures h; isActive := isActive h;
     location := location h; metadata := metadata h |}.

Definition setLastKeyRotation (now : Z) (h : QuantumHoneypot) : QuantumHoneypot :=
  {| honeypotId := honeypotId h; quantumState := quantumState h;
     entanglementPartner := entanglementPartner h; keyStrength := keyStrength h;
     lastKeyRotation := now; attacksDetected := attacksDetected h;
     quantumSignatures := quantumSignatures h; isActive := isActive h;
     location := location h; metadata := metadata h |}.

(** [honeypot.quantumSignatures.push(signature); honeypot.attacksDetected += 1] *)
Definition recordAttack (signature : QuantumAttackSignature) (h : QuantumHoneypot)
  : QuantumHoneypot :=
  {| honeypotId := honeypotId h; quantumState := quantumState h;
     entanglementPartner := entanglementPartner h; keyStrength := keyStrength h;
     lastKeyRotation := lastKeyRotation h; attacksDetected := attacksDetected h + 1;
     quantumSignatures := (quantumSignatures h ++ [signature])%list; isActive := isActive h;
     location := location h; metadata := metadata h |}.

Fixpoint setProperty {V : Type} (key : string) (v : V) (props : list (string * V))
  : list (string * V) :=
  match props with
  | [] => [(key, v)]
  | (k, v') :: rest =>
      if (k =? key)%string then (k, v) :: rest else (k, v') :: setProperty key v rest
  end.

Definition setMetadata (key : string) (v : MetaValue) (h : QuantumHoneypot)
  : QuantumHoneypot :=
  {| honeypotId := honeypotId h; quantumState := quantumState h;
     entanglementPartner := entanglementPartner h; keyStrength := keyStrength h;
     lastKeyRotation := lastKeyRotation h; attacksDetected := attacksDetected h;
     quantumSignatures := quantumSignatures h; isActive := isActive h;
     location := location h; metadata := setProperty key v (metadata h) |}.

(** *** Asynchronous methods

    An [async] method runs without interruption from one [await] to the
    next.  [Eff] is a piece of synchronous work on the service, [Yield] an
    [await]: the point where the method is suspended and other pending work
    may run.  What a stretch of synchronous code reads from the outside
    world is its [Env]; no stretch of the service draws more than one
    identifier, one pair of keys and one random number. *)

Record Env : Type := {
  Date_now : Z;                (* the clock *)
  random36 : string;           (* Math.random().toString(36).substring(2) *)
  randomPublicKey : string;    (* generateRandomKey(keySize / 2) *)
  randomPrivateKey : string;   (* generateRandomKey(keySize) *)
  Math_random : Q              (* Math.random() *)
}.

Inductive Async (A : Type) : Type :=
| Done (a : A)
| Eff {X : Type} (op : Env -> Service -> X * Service) (k : X -> Async A)
| Yield (k : Async A).

Arguments Done {A} a.
Arguments Eff {A X} op k.
Arguments Yield {A} k.

Fixpoint bind {A B : Type} (m : Async A) (f : A -> Async B) : Async B :=
  match m with
  | Done a => f a
  | Eff op k => Eff op (fun x => bind (k x) f)
  | Yield k => Yield (bind k f)
  end.

Notation "x <- m ;; k" := (bind m (fun x => k))
  (at level 61, m at next level, right associativity).
Notation "m ;;; k" := (bind m (fun _ => k))
  (at level 61, right associativity).

(** [await m]: the callee runs up to its own first suspension inside the
    caller's stretch; the caller is resumed on a later turn. *)
Definition await {A : Type} (m : Async A) : Async A :=
  a <- m ;; Yield (Done a).

Definition get : Async Service := Eff (fun _ s => (s, s)) Done.
Definition env : Async Env := Eff (fun e s => (e, s)) Done.
Definition update (f : Service -> Service) : Async unit := Eff (fun _ s => (tt, f s)) Done.

Fixpoint forEach {X : Type} (l : list X) (body : X -> Async unit) : Async unit :=
  match l with
  | [] => Done tt
  | x :: rest => body x ;;; forEach rest body
  end.

(** An [await] on a promise of the platform or of [HoneyNetService]
    (storage write, network report): every caller catches and logs its
    failure, and nothing of the service changes. *)
Definition external : Async unit := Yield (Done tt).

(** *** Pure helpers *)

Definition QuantumState_eqb (a b : QuantumState) : bool :=
  match a, b with
  | superposition, superposition | entangled, entangled
  | collapsed, collapsed | decoherent, decoherent => true
  | _, _ => false
  end.

Definition KeyStrength_eqb (a b : KeyStrength) : bool :=
  match a, b with
  | post_quantum_256, post_quantum_256 | post_quantum_512, post_quantum_512
  | post_quantum_1024, post_quantum_1024 => true
  | _, _ => false
  end.

Definition getKeySize (strength : KeyStrength) : Z :=
  match strength with
  | post_quantum_256 => 256
  | post_quantum_512 => 512
  | post_quantum_1024 => 1024
  end.

Definition algorithmName (a : Algorithm) : string :=
  match a with
  | kyber => "kyber" | dilithium => "dilithium" | falcon => "falcon"
  | sphincs => "sphincs" | mceliece => "mceliece"
  end.

Definition generateHoneypotId (e : Env) : string :=
  "qhp_" ++ JS.toString10 (Date_now e) ++ "_" ++ random36 e.

Definition generateSignatureId (e : Env) : string :=
  "qsig_" ++ JS.toString10 (Date_now e) ++ "_" ++ random36 e.

(** [x && x > bound] on an optional number. *)
Definition above (bound : Q) (x : option Q) : bool :=
  match x with
  | Some q => negb (Qle_bool q bound)
  | None => false
  end.

Record Indicators : Type := {
  isQuantumAttack : bool;
  attackType : SignatureType;
  ind_confidence : Q;
  characteristics : QuantumCharacteristics
}.

Definition detectQuantumIndicators (attackData : AttackData) : Indicators :=
  let i0 :=
    {| isQuantumAttack := false; attackType := quantum_brute_force; ind_confidence := 0;
       characteristics :=
         {| qc_coherenceTime := None; qc_entanglementDegree := None;
            qc_quantumVolume := None; qc_errorRate := None |} |} in
  let i1 :=
    if above 0 (ad_coherenceTime attackData) then
      {| isQuantumAttack := true; attackType := attackType i0;
         ind_confidence := (ind_confidence i0 + (3 # 10))%Q;
         characteristics :=
           {| qc_coherenceTime := ad_coherenceTime attackData;
              qc_entanglementDegree := qc_entanglementDegree (characteristics i0);
              qc_quantumVolume := qc_quantumVolume (characteristics i0);
              qc_errorRate := qc_errorRate (characteristics i0) |} |}
    else i0 in
  let i2 :=
    if above 0 (ad_entanglementDegree attackData) then
      {| isQuantumAttack := true; attackType := attackType i1;
         ind_confidence := (ind_confidence i1 + (4 # 10))%Q;
         characteristics :=
           {| qc_coherenceTime := qc_coherenceTime (characteristics i1);
              qc_entanglementDegree := ad_entanglementDegree attackData;
              qc_quantumVolume := qc_quantumVolume (characteristics i1);
              qc_errorRate := qc_errorRate (characteristics i1) |} |}
    else i1 in
  if above 1 (ad_quantumVolume attackData) then
    {| isQuantumAttack := true;
       attackType :=
         if above 1000 (ad_quantumVolume attackData) then shor_algorithm
         else if above 100 (ad_quantumVolume attackData) then grover_search
         else attackType i2;
       ind_confidence := (ind_confidence i2 + (3 # 10))%Q;
       characteristics :=
         {| qc_coherenceTime := qc_coherenceTime (characteristics i2);
            qc_entanglementDegree := qc_entanglementDegree (characteristics i2);
            qc_quantumVolume := ad_quantumVolume attackData;
            qc_errorRate := qc_errorRate (characteristics i2) |} |}
  else i2.

Definition getCountermeasures (attackType' : SignatureType) : list string :=
  match attackType' with
  | quantum_brute_force => ["key_rotation"; "increased_key_size"; "quantum_noise_injection"]
  | shor_algorithm => ["post_quantum_crypto"; "key_rotation"; "quantum_entanglement"]
  | grover_search => ["doubled_key_size"; "quantum_error_correction"; "decoherence_induction"]
  | quantum_mitm => ["quantum_authentication"; "entanglement_verification"; "quantum_signatures"]
  | decoherence_attack => ["error_correction"; "redundant_encoding"; "environmental_isolation"]
  end.

(** [vector || 'unknown'] *)
Definition vectorOrUnknown (v : option string) : string :=
  match v with
  | Some "" | None => "unknown"
  | Some s => s
  end.

Definition analyzeQuantumAttack (attackData : AttackData)
  : Async (option QuantumAttackSignature) :=
  e <- env ;;
  let quantumIndicators := detectQuantumIndicators attackData in
  if isQuantumAttack quantumIndicators then
    Done (Some {| signatureId := generateSignatureId e;
                  signatureType := attackType quantumIndicators;
                  confidence := ind_confidence quantumIndicators;
                  detectedAt := Date_now e;
                  attackVector := vectorOrUnknown (ad_vector attackData);
                  quantumCharacteristics := characteristics quantumIndicators;
                  countermeasures := getCountermeasures (attackType quantumIndicators) |})
  else Done None.

(** *** Keys *)

(** [generatePostQuantumKeyPair] followed by the construction of the key
    object: the pair is drawn in the stretch before the [await], the object
    is built and pushed in the stretch after it. *)
Definition makeQuantumKey (honeypotId' : string) (strength : KeyStrength)
  (algorithm' : Algorithm) (keyPair : string * string) (e : Env) : QuantumKey :=
  {| keyId := honeypotId' ++ "_" ++ algorithmName algorithm' ++ "_"
              ++ JS.toString10 (Date_now e);
     algorithm := algorithm';
     keySize := getKeySize strength;
     publicKey := fst keyPair;
     privateKey := snd keyPair;
     createdAt := Date_now e;
     expiresAt := Date_now e + 24 * 60 * 60 * 1000;
     usageCount := 0;
     isCompromised := false |}.

Definition generatePostQuantumKeyPair : Async (string * string) :=
  e <- env ;; Done (randomPublicKey e, randomPrivateKey e).

(** [generateQuantumKeys(honeypot)] reads [honeypot.honeypotId] and
    [honeypot.keyStrength], two fields no method assigns; they are passed
    as values. *)
Definition generateQuantumKeys (honeypotId' : string) (strength : KeyStrength)
  : Async unit :=
  update (fun s =>
    withKeys s (filter (fun key => negb (String.prefix honeypotId' (keyId key)))
                       (quantumKeys s))) ;;;
  forEach [kyber; dilithium; falcon] (fun algorithm' =>
    keyPair <- await generatePostQuantumKeyPair ;;
    e <- env ;;
    update (fun s =>
      withKeys s (quantumKeys s
                    ++ [makeQuantumKey honeypotId' strength algorithm' keyPair e])%list)).

Definition saveQuantumData : Async unit := external.

Fixpoint indicesFrom {A : Type} (p : A -> bool) (i : nat) (l : list A) : list nat :=
  match l with
  | [] => []
  | x :: rest => if p x then i :: indicesFrom p (S i) rest else indicesFrom p (S i) rest
  end.

(** [honeypotId ? quantumHoneypots.filter(...) : quantumHoneypots], as
    references.  The loop of [rotateQuantumKeys] walks the honeypots present
    when it starts. *)
Definition honeypotsToRotate (honeypotId' : option string) (s : Service) : list Ref :=
  match honeypotId' with
  | Some "" | None => seq 0 (List.length (quantumHoneypots s))
  | Some i => indicesFrom (fun h => (honeypotId h =? i)%string) 0 (quantumHoneypots s)
  end.

(** [if (honeypot.entanglementPartner)] *)
Definition partnerOf (h : QuantumHoneypot) : option string :=
  match entanglementPartner h with
  | Some "" | None => None
  | Some p => Some p
  end.

(** The body of the loop of [rotateQuantumKeys] for one honeypot. *)
Definition rotateOne (ref : Ref) : Async unit :=
  s <- get ;;
  match nth_error (quantumHoneypots s) ref with
  | None => Done tt
  | Some honeypot =>
      await (generateQuantumKeys (honeypotId honeypot) (keyStrength honeypot)) ;;;
      e <- env ;;
      update (modify ref (setLastKeyRotation (Date_now e))) ;;;
      s1 <- get ;;
      match nth_error (quantumHoneypots s1) ref with
      | None => Done tt
      | Some honeypot1 =>
          match partnerOf honeypot1 with
          | None => Done tt
          | Some partnerId =>
              match findHoneypot partnerId s1 with
              | None => Done tt
              | Some partner =>
                  match nth_error (quantumHoneypots s1) partner with
                  | None => Done tt
                  | Some p =>
                      await (generateQuantumKeys (honeypotId p) (keyStrength p)) ;;;
                      e' <- env ;;
                      update (modify partner (setLastKeyRotation (Date_now e')))
                  end
              end
          end
      end
  end.

Definition rotateQuantumKeys (honeypotId' : option string) : Async unit :=
  s <- get ;;
  forEach (honeypotsToRotate honeypotId' s) rotateOne ;;;
  await saveQuantumData.

(** *** Countermeasures *)

Definition injectQuantumNoise (ref : Ref) : Async unit :=
  e <- env ;;
  update (modify ref (setMetadata "quantumNoise" (MetaNumber (Math_random e)))).

Definition induceDecoherence (ref : Ref) : Async unit :=
  update (modify ref (fun honeypot =>
    match quantumState honeypot with
    | superposition | entangled => setQuantumState decoherent honeypot
    | _ => honeypot
    end)).

Definition countermeasure (ref : Ref) (name : string) : Async unit :=
  if (name =? "key_rotation")%string then
    s <- get ;;
    match nth_error (quantumHoneypots s) ref with
    | None => Done tt
    | Some honeypot => await (rotateQuantumKeys (Some (honeypotId honeypot)))
    end
  else if (name =? "quantum_noise_injection")%string then await (injectQuantumNoise ref)
  else if (name =? "decoherence_induction")%string then await (induceDecoherence ref)
  else Done tt.

Definition triggerQuantumCountermeasures (ref : Ref) (signature : QuantumAttackSignature)
  : Async unit :=
  forEach (countermeasures signature) (countermeasure ref).

(** *** The status summary *)

Fixpoint increment {K : Type} (eqb : K -> K -> bool) (key : K) (counts : list (K * Z))
  : list (K * Z) :=
  match counts with
  | [] => [(key, 1)]
  | (k, n) :: rest =>
      if eqb k key then (k, n + 1) :: rest else (k, n) :: increment eqb key rest
  end.

Fixpoint lookup {K : Type} (eqb : K -> K -> bool) (key : K) (counts : list (K * Z))
  : option Z :=
  match counts with
  | [] => None
  | (k, n) :: rest => if eqb k key then Some n else lookup eqb key rest
  end.

(** [counts[a] > counts[b]], false when [counts[a]] is undefined. *)
Definition countGreater (counts : list (KeyStrength * Z)) (a b : KeyStrength) : bool :=
  match lookup KeyStrength_eqb a counts, lookup KeyStrength_eqb b counts with
  | Some x, Some y => y <? x
  | _, _ => false
  end.

Definition getMostCommonKeyStrength (strengths : list KeyStrength) : KeyStrength :=
  let counts :=
    fold_left (fun acc strength => increment KeyStrength_eqb strength acc) strengths [] in
  fold_left (fun a b => if countGreater counts a b then a else b)
            (map fst counts) post_quantum_256.

Definition countWhere {A : Type} (p : A -> bool) (l : list A) : Z :=
  Z.of_nat (List.length (filter p l)).

Definition updateSystemStatus : Async unit :=
  update (fun s =>
    let hs := quantumHoneypots s in
    withStatus s
      {| totalHoneypots := Z.of_nat (List.length hs);
         activeHoneypots := countWhere isActive hs;
         quantumStates :=
           fold_left (fun acc h => increment QuantumState_eqb (quantumState h) acc) hs [];
         entangledPairs :=
           (inject_Z (countWhere (fun h => QuantumState_eqb (quantumState h) entangled) hs)
            / 2)%Q;
         averageKeyStrength := getMostCommonKeyStrength (map keyStrength hs);
         totalAttacksDetected := fold_left (fun total h => total + attacksDetected h) hs 0;
         systemCoherence := systemCoherence (systemStatus s);
         lastQuantumSync := lastQuantumSync (systemStatus s) |}).

(** *** Public methods *)

Definition reportQuantumAttack (signature : QuantumAttackSignature) : Async unit := external.
Definition registerHoneypotWithNetwork (honeypot : QuantumHoneypot) : Async unit := external.
Definition notifyEntanglement (honeypotId1 honeypotId2 : string) : Async unit := external.

Definition whenActive (m : Async unit) : Async unit :=
  s <- get ;; if isQuantumSystemActive s then await m else Done tt.

(** [detectQuantumAttack] from the line after
    [await this.analyzeQuantumAttack(attackData)] on; [honeypot] is the
    object found before the [await]. *)
Definition afterAnalysis (honeypot : Ref) (signature : option QuantumAttackSignature)
  : Async (option QuantumAttackSignature) :=
  match signature with
  | Some sig =>
      update (modify honeypot (recordAttack sig)) ;;;
      update (fun s => withSignatures s (attackSignatures s ++ [sig])%list) ;;;
      await (triggerQuantumCountermeasures honeypot sig) ;;;
      await updateSystemStatus ;;;
      await saveQuantumData ;;;
      whenActive (reportQuantumAttack sig) ;;;
      Done (Some sig)
  | None => Done None
  end.

Definition detectQuantumAttack (honeypotId' : string) (attackData : AttackData)
  : Async (option QuantumAttackSignature) :=
  s <- get ;;
  match findHoneypot honeypotId' s with
  | None => Done None
  | Some honeypot =>
      signature <- await (analyzeQuantumAttack attackData) ;;
      afterAnalysis honeypot signature
  end.

Definition createQuantumHoneypot (location' : string) (strength : KeyStrength)
  : Async string :=
  e <- env ;;
  let honeypot :=
    {| honeypotId := generateHoneypotId e;
       quantumState := superposition;
       entanglementPartner := None;
       keyStrength := strength;
       lastKeyRotation := Date_now e;
       attacksDetected := 0;
       quantumSignatures := [];
       isActive := true;
       location := location';
       metadata := [("createdAt", MetaDate (Date_now e));
                    ("creator", MetaText "mobile_client")] |} in
  await (generateQuantumKeys (honeypotId honeypot) (keyStrength honeypot)) ;;;
  update (fun s => withHoneypots s (quantumHoneypots s ++ [honeypot])%list) ;;;
  await updateSystemStatus ;;;
  await saveQuantumData ;;;
  whenActive (registerHoneypotWithNetwork honeypot) ;;;
  Done (honeypotId honeypot).

Definition entangleHoneypots (honeypotId1 honeypotId2 : string) : Async bool :=
  s <- get ;;
  match findHoneypot honeypotId1 s, findHoneypot honeypotId2 s with
  | Some honeypot1, Some honeypot2 =>
      update (modify honeypot1 (setEntanglement honeypotId2)) ;;;
      update (modify honeypot2 (setEntanglement honeypotId1)) ;;;
      await updateSystemStatus ;;;
      await saveQuantumData ;;;
      whenActive (notifyEntanglement honeypotId1 honeypotId2) ;;;
      Done true
  | _, _ => Done false
  end.

(** The state a honeypot reports after a measurement; [decoherent] is also
    the answer of the [catch] branch. *)
Definition measureQuantumState (honeypotId' : string) : Async QuantumState :=
  s <- get ;;
  match findHoneypot honeypotId' s with
  | None => Done decoherent
  | Some honeypot =>
      match nth_error (quantumHoneypots s) honeypot with
      | None => Done decoherent
      | Some h =>
          match quantumState h with
          | superposition =>
              update (modify honeypot (setQuantumState collapsed)) ;;;
              match partnerOf h with
              | None => Done tt
              | Some partnerId =>
                  s1 <- get ;;
                  match findHoneypot partnerId s1 with
                  | None => Done tt
                  | Some partner => update (modify partner (setQuantumState collapsed))
                  end
              end ;;;
              await saveQuantumData ;;;
              s2 <- get ;;
              match nth_error (quantumHoneypots s2) honeypot with
              | None => Done decoherent
              | Some h2 => Done (quantumState h2)
              end
          | q => Done q
          end
      end
  end.

Definition getSystemStatus : Async QuantumSystemStatus :=
  await updateSystemStatus ;;;
  s <- get ;; Done (systemStatus s).

(** Where the comparator [(a, b) => b.detectedAt.getTime() -
    a.detectedAt.getTime()] puts [x] in a sorted array. *)
Fixpoint insertByDate (x : QuantumAttackSignature) (sorted : list QuantumAttackSignature)
  : list QuantumAttackSignature :=
  match sorted with
  | [] => [x]
  | y :: rest =>
      if detectedAt x <? detectedAt y then y :: insertByDate x rest else x :: sorted
  end.

(** [l.slice(0, limit)] for an integer [limit]: a negative one counts from
    the end. *)
Definition sliceTo {A : Type} (limit : Z) (l : list A) : list A :=
  if limit <? 0 then firstn (List.length l - Z.to_nat (- limit)) l
  else firstn (Z.to_nat limit) l.

(** [getRecentAttackSignatures]: [sort] orders [attackSignatures] itself,
    most recent first; the answer is a copy of its first [limit] elements. *)
Definition getRecentAttackSignatures (limit : Z) : Async (list QuantumAttackSignature) :=
  update (fun s => withSignatures s (fold_right insertByDate [] (attackSignatures s))) ;;;
  s <- get ;; Done (sliceTo limit (attackSignatures s)).

(** The timer of [startQuantumProcesses] that lets honeypots in
    superposition decohere; [hit i] tells whether the draw for the [i]-th
    honeypot fell below 0.01. *)
Definition decoherenceTick (hit : nat -> bool) : Async unit :=
  update (fun s =>
    withHoneypots s
      (map (fun ih =>
              match quantumState (snd ih) with
              | superposition =>
                  if hit (fst ih) then setQuantumState decoherent (snd ih) else snd ih
              | _ => snd ih
              end)
           (combine (seq 0 (List.length (quantumHoneypots s))) (quantumHoneypots s)))).

(** *** Signatures shared by the network *)

(** The loop of [mergeAttackSignatures]. *)
Fixpoint mergeLoop (networkSignatures stored : list QuantumAttackSignature)
  : list QuantumAttackSignature :=
  match networkSignatures with
  | [] => stored
  | signature :: rest =>
      let exists_ :=
        existsb (fun s => (signatureId s =? signatureId signature)%string) stored in
      mergeLoop rest (if exists_ then stored else (stored ++ [signature])%list)
  end.

(** [l.slice(-n)] for a positive [n]: the last [n] elements. *)
Definition sliceLast {A : Type} (n : nat) (l : list A) : list A :=
  skipn (List.length l - n) l.

Definition mergeAttackSignatures (networkSignatures : list QuantumAttackSignature)
  (s : Service) : Service :=
  let merged := mergeLoop networkSignatures (attackSignatures s) in
  withSignatures s
    (if (1000 <? List.length merged)%nat then sliceLast 500 merged else merged).

Record NetworkUpdates : Type := {
  nu_attackSignatures : option (list QuantumAttackSignature);
  nu_systemCoherence : option Q
}.

Definition setCoherenceAndSync (coherence : option Q) (now : Z) (s : Service) : Service :=
  let st := systemStatus s in
  withStatus s
    {| totalHoneypots := totalHoneypots st;
       activeHoneypots := activeHoneypots st;
       quantumStates := quantumStates st;
       entangledPairs := entangledPairs st;
       averageKeyStrength := averageKeyStrength st;
       totalAttacksDetected := totalAttacksDetected st;
       systemCoherence := match coherence with Some c => c | None => systemCoherence st end;
       lastQuantumSync := now |}.

(** [syncWithQuantumNetwork]; [networkUpdates] is what
    [HoneyNetService.getQuantumNetworkUpdates] resolves to, [None] when it
    rejects. *)
Definition syncWithQuantumNetwork (networkUpdates : option NetworkUpdates) : Async unit :=
  s <- get ;;
  if negb (isQuantumSystemActive s) then Done tt
  else
    Yield
      match networkUpdates with
      | None => Done tt
      | Some updates =>
          match nu_attackSignatures updates with
          | Some signatures => update (mergeAttackSignatures signatures)
          | None => Done tt
          end ;;;
          e <- env ;;
          update (setCoherenceAndSync (nu_systemCoherence updates) (Date_now e))
      end.

(** *** The event loop

    A pending call is what is left of its method.  One turn of the loop
    picks a pending call and runs it up to its next [await]. *)

Fixpoint runStretch {A : Type} (e : Env) (m : Async A) (s : Service) : Service * Async A :=
  match m with
  | Done a => (s, Done a)
  | Eff op k => let (x, s') := op e s in runStretch e (k x) s'
  | Yield k => (s, k)
  end.

Definition finished {A : Type} (m : Async A) : bool :=
  match m with
  | Done _ => true
  | _ => false
  end.

(** The calls in flight with the state they share. *)
Definition Loop (A : Type) : Type := (list (Async A) * Service)%type.

Inductive turn {A : Type} : Loop A -> Loop A -> Prop :=
| turn_intro (before after : list (Async A)) (m : Async A) (e : Env) (s : Service) :
    finished m = false ->
    turn ((before ++ m :: after)%list, s)
         ((before ++ snd (runStretch e m s) :: after)%list, fst (runStretch e m s)).

Inductive turns {A : Type} : Loop A -> Loop A -> Prop :=
| turns_refl (c : Loop A) : turns c c
| turns_step (c1 c2 c3 : Loop A) : turn c1 c2 -> turns c2 c3 -> turns c1 c3.

Definition allFinished {A : Type} (c : Loop A) : Prop :=
  forallb finished (fst c) = true.

(** A call run alone, from its first line to its [return]. *)
Fixpoint complete {A : Type} (e : Env) (m : Async A) (s : Service) : Service * A :=
  match m with
  | Done a => (s, a)
  | Eff op k => let (x, s') := op e s in complete e (k x) s'
  | Yield k => complete e k s
  end.

(** A call run alone when the outside world changes from one stretch to
    the next: [clock n] is what the [n]-th stretch reads. *)
Fixpoint runAlone {A : Type} (clock : nat -> Env) (n : nat) (m : Async A) (s : Service)
  : Service * A :=
  match m with
  | Done a => (s, a)
  | Eff op k => let (x, s') := op (clock n) s in runAlone clock n (k x) s'
  | Yield k => runAlone clock (S n) k s
  end.

End Quantum.
(** ** HoneyNetService *)

Module HoneyNet.

Inductive ThreatType : Type := malware | phishing | network | app | sms.

Inductive Severity : Type := low | medium | high | critical.

Record ThreatEvent : Type := {
  id : string;
  timestamp : Z;
  type : ThreatType;
  severity : Severity;
  description : string;
  source : string;
  blocked : bool
}.

Inductive HoneypotType : Type := hp_contact | hp_file | hp_sms | hp_app | hp_photo.

Record MobileHoneypot : Type := {
  hp_id : string;
  hp_type : HoneypotType;
  name : string;
  content : JS.json;
  created : Z;
  triggered : bool;
  triggerCount : Z
}.

Record Statistics : Type := {
  threatsDetected : Z;
  attacksBlocked : Z;
  activeHoneypots : Z;
  networkNodes : string;
  uptime : Z;
  lastUpdate : Z
}.

(** The private fields of [HoneyNetMobileService] (the socket apart). *)
Record Service : Type := {
  isInitialized : bool;
  isProtectionActive : bool;
  honeypots : list MobileHoneypot;
  statistics : Statistics
}.

(** *** The threat log in [AsyncStorage]

    The entry ['honeynet_threats'] holds the JSON text of the list of
    logged threats, kept here as the list it encodes, or nothing yet
    ([None]). *)
Definition ThreatLog : Type := option (list ThreatEvent).

(** Whether [AsyncStorage.getItem] and [AsyncStorage.setItem] resolve. *)
Record StorageOutcome : Type := {
  getItemOk : bool;
  setItemOk : bool
}.

(** [threatList.splice(0, threatList.length - 100)] *)
Definition keepLast100 (threatList : list ThreatEvent) : list ThreatEvent :=
  if (100 <? List.length threatList)%nat
  then skipn (List.length threatList - 100) threatList
  else threatList.

(** [logThreat]: a failure of either storage call is caught and logged, and
    the stored log stays as it was. *)
Definition logThreat (io : StorageOutcome) (stored : ThreatLog) (threat : ThreatEvent)
  : ThreatLog :=
  if negb (getItemOk io) then stored
  else
    let threatList := match stored with Some l => l | None => [] end in
    let threatList := (threatList ++ [threat])%list in
    let threatList := keepLast100 threatList in
    if setItemOk io then Some threatList else stored.

(** *** Honeypots *)

Definition trigger (h : MobileHoneypot) : MobileHoneypot :=
  {| hp_id := hp_id h; hp_type := hp_type h; name := name h; content := content h;
     created := created h; triggered := true; triggerCount := triggerCount h + 1 |}.

(** The honeypot that [activeHoneypots[pick]] denotes, triggered where it
    stands in [honeypots]: [activeHoneypots] holds the untriggered honeypots,
    the very objects of [honeypots], in their order. *)
Fixpoint triggerActive (pick : nat) (l : list MobileHoneypot) : list MobileHoneypot :=
  match l with
  | [] => []
  | h :: rest =>
      if triggered h then h :: triggerActive pick rest
      else
        match pick with
        | O => trigger h :: rest
        | S pick' => h :: triggerActive pick' rest
        end
  end.

Definition withHoneypots (s : Service) (l : list MobileHoneypot) : Service :=
  {| isInitialized := isInitialized s; isProtectionActive := isProtectionActive s;
     honeypots := l; statistics := statistics s |}.

(** [triggerRandomHoneypot]; [pick] is
    [Math.floor(Math.random() * activeHoneypots.length)], a place of
    [activeHoneypots] since [Math.random()] is below 1 (were it not, the
    element read would be [undefined] and the assignment would throw before
    anything is written). *)
Definition triggerRandomHoneypot (pick : nat) (s : Service) : Service :=
  let activeHoneypots := filter (fun h => negb (triggered h)) (honeypots s) in
  if (0 <? List.length activeHoneypots)%nat then
    if (pick <? List.length activeHoneypots)%nat
    then withHoneypots s (triggerActive pick (honeypots s))
    else s
  else s.

(** The default honeypots.  The names and texts that the source writes in
    Hebrew are given in English: the strings of this model hold code units
    below 256. *)
Definition defaultHoneypots (now : Z) : list MobileHoneypot :=
  [ {| hp_id := "contact_1"; hp_type := hp_contact; name := "IT manager";
       content := JS.JObj [("name", JS.JStr "system admin");
                           ("phone", JS.JStr "+972-50-1234567");
                           ("email", JS.JStr "admin@company.co.il")];
       created := now; triggered := false; triggerCount := 0 |};
    {| hp_id := "file_1"; hp_type := hp_file; name := "passwords_backup.txt";
       content := JS.JStr ("admin:P@ssw0rd123" ++ String (ascii_of_N 10)
                             "root:SuperSecret2024");
       created := now; triggered := false; triggerCount := 0 |};
    {| hp_id := "photo_1"; hp_type := hp_photo; name := "credit_card.jpg";
       content := JS.JStr "fake_credit_card_image_data";
       created := now; triggered := false; triggerCount := 0 |};
    {| hp_id := "sms_1"; hp_type := hp_sms; name := "bank verification code";
       content := JS.JStr "your verification code: 123456";
       created := now; triggered := false; triggerCount := 0 |} ].

(** [initializeHoneypots]: the default honeypots, when there is none. *)
Definition initializeHoneypots (now : Z) (s : Service) : Service :=
  if (List.length (honeypots s) =? 0)%nat then withHoneypots s (defaultHoneypots now)
  else s.

Definition withStatistics (s : Service) (st : Statistics) : Service :=
  {| isInitialized := isInitialized s; isProtectionActive := isProtectionActive s;
     honeypots := honeypots s; statistics := st |}.

(** [simulateAttack]: the simulated threat is logged, a honeypot is
    triggered, and the two counters of the statistics go up (the
    description of the threat is in Hebrew in the source). *)
Definition simulateAttack (now : Z) (io : StorageOutcome) (pick : nat)
  (s : Service) (stored : ThreatLog) : Service * ThreatLog :=
  let threat :=
    {| id := "sim_" ++ JS.toString10 now; timestamp := now; type := malware;
       severity := high; description := "simulated malware attack";
       source := "192.168.1.100"; blocked := true |} in
  let stored' := logThreat io stored threat in
  let s1 := triggerRandomHoneypot pick s in
  let st := statistics s1 in
  (withStatistics s1
     {| threatsDetected := threatsDetected st + 1;
        attacksBlocked := attacksBlocked st + 1;
        activeHoneypots := activeHoneypots st;
        networkNodes := networkNodes st;
        uptime := uptime st;
        lastUpdate := lastUpdate st |},
   stored').

End HoneyNet.
(** ** SwarmService *)

Module Swarm.

(** Strengths and decay rates are real numbers here: [Math.exp] is the
    exponential, products and quotients are exact. *)

Inductive Role : Type := scout | worker | guard | coordinator | analyzer.
Inductive AgentStatus : Type := active | idle | busy | offline.
Inductive TaskType : Type :=
| threat_scan | honeypot_monitor | data_analysis | network_patrol | intelligence_gather.
Inductive Priority : Type := low | medium | high | critical.
Inductive TaskStatus : Type := pending | in_progress | completed | failed.
Inductive TrailType : Type := threat | safe | resource | danger.

Record SwarmTask : Type := {
  taskId : string;
  taskType : TaskType;
  priority : Priority;
  assignedAgents : list string;
  taskStatus : TaskStatus;
  createdAt : Z;
  completedAt : option Z;
  result : option JS.json;
  taskMetadata : list (string * JS.json)
}.

Record AgentLocation : Type := {
  latitude : option R;
  longitude : option R;
  networkSegment : option string
}.

Record SwarmAgent : Type := {
  agentId : string;
  role : Role;
  status : AgentStatus;
  currentTask : option SwarmTask;
  performance : R;
  agentLocation : AgentLocation;
  capabilities : list string;
  lastActivity : Z
}.

Record PheromoneTrail : Type := {
  trailId : string;
  trailType : TrailType;
  strength : R;
  location : string;
  createdBy : string;
  timestamp : Z;                       (* Date, as its time value *)
  decayRate : R;
  metadata : list (string * JS.json)
}.

Record SwarmDecision : Type := {
  decisionId : string;
  decisionType : string;
  consensus : R;
  participatingAgents : list string;
  outcome : JS.json;
  decisionTimestamp : Z
}.

Record NetworkNode : Type := {
  nodeId : string;
  connections : list string;
  trustLevel : R;
  lastSeen : Z
}.

Record SwarmIntelligence : Type := {
  collectiveKnowledge : list (string * JS.json);
  emergentBehaviors : list string;
  swarmDecisions : list SwarmDecision;
  networkTopology : list NetworkNode
}.

(** Arrays of trails are objects with an identity: [sort] works in place,
    while the spread, [map] and [filter] build a new array.  [Memory] holds
    the arrays of trails, an array being referred to by its place. *)
Definition ArrayRef : Type := nat.
Definition Memory : Type := list (list PheromoneTrail).

(** The array at [a] (a reference always denotes an array; the empty
    array stands for the others). *)
Definition read (m : Memory) (a : ArrayRef) : list PheromoneTrail := nth a m [].

Definition alloc (v : list PheromoneTrail) (m : Memory) : ArrayRef * Memory :=
  (List.length m, (m ++ [v])%list).

Fixpoint write (a : ArrayRef) (v : list PheromoneTrail) (m : Memory) : Memory :=
  match m, a with
  | [], _ => []
  | _ :: rest, O => v :: rest
  | x :: rest, S a' => x :: write a' v rest
  end.

(** The private fields of [SwarmServiceClass]; [pheromoneTrails] refers to
    an array in memory. *)
Record Service : Type := {
  localAgent : option SwarmAgent;
  nearbyAgents : list SwarmAgent;
  activeTasks : list SwarmTask;
  pheromoneTrails : ArrayRef;
  swarmIntelligence : SwarmIntelligence;
  isConnectedToSwarm : bool
}.

Record World : Type := {
  this : Service;
  memory : Memory
}.

(** [calculateDecayedStrength]; [now] is the reading of [Date.now()]. *)
Definition calculateDecayedStrength (now : Z) (trail : PheromoneTrail) : R :=
  let ageInHours := (IZR (now - timestamp trail) / (1000 * 60 * 60))%R in
  (strength trail * exp (- decayRate trail * ageInHours))%R.

(** [{ ...trail, strength: s }] *)
Definition withStrength (trail : PheromoneTrail) (s : R) : PheromoneTrail :=
  {| trailId := trailId trail; trailType := trailType trail; strength := s;
     location := location trail; createdBy := createdBy trail;
     timestamp := timestamp trail; decayRate := decayRate trail;
     metadata := metadata trail |}.

Definition TrailType_eqb (a b : TrailType) : bool :=
  match a, b with
  | threat, threat | safe, safe | resource, resource | danger, danger => true
  | _, _ => false
  end.

(** [trail.strength > 0.01] *)
Definition strongEnough (trail : PheromoneTrail) : bool :=
  if Rgt_dec (strength trail) (1 / 100) then true else false.

(** Where the comparator [(a, b) => b.strength - a.strength] puts [x] in a
    sorted array: after the trails that are stronger, before the others. *)
Fixpoint insertByStrength (x : PheromoneTrail) (sorted : list PheromoneTrail)
  : list PheromoneTrail :=
  match sorted with
  | [] => [x]
  | y :: rest =>
      if Rlt_dec (strength x) (strength y) then y :: insertByStrength x rest
      else x :: sorted
  end.

(** [trails.sort((a, b) => b.strength - a.strength)], a stable sort. *)
Definition sortByStrength (trails : list PheromoneTrail) : list PheromoneTrail :=
  fold_right insertByStrength [] trails.

(** [if (location)]: an argument that is absent or the empty string. *)
Definition given (location' : option string) : option string :=
  match location' with
  | Some "" | None => None
  | Some l => Some l
  end.

(** [getPheromoneTrails]: the array returned, and the memory afterwards;
    [now] is the reading of the clock, one for the whole call. *)
Definition getPheromoneTrails (now : Z) (trailType' : option TrailType)
  (location' : option string) (w : World) : ArrayRef * World :=
  let m := memory w in
  (* let trails = [...this.pheromoneTrails] *)
  let (trails, m) := alloc (read m (pheromoneTrails (this w))) m in
  (* trails = trails.map(...).filter(...) *)
  let (mapped, m) :=
    alloc (map (fun trail => withStrength trail (calculateDecayedStrength now trail))
               (read m trails)) m in
  let (trails, m) := alloc (filter strongEnough (read m mapped)) m in
  let (trails, m) :=
    match trailType' with
    | Some t => alloc (filter (fun trail => TrailType_eqb (trailType trail) t)
                              (read m trails)) m
    | None => (trails, m)
    end in
  let (trails, m) :=
    match given location' with
    | Some l => alloc (filter (fun trail => (location trail =? l)%string)
                              (read m trails)) m
    | None => (trails, m)
    end in
  (* trails.sort(...) *)
  let m := write trails (sortByStrength (read m trails)) m in
  (trails, {| this := this w; memory := m |}).

(** *** Depositing trails *)

Definition withTrails (s : Service) (a : ArrayRef) : Service :=
  {| localAgent := localAgent s; nearbyAgents := nearbyAgents s;
     activeTasks := activeTasks s; pheromoneTrails := a;
     swarmIntelligence := swarmIntelligence s;
     isConnectedToSwarm := isConnectedToSwarm s |}.

(** [generateTrailId]: [now] is the reading of [Date.now()], [random] the
    text of [Math.random().toString(36).substring(2)]. *)
Definition generateTrailId (now : Z) (random : string) : string :=
  "trail_" ++ JS.toString10 now ++ "_" ++ random.

(** What the outside world gives one [depositPheromone]: the clock and the
    random draw of the identifier, and the date of the time stamp. *)
Record DepositEnv : Type := {
  dep_now : Z;
  dep_random : string;
  dep_date : Z
}.

(** [this.localAgent?.agentId || 'unknown'] *)
Definition creator (s : Service) : string :=
  match localAgent s with
  | Some agent => if (agentId agent =? "")%string then "unknown" else agentId agent
  | None => "unknown"
  end.

Definition newTrail (e : DepositEnv) (trailType' : TrailType) (location' : string)
  (strength' : R) (metadata' : list (string * JS.json)) (s : Service) : PheromoneTrail :=
  {| trailId := generateTrailId (dep_now e) (dep_random e);
     trailType := trailType';
     strength := strength';
     location := location';
     createdBy := creator s;
     timestamp := dep_date e;
     decayRate := (1 / 10)%R;
     metadata := metadata' |}.

(** [depositPheromone]: [push] extends the array of the service in place;
    when that array then holds more than 1000 trails, [slice(-500)] builds
    a new array of its last 500 and the service refers to the new one.
    Saving and sharing only read the trails, and their failures are
    caught. *)
Definition depositPheromone (e : DepositEnv) (trailType' : TrailType) (location' : string)
  (strength' : R) (metadata' : list (string * JS.json)) (w : World) : World :=
  let trail := newTrail e trailType' location' strength' metadata' (this w) in
  let a := pheromoneTrails (this w) in
  let m := write a (read (memory w) a ++ [trail])%list (memory w) in
  if (1000 <? List.length (read m a))%nat then
    let (a', m') := alloc (skipn (List.length (read m a) - 500) (read m a)) m in
    {| this := withTrails (this w) a'; memory := m' |}
  else {| this := this w; memory := m |}.


(** *** Choosing agents for a task *)

Definition getRequiredCapabilities (taskType' : TaskType) : list string :=
  match taskType' with
  | threat_scan => ["threat_detection"; "network_monitoring"]
  | honeypot_monitor => ["honeypot_management"; "intrusion_detection"]
  | data_analysis => ["data_analysis"; "pattern_recognition"]
  | network_patrol => ["network_monitoring"; "security_scanning"]
  | intelligence_gather => ["data_collection"; "threat_intelligence"]
  end.

(** [l.includes(x)] *)
Definition includes (l : list string) (x : string) : bool :=
  existsb (fun y => (y =? x)%string) l.

Definition isAgentSuitableForTask (agent : SwarmAgent) (task : SwarmTask) : bool :=
  match status agent with
  | active | idle =>
      forallb (fun cap => includes (capabilities agent) cap)
              (getRequiredCapabilities (taskType task))
  | _ => false
  end.

(** The loop of [findSuitableAgents] over the nearby agents. *)
Fixpoint nearbyLoop (task : SwarmTask) (nearby suitableAgents : list SwarmAgent)
  : list SwarmAgent :=
  match nearby with
  | [] => suitableAgents
  | agent :: rest =>
      nearbyLoop task rest
        (if isAgentSuitableForTask agent task && (List.length suitableAgents <? 3)%nat
         then (suitableAgents ++ [agent])%list
         else suitableAgents)
  end.

Definition findSuitableAgents (task : SwarmTask) (s : Service) : list SwarmAgent :=
  let suitableAgents :=
    match localAgent s with
    | Some agent => if isAgentSuitableForTask agent task then [agent] else []
    | None => []
    end in
  nearbyLoop task (nearbyAgents s) suitableAgents.

End Swarm.
(** * Checks of the primitives *)

Example toInt32_wraps : JS.toInt32 (2 ^ 31) = - 2 ^ 31.
Proof. reflexivity. Qed.

Example toString16_signed :
  map JS.toString16 [0; 255; -1; 2147483647; -2147483648]
  = ["0"; "ff"; "-1"; "7fffffff"; "-80000000"].
Proof. vm_compute. reflexivity. Qed.

Example toISOString_dates :
  map JS.toISOString [0; 951782400000; 1709210096789; -1]
  = ["1970-01-01T00:00:00.000Z"; "2000-02-29T00:00:00.000Z";
     "2024-02-29T12:34:56.789Z"; "1969-12-31T23:59:59.999Z"].
Proof. vm_compute. reflexivity. Qed.

Example stringify_nested :
  JS.stringify (JS.JObj [("a", JS.JNum (-5)); ("b", JS.JArr [JS.JStr "x"; JS.JNull])])
  = String "{" (JS.quote "a" ++ ":-5," ++ JS.quote "b" ++ ":[" ++ JS.quote "x" ++ ",null]}").
Proof. vm_compute. reflexivity. Qed.

Example Math_round_ties :
  map Gamification.Math_round [27.500000000000004; 2.5; -2.5; -2.6; 0.49999999999999994]%float
  = [28; 3; -2; -3; 0]%float.
Proof. vm_compute. reflexivity. Qed.

Lemma toInt32_range (z : Z) : - 2 ^ 31 <= JS.toInt32 z < 2 ^ 31.
Proof.
  unfold JS.toInt32.
  pose proof (Z.mod_pos_bound z (2 ^ 32) ltac:(lia)) as Hm.
  destruct (Z.ltb_spec (z mod 2 ^ 32) (2 ^ 31)); lia.
Qed.

Lemma toInt32_congruent (z : Z) : (JS.toInt32 z - z) mod 2 ^ 32 = 0.
Proof.
  unfold JS.toInt32.
  destruct (Z.ltb_spec (z mod 2 ^ 32) (2 ^ 31)).
  - rewrite Zminus_mod_idemp_l, Z.sub_diag. reflexivity.
  - replace (z mod 2 ^ 32 - 2 ^ 32 - z) with (z mod 2 ^ 32 - z + (-1) * 2 ^ 32) by lia.
    rewrite Z.mod_add by lia.
    rewrite Zminus_mod_idemp_l, Z.sub_diag. reflexivity.
Qed.

(** The value of a text of hexadecimal digits. *)
Definition hexDigitValue (c : Z) : Z := if c <? 58 then c - 48 else c - 87.

Definition hexValue (s : string) : Z :=
  fold_left (fun v c => 16 * v + hexDigitValue c) (JS.charCodes s) 0.

Lemma hexDigit_value (d : Z) :
  0 <= d < 16 -> hexDigitValue (Z.of_N (N_of_ascii (JS.hexDigit d))) = d.
Proof.
  intros Hd.
  assert (Hcases : d = 0 \/ d = 1 \/ d = 2 \/ d = 3 \/ d = 4 \/ d = 5 \/ d = 6 \/ d = 7
                   \/ d = 8 \/ d = 9 \/ d = 10 \/ d = 11 \/ d = 12 \/ d = 13 \/ d = 14
                   \/ d = 15) by lia.
  repeat (destruct Hcases as [-> | Hcases]; [reflexivity |]). subst d. reflexivity.
Qed.

Lemma hexFold_shift (codes : list Z) (v : Z) :
  fold_left (fun v c => 16 * v + hexDigitValue c) codes v
  = v * 16 ^ Z.of_nat (List.length codes)
    + fold_left (fun v c => 16 * v + hexDigitValue c) codes 0.
Proof.
  revert v. induction codes as [| c codes IH]; intros v; cbn [fold_left List.length].
  - rewrite Z.pow_0_r. lia.
  - rewrite IH, (IH (16 * 0 + _)). rewrite Nat2Z.inj_succ, Z.pow_succ_r by lia. lia.
Qed.

Lemma length_charCodes (s : string) : List.length (JS.charCodes s) = String.length s.
Proof.
  unfold JS.charCodes. rewrite length_map.
  induction s as [| c s IH]; simpl; [reflexivity | now rewrite IH].
Qed.

Lemma hexValue_cons (d : Z) (s : string) :
  0 <= d < 16 ->
  hexValue (String (JS.hexDigit d) s) = d * 16 ^ Z.of_nat (String.length s) + hexValue s.
Proof.
  intros Hd. unfold hexValue.
  change (JS.charCodes (String (JS.hexDigit d) s))
    with (Z.of_N (N_of_ascii (JS.hexDigit d)) :: JS.charCodes s).
  cbn [fold_left]. rewrite hexDigit_value by assumption.
  rewrite hexFold_shift, length_charCodes. lia.
Qed.

(** With fuel for every digit, [hexDigits] writes [n] before [acc]. *)
Lemma hexDigits_value (fuel : nat) :
  forall n acc,
    0 <= n < 16 ^ Z.of_nat fuel ->
    hexValue (JS.hexDigits fuel n acc)
    = n * 16 ^ Z.of_nat (String.length acc) + hexValue acc.
Proof.
  induction fuel as [| fuel IH]; intros n acc Hn.
  - simpl in Hn. assert (n = 0) by lia. subst n. simpl. lia.
  - cbn [JS.hexDigits].
    pose proof (Z.mod_pos_bound n 16 ltac:(lia)) as Hmod.
    pose proof (Z.div_mod n 16 ltac:(lia)) as Hdiv.
    destruct (Z.eqb_spec (n / 16) 0) as [Hz | Hnz].
    + rewrite hexValue_cons by assumption. nia.
    + rewrite IH.
      * rewrite hexValue_cons by assumption. cbn [String.length].
        rewrite Nat2Z.inj_succ, Z.pow_succ_r by lia. nia.
      * rewrite Nat2Z.inj_succ, Z.pow_succ_r in Hn by lia.
        split; [apply Z.div_pos; lia | apply Z.div_lt_upper_bound; lia].
Qed.

(** [toString16] writes the hexadecimal digits of the absolute value. *)
Lemma toString16_value (n : Z) :
  0 <= n -> hexValue (JS.toString16 n) = n.
Proof.
  intros Hn. unfold JS.toString16.
  destruct (Z.ltb_spec n 0); [lia |].
  rewrite Z.abs_eq by assumption.
  rewrite hexDigits_value; [simpl; unfold hexValue; simpl; lia |].
  split; [assumption |].
  destruct (Z.eq_dec n 0) as [-> | Hpos]; [simpl; lia |].
  pose proof (Z.log2_spec n ltac:(lia)) as [_ Hlog].
  pose proof (Z.log2_nonneg n) as Hlognn.
  rewrite Nat2Z.inj_succ, Z2Nat.id by assumption.
  eapply Z.lt_le_trans; [exact Hlog |].
  replace 16 with (2 ^ 4) by reflexivity.
  rewrite <- Z.pow_mul_r by lia.
  apply Z.pow_le_mono_r; lia.
Qed.

(** * Properties of the services *)

(** ** BlockchainService: chain validation and merging *)

Section BlockchainChain.
Import Blockchain.

(** What the loop body of [validateChain] checks at index [i]. *)
Definition linkOk (previousBlock currentBlock : Block) : Prop :=
  previousHash currentBlock = blockHash previousBlock
  /\ calculateBlockHash currentBlock = blockHash currentBlock.

Lemma validateFrom_step previousBlock currentBlock rest :
  validateFrom previousBlock (currentBlock :: rest) = true
  <-> linkOk previousBlock currentBlock /\ validateFrom currentBlock rest = true.
Proof.
  unfold linkOk; simpl.
  destruct (String.eqb_spec (previousHash currentBlock) (blockHash previousBlock)) as [Hp | Hp];
    destruct (String.eqb_spec (calculateBlockHash currentBlock) (blockHash currentBlock))
      as [Hh | Hh]; simpl; intuition congruence.
Qed.

Lemma validateFrom_links previousBlock rest :
  validateFrom previousBlock rest = true
  <-> forall i prev cur,
        nth_error (previousBlock :: rest) i = Some prev ->
        nth_error (previousBlock :: rest) (S i) = Some cur ->
        linkOk prev cur.
Proof.
  revert previousBlock.
  induction rest as [| currentBlock rest IH]; intros previousBlock.
  - split; [intros _ i prev cur _ Hcur | reflexivity].
    destruct i; discriminate.
  - rewrite validateFrom_step, IH. split.
    + intros [Hlink Hrest] [| i] prev cur Hprev Hcur.
      * simpl in Hprev, Hcur. injection Hprev as <-. injection Hcur as <-. exact Hlink.
      * exact (Hrest i prev cur Hprev Hcur).
    + intros Hall. split.
      * apply (Hall 0%nat); reflexivity.
      * intros i prev cur Hprev Hcur. apply (Hall (S i)); assumption.
Qed.

(** C9. [validateChain chain] answers [true] exactly when every index
    [i >= 1] of the chain has [chain[i].previousHash = chain[i-1].blockHash]
    and [calculateBlockHash(chain[i]) = chain[i].blockHash]; the empty chain
    and every chain of one block are accepted, whatever hash the first block
    stores. *)
Theorem C9_validateChain_iff_links (chain : list Block) :
  (validateChain chain = true
   <-> forall i prev cur,
         (1 <= i)%nat ->
         nth_error chain (i - 1) = Some prev ->
         nth_error chain i = Some cur ->
         previousHash cur = blockHash prev /\ calculateBlockHash cur = blockHash cur)
  /\ validateChain [] = true
  /\ (forall first, validateChain [first] = true).
Proof.
  split; [| split; [reflexivity | intros first; reflexivity]].
  destruct chain as [| first rest].
  - split; [| reflexivity].
    intros _ i prev cur _ _ Hcur. destruct i; discriminate.
  - unfold validateChain. rewrite validateFrom_links. split.
    + intros Hall i prev cur Hi Hprev Hcur.
      destruct i as [| i]; [lia |].
      replace (S i - 1)%nat with i in Hprev by lia.
      exact (Hall i prev cur Hprev Hcur).
    + intros Hall i prev cur Hprev Hcur.
      apply (Hall (S i)); [lia | | assumption].
      replace (S i - 1)%nat with i by lia. assumption.
Qed.

(** The first block's stored hash is indeed never looked at: a lone block
    whose [blockHash] is not its computed hash is accepted. *)
Definition loneBlock : Block :=
  {| blockNumber := 0; blockHash := "not-a-hash"; previousHash := "";
     blockTimestamp := 0; threatRecords := []; minerId := "node_a"; nonce := 0;
     merkleRoot := "" |}.

Example validateChain_lone_block :
  validateChain [loneBlock] = true
  /\ (calculateBlockHash loneBlock =? blockHash loneBlock)%string = false.
Proof. vm_compute. split; reflexivity. Qed.

(** *** mergeChains *)

Definition genesis : Block :=
  {| blockNumber := 0; blockHash := "g0"; previousHash := "";
     blockTimestamp := 1700000000000; threatRecords := []; minerId := "node_n"; nonce := 0;
     merkleRoot := "" |}.

Definition second : Block :=
  {| blockNumber := 1; blockHash := "-7669dcac"; previousHash := "g0";
     blockTimestamp := 1700000030000; threatRecords := []; minerId := "node_n"; nonce := 7;
     merkleRoot := "" |}.

Definition localOnly : Block :=
  {| blockNumber := 0; blockHash := "l0"; previousHash := "";
     blockTimestamp := 1690000000000; threatRecords := []; minerId := "node_me"; nonce := 3;
     merkleRoot := "" |}.

Definition serviceWithLocalBlock : Service :=
  {| localChain := [localOnly]; pendingThreatRecords := []; isConnected := true;
     nodeId := "node_me" |}.

(** C4, counterexample.  The local chain holds one block; the network sends
    a valid chain of two other blocks.  After [mergeChains] the local block
    is gone: the chain was replaced, not extended. *)
Lemma C4_mergeChains_drops_local_block :
  In localOnly (localChain serviceWithLocalBlock)
  /\ validateChain [genesis; second] = true
  /\ localChain (mergeChains serviceWithLocalBlock [genesis; second]) = [genesis; second]
  /\ existsb (fun b => (blockHash b =? blockHash localOnly)%string)
       (localChain (mergeChains serviceWithLocalBlock [genesis; second])) = false.
Proof. vm_compute. repeat split; auto. Qed.

Lemma mergeChains_cases (s : Service) (networkBlocks : list Block) :
  mergeChains s networkBlocks =
  if (List.length (localChain s) <? List.length networkBlocks)%nat
     && validateChain networkBlocks
  then {| localChain := networkBlocks;
          pendingThreatRecords := pendingThreatRecords s;
          isConnected := isConnected s;
          nodeId := nodeId s |}
  else s.
Proof.
  unfold mergeChains.
  destruct (List.length (localChain s) <? List.length networkBlocks)%nat; [| reflexivity].
  destruct (validateChain networkBlocks); reflexivity.
Qed.

(** C4, amended.  [mergeChains] either leaves the local chain as it is or
    replaces it by the network's blocks; it replaces exactly when the
    network's chain is strictly longer and [validateChain] accepts it.  So
    the chain never gets shorter, a block recorded before survives whenever
    the chain is kept or the network's chain contains it, and the other
    fields of the service are untouched. *)
Theorem C4_mergeChains_keeps_or_replaces (s : Service) (networkBlocks : list Block) :
  let s' := mergeChains s networkBlocks in
  let replaced :=
    (List.length (localChain s) <? List.length networkBlocks)%nat
    && validateChain networkBlocks in
  localChain s' = (if replaced then networkBlocks else localChain s)
  /\ (List.length (localChain s) <= List.length (localChain s'))%nat
  /\ (forall b, In b (localChain s) ->
        In b (localChain s') <-> (replaced = false \/ In b networkBlocks))
  /\ pendingThreatRecords s' = pendingThreatRecords s
  /\ isConnected s' = isConnected s
  /\ nodeId s' = nodeId s.
Proof.
  cbv zeta. rewrite mergeChains_cases.
  destruct (List.length (localChain s) <? List.length networkBlocks)%nat eqn:Hlen;
    destruct (validateChain networkBlocks) eqn:Hvalid; simpl;
    (split; [reflexivity | split; [| split; [| auto]]]); try lia.
  - apply Nat.ltb_lt in Hlen. lia.
  - intros b Hb. split; [auto |]. intros [Hf | Hin]; [discriminate | exact Hin].
  - intros b Hb. tauto.
  - intros b Hb. tauto.
  - intros b Hb. tauto.
Qed.

End BlockchainChain.
(** ** BlockchainService: threat identifiers and the pending list *)

Section BlockchainRecords.
Import Blockchain.

(** *** Decimal text of the clock reading *)

Definition noUnderscore (s : string) : Prop :=
  forall c, In c (list_ascii_of_string s) -> c <> "_"%char.

Lemma noUnderscore_cons c s :
  c <> "_"%char -> noUnderscore s -> noUnderscore (String c s).
Proof.
  intros Hc Hs c' [<- | Hin]; [exact Hc | exact (Hs c' Hin)].
Qed.

Lemma noUnderscore_uint (d : Decimal.uint) : noUnderscore (NilEmpty.string_of_uint d).
Proof.
  induction d; simpl;
    try (apply noUnderscore_cons; [discriminate | assumption]).
  intros c [].
Qed.

Lemma noUnderscore_uint0 (d : Decimal.uint) : noUnderscore (NilZero.string_of_uint d).
Proof.
  destruct d; try apply (noUnderscore_uint (_ d)).
  simpl. apply noUnderscore_cons; [discriminate | intros c []].
Qed.

Lemma noUnderscore_toString10 (z : Z) : noUnderscore (JS.toString10 z).
Proof.
  unfold JS.toString10, NilZero.string_of_int.
  destruct (Z.to_int z) as [d | d].
  - apply noUnderscore_uint0.
  - apply noUnderscore_cons; [discriminate | apply noUnderscore_uint0].
Qed.

Lemma to_int_not_nil (z : Z) :
  Z.to_int z <> Decimal.Pos Decimal.Nil /\ Z.to_int z <> Decimal.Neg Decimal.Nil.
Proof.
  destruct z as [| p | p]; simpl; split; try discriminate;
    intros H; injection H as H; exact (DecimalPos.Unsigned.to_uint_nonnil p H).
Qed.

Lemma toString10_inj (z1 z2 : Z) : JS.toString10 z1 = JS.toString10 z2 -> z1 = z2.
Proof.
  unfold JS.toString10. intros H.
  apply (f_equal NilZero.int_of_string) in H.
  destruct (to_int_not_nil z1) as [Hp1 Hn1], (to_int_not_nil z2) as [Hp2 Hn2].
  rewrite !NilZero.isi in H by assumption.
  injection H as H. now apply DecimalZ.to_int_inj.
Qed.

(** A text without underscore followed by ["_"] and a suffix splits in one
    way only. *)
Lemma split_at_underscore (a b r1 r2 : string) :
  noUnderscore a -> noUnderscore b ->
  (a ++ "_" ++ r1 = b ++ "_" ++ r2)%string -> a = b /\ r1 = r2.
Proof.
  revert b. induction a as [| c a IH]; intros [| c' b] Ha Hb H; simpl in H.
  - injection H as H. now split.
  - injection H as Hc _. exfalso. apply (Hb c'); [now left | now symmetry].
  - injection H as Hc _. exfalso. apply (Ha c); [now left | assumption].
  - injection H as Hc H.
    destruct (IH b) as [-> ->]; try assumption.
    + intros x Hx. apply Ha. now right.
    + intros x Hx. apply Hb. now right.
    + now subst.
Qed.

Lemma generateThreatId_inj (now1 now2 : Z) (random1 random2 : string) :
  generateThreatId now1 random1 = generateThreatId now2 random2 ->
  now1 = now2 /\ random1 = random2.
Proof.
  unfold generateThreatId. intros H.
  repeat (simpl in H; injection H as H).
  apply split_at_underscore in H; try apply noUnderscore_toString10.
  destruct H as [Hn Hr]. split; [now apply toString10_inj | assumption].
Qed.

Definition sampleReport : ThreatData :=
  {| td_threatType := "malware"; td_severity := "high"; td_sourceIp := "203.0.113.9";
     td_targetIp := "10.0.0.5"; td_signature := "sig-7f"; td_metadata := [] |}.

Definition offlineService : Service :=
  {| localChain := []; pendingThreatRecords := []; isConnected := false; nodeId := "node_me" |}.

Definition firstSubmission : SubmitEnv :=
  {| env_now := 1700000000000; env_random := "k3x9qz"; env_date := 1700000000000;
     env_networkOk := true |}.

Definition laterSubmission : SubmitEnv :=
  {| env_now := 1700000000001; env_random := "k3x9qz"; env_date := 1700000000001;
     env_networkOk := true |}.

(** C1, counterexample.  The same report, field for field, submitted at two
    clock readings one millisecond apart gets two different identifiers. *)
Lemma C1_same_report_two_ids :
  fst (submitThreatRecord firstSubmission offlineService sampleReport)
    = inl "threat_1700000000000_k3x9qz"
  /\ fst (submitThreatRecord laterSubmission offlineService sampleReport)
    = inl "threat_1700000000001_k3x9qz"
  /\ ("threat_1700000000000_k3x9qz" =? "threat_1700000000001_k3x9qz")%string = false.
Proof. vm_compute. repeat split; reflexivity. Qed.

(** C1, amended.  [submitThreatRecord] appends one record that carries the
    fields of the report and the identifier ["threat_" + Date.now() + "_" +
    random suffix]; the call returns that identifier, or rethrows when the
    network call fails.  The identifier is independent of the report: it is
    a function of the clock reading and the random draw alone, and two
    identifiers are equal exactly when both coincide. *)
Theorem C1_threat_id_from_clock_and_random
  (env : SubmitEnv) (s : Service) (threatData : ThreatData) :
  let out := submitThreatRecord env s threatData in
  let assigned := generateThreatId (env_now env) (env_random env) in
  (exists record,
      pendingThreatRecords (snd out) = (pendingThreatRecords s ++ [record])%list
      /\ id record = assigned
      /\ threatType record = td_threatType threatData
      /\ severity record = td_severity threatData
      /\ sourceIp record = td_sourceIp threatData
      /\ targetIp record = td_targetIp threatData
      /\ signature record = td_signature threatData
      /\ metadata record = td_metadata threatData)
  /\ fst out = (if isConnected s && negb (env_networkOk env) then inr tt else inl assigned)
  /\ (forall env' s' threatData',
        env_now env' = env_now env -> env_random env' = env_random env ->
        isConnected s' && negb (env_networkOk env') = false ->
        fst (submitThreatRecord env' s' threatData') = inl assigned)
  /\ (forall now' random',
        generateThreatId now' random' = assigned
        <-> now' = env_now env /\ random' = env_random env).
Proof.
  cbv zeta. unfold submitThreatRecord. split; [| split; [| split]].
  - eexists. destruct (isConnected s && negb (env_networkOk env)); simpl;
      repeat split; reflexivity.
  - destruct (isConnected s && negb (env_networkOk env)); reflexivity.
  - intros env' s' threatData' Hnow Hrandom Hok. rewrite Hok. simpl.
    now rewrite Hnow, Hrandom.
  - intros now' random'. split.
    + apply generateThreatId_inj.
    + now intros [-> ->].
Qed.

(** *** submitPendingRecords *)

(** The records of [records] whose call, numbered from [k], did not
    resolve. *)
Fixpoint failedOnly (submitOk : nat -> bool) (k : nat) (records : list ThreatRecord)
  : list ThreatRecord :=
  match records with
  | [] => []
  | record :: rest =>
      if submitOk k then failedOnly submitOk (S k) rest
      else record :: failedOnly submitOk (S k) rest
  end.

Lemma filter_other_ids_keeps (record : ThreatRecord) (l : list ThreatRecord) :
  ~ In (id record) (map id l) ->
  filter (fun r => negb (id r =? id record)%string) l = l.
Proof.
  induction l as [| r l IH]; simpl; intros Hnot; [reflexivity |].
  destruct (String.eqb_spec (id r) (id record)) as [Heq | Hne]; simpl.
  - exfalso. apply Hnot. left. exact Heq.
  - f_equal. apply IH. intros Hin. apply Hnot. now right.
Qed.

Lemma filter_removes_the_record (kept rest : list ThreatRecord) (record : ThreatRecord) :
  NoDup (map id (kept ++ record :: rest)%list) ->
  filter (fun r => negb (id r =? id record)%string) (kept ++ record :: rest)%list
  = (kept ++ rest)%list.
Proof.
  intros Hnd. rewrite map_app in Hnd. simpl in Hnd.
  pose proof (NoDup_remove_2 _ _ _ Hnd) as Hnot.
  rewrite filter_app. simpl. rewrite String.eqb_refl. simpl.
  rewrite !filter_other_ids_keeps; [reflexivity | |];
    intros Hin; apply Hnot, in_or_app; [now right | now left].
Qed.

Lemma submitLoop_distinct_ids (submitOk : nat -> bool) (todo : list ThreatRecord) :
  forall (k : nat) (kept : list ThreatRecord),
    NoDup (map id (kept ++ todo)%list) ->
    submitLoop submitOk k todo (kept ++ todo)%list
    = (kept ++ failedOnly submitOk k todo)%list.
Proof.
  induction todo as [| record rest IH]; intros k kept Hnd; simpl; [reflexivity |].
  destruct (submitOk k).
  - rewrite filter_removes_the_record by assumption.
    apply IH. rewrite map_app in *. simpl in Hnd. now apply NoDup_remove_1 in Hnd.
  - replace (kept ++ record :: rest)%list with ((kept ++ [record]) ++ rest)%list
      by (rewrite <- app_assoc; reflexivity).
    rewrite IH.
    + rewrite <- app_assoc. reflexivity.
    + rewrite <- app_assoc. exact Hnd.
Qed.

Lemma in_failedOnly (submitOk : nat -> bool) (records : list ThreatRecord) :
  forall k record,
    In record (failedOnly submitOk k records)
    <-> exists j, nth_error records j = Some record /\ submitOk (k + j)%nat = false.
Proof.
  induction records as [| r rest IH]; intros k record; simpl.
  - split; [intros [] | intros [[| j] [H _]]; discriminate].
  - destruct (submitOk k) eqn:Hk; simpl; rewrite IH; split.
    + intros [j [Hj Hok]]. exists (S j). split; [exact Hj |].
      now replace (k + S j)%nat with (S k + j)%nat by lia.
    + intros [[| j] [Hj Hok]]; simpl in Hj.
      * rewrite Nat.add_0_r in Hok. congruence.
      * exists j. split; [exact Hj |].
        now replace (S k + j)%nat with (k + S j)%nat by lia.
    + intros [<- | [j [Hj Hok]]].
      * exists 0%nat. rewrite Nat.add_0_r. now split.
      * exists (S j). split; [exact Hj |].
        now replace (k + S j)%nat with (S k + j)%nat by lia.
    + intros [[| j] [Hj Hok]]; simpl in Hj.
      * left. congruence.
      * right. exists j. split; [exact Hj |].
        now replace (S k + j)%nat with (k + S j)%nat by lia.
Qed.

Lemma nth_error_distinct_ids (records : list ThreatRecord) (i j : nat) (record : ThreatRecord) :
  NoDup (map id records) ->
  nth_error records i = Some record -> nth_error records j = Some record -> i = j.
Proof.
  intros Hnd Hi Hj.
  apply (proj1 (NoDup_nth_error (map id records)) Hnd).
  - rewrite length_map. apply nth_error_Some. congruence.
  - rewrite !nth_error_map, Hi, Hj. reflexivity.
Qed.

Definition pendingHigh : ThreatRecord :=
  {| id := "threat_1700000000000_k3x9qz"; threatType := "malware"; severity := "high";
     sourceIp := "203.0.113.9"; targetIp := "10.0.0.5"; timestamp := 1700000000000;
     signature := "sig-7f"; metadata := [] |}.

(** A second record under the same identifier (ids are drawn, not derived). *)
Definition pendingLow : ThreatRecord :=
  {| id := "threat_1700000000000_k3x9qz"; threatType := "phishing"; severity := "low";
     sourceIp := "198.51.100.4"; targetIp := "10.0.0.8"; timestamp := 1700000000000;
     signature := "sig-a1"; metadata := [] |}.

Definition pendingOther : ThreatRecord :=
  {| id := "threat_1700000000777_b2m4ty"; threatType := "ddos"; severity := "medium";
     sourceIp := "192.0.2.44"; targetIp := "10.0.0.5"; timestamp := 1700000000777;
     signature := "sig-c3"; metadata := [] |}.

Definition connectedWith (pending : list ThreatRecord) : Service :=
  {| localChain := []; pendingThreatRecords := pending; isConnected := true;
     nodeId := "node_me" |}.

(** The first call resolves, every later one throws. *)
Definition onlyFirstOk (k : nat) : bool := (k =? 0)%nat.

(** C7, counterexample.  Two pending records share an identifier.  The
    submission of the first resolves and the filter by [id] takes both out of
    the list; the submission of the second then throws, and that record is
    no longer pending. *)
Lemma C7_failed_record_dropped :
  nth_error (pendingThreatRecords (connectedWith [pendingHigh; pendingLow])) 1
    = Some pendingLow
  /\ onlyFirstOk 1 = false
  /\ pendingThreatRecords
       (submitPendingRecords onlyFirstOk (connectedWith [pendingHigh; pendingLow])) = [].
Proof. vm_compute. repeat split; reflexivity. Qed.

(** C7, amended.  On a service whose pending records have pairwise distinct
    identifiers: when the service is connected, the pending list after
    [submitPendingRecords] is the list of the records whose [submitToNetwork]
    call threw, each unchanged and in the order it had, so a record is
    absent exactly when its call resolved; when the service is not
    connected nothing is submitted and the list is as before.  The chain and
    the connection flag are untouched. *)
Theorem C7_submitPendingRecords_keeps_failed
  (submitOk : nat -> bool) (s : Service)
  (Hids : NoDup (map id (pendingThreatRecords s))) :
  let s' := submitPendingRecords submitOk s in
  (isConnected s = true ->
     pendingThreatRecords s' = failedOnly submitOk 0 (pendingThreatRecords s)
     /\ forall k record,
          nth_error (pendingThreatRecords s) k = Some record ->
          (In record (pendingThreatRecords s') <-> submitOk k = false))
  /\ (isConnected s = false -> s' = s)
  /\ localChain s' = localChain s
  /\ isConnected s' = isConnected s.
Proof.
  cbv zeta. unfold submitPendingRecords.
  destruct (isConnected s) eqn:Hc; simpl.
  - destruct (pendingThreatRecords s) as [| r rest] eqn:Hp; simpl.
    + repeat split; try discriminate; auto.
      * intros _. destruct k; discriminate.
      * intros _. destruct k; discriminate.
    + assert (Hloop : submitLoop submitOk 0 (r :: rest) (r :: rest)
                      = failedOnly submitOk 0 (r :: rest)).
      { apply (submitLoop_distinct_ids submitOk (r :: rest) 0 []). exact Hids. }
      simpl in Hloop. rewrite Hloop.
      split; [| split; [discriminate | split; reflexivity]].
      intros _. split; [reflexivity |].
      intros k record Hk.
      change (In record (failedOnly submitOk 0 (r :: rest)) <-> submitOk k = false).
      rewrite in_failedOnly. simpl. split.
      * intros [j [Hj Hok]].
        now rewrite (nth_error_distinct_ids (r :: rest) k j record Hids Hk Hj).
      * intros Hok. exists k. now split.
  - repeat split; try discriminate; auto.
Qed.

(** The theorem at a list of two records with distinct identifiers: the
    first is accepted and leaves, the second is refused and stays. *)
Lemma C7_submitPendingRecords_witness :
  pendingThreatRecords
    (submitPendingRecords onlyFirstOk (connectedWith [pendingHigh; pendingOther]))
  = [pendingOther].
Proof.
  assert (Hids : NoDup (map id (pendingThreatRecords
                                  (connectedWith [pendingHigh; pendingOther])))).
  { simpl. repeat constructor; simpl; intuition discriminate. }
  exact (proj1 (proj1 (C7_submitPendingRecords_keeps_failed onlyFirstOk
                         (connectedWith [pendingHigh; pendingOther]) Hids) eq_refl)).
Defined.

End BlockchainRecords.
(** ** GamificationService *)

Section GamificationScoring.
Import Gamification.

(** The scoring rule in the words of its description: a base by severity,
    10 when the severity is not in the table, times a multiplier by threat
    type, 1.0 when the type is not in the table, rounded. *)
Definition basePointsAsDescribed (severity : string) : float :=
  if (severity =? "low")%string then 10
  else if (severity =? "medium")%string then 25
  else if (severity =? "high")%string then 50
  else if (severity =? "critical")%string then 100
  else 10.

Definition typeMultiplierAsDescribed (threatType : string) : float :=
  if (threatType =? "malware")%string then 1.2
  else if (threatType =? "phishing")%string then 1.1
  else if (threatType =? "ddos")%string then 1.3
  else if (threatType =? "brute_force")%string then 1.0
  else if (threatType =? "sql_injection")%string then 1.4
  else if (threatType =? "xss")%string then 1.1
  else 1.0.

Definition threatPointsAsDescribed (threatType severity : string) : float :=
  Math_round (basePointsAsDescribed severity * typeMultiplierAsDescribed threatType)%float.

Example calculateThreatPoints_table :
  map (fun severity =>
         map (fun threatType => calculateThreatPoints threatType severity)
             ["malware"; "phishing"; "ddos"; "brute_force"; "sql_injection"; "xss"; "other"])
      ["low"; "medium"; "high"; "critical"; "unheard"]
  = [[12; 11; 13; 10; 14; 11; 10];
     [30; 28; 33; 25; 35; 28; 25];
     [60; 55; 65; 50; 70; 55; 50];
     [120; 110; 130; 100; 140; 110; 100];
     [12; 11; 13; 10; 14; 11; 10]]%float.
Proof. vm_compute. reflexivity. Qed.

Lemma getProperty_basePoints (severity : string) :
  ~ In severity objectPrototype ->
  toNumber (orElse (getProperty basePoints severity) 10) = basePointsAsDescribed severity.
Proof.
  intros Hnot. unfold getProperty, basePointsAsDescribed, basePoints, ownProperty.
  rewrite !(String.eqb_sym _ severity).
  repeat (destruct (_ =? _)%string; [reflexivity |]).
  destruct (existsb (fun k => (k =? severity)%string) objectPrototype) eqn:Hex; [| reflexivity].
  exfalso. apply Hnot. apply existsb_exists in Hex as [k [Hin Hk]].
  now apply String.eqb_eq in Hk as <-.
Qed.

Lemma getProperty_typeMultiplier (threatType : string) :
  ~ In threatType objectPrototype ->
  toNumber (orElse (getProperty typeMultiplier threatType) 1.0)
  = typeMultiplierAsDescribed threatType.
Proof.
  intros Hnot. unfold getProperty, typeMultiplierAsDescribed, typeMultiplier, ownProperty.
  rewrite !(String.eqb_sym _ threatType).
  repeat (destruct (_ =? _)%string; [reflexivity |]).
  destruct (existsb (fun k => (k =? threatType)%string) objectPrototype) eqn:Hex;
    [| reflexivity].
  exfalso. apply Hnot. apply existsb_exists in Hex as [k [Hin Hk]].
  now apply String.eqb_eq in Hk as <-.
Qed.

(** Away from the names every object inherits, the code computes the rule
    as described. *)
Lemma calculateThreatPoints_as_described (threatType severity : string) :
  ~ In threatType objectPrototype -> ~ In severity objectPrototype ->
  calculateThreatPoints threatType severity = threatPointsAsDescribed threatType severity.
Proof.
  intros Ht Hs. unfold calculateThreatPoints, threatPointsAsDescribed.
  now rewrite getProperty_basePoints, getProperty_typeMultiplier.
Qed.

(** C6.  With the severity ["constructor"], which is in no table, the rule
    as described gives the default base 10 times 1.2, that is 12; the code
    finds [Object.prototype.constructor] under that name, takes it for the
    base, and returns NaN.  The same happens for a threat type of that kind. *)
Theorem C6_inherited_name_scores_NaN :
  threatPointsAsDescribed "malware" "constructor" = 12%float
  /\ calculateThreatPoints "malware" "constructor" = nan
  /\ threatPointsAsDescribed "toString" "high" = 50%float
  /\ calculateThreatPoints "toString" "high" = nan.
Proof. vm_compute. repeat split; reflexivity. Qed.

End GamificationScoring.

Section GamificationAchievements.
Import Gamification.

Definition hasAchievement (stats : PlayerStats) (achievement : Achievement) : bool :=
  existsb (fun a => (id a =? id achievement)%string) (achievements stats).

Lemma existsb_id_app (l : list Achievement) (achievement : Achievement) :
  existsb (fun a => (id a =? id achievement)%string) (l ++ [achievement])%list = true.
Proof.
  rewrite existsb_app. simpl. rewrite String.eqb_refl.
  now rewrite orb_true_r.
Qed.

(** C10.  [unlockAchievement] is idempotent per achievement id.  When the
    player's list already holds an achievement of that id, neither the list
    nor [totalPoints] nor anything else changes; otherwise the achievement
    is appended once, at the end, and its points are added to [totalPoints]
    once, every other field staying as it was.  A second call with the same
    achievement changes nothing more.  Without player statistics the call
    does nothing. *)
Theorem C10_unlockAchievement_idempotent (s : Service) (achievement : Achievement) :
  (forall stats,
      playerStats s = Some stats -> hasAchievement stats achievement = true ->
      unlockAchievement s achievement = s)
  /\ (forall stats,
        playerStats s = Some stats -> hasAchievement stats achievement = false ->
        exists stats',
          playerStats (unlockAchievement s achievement) = Some stats'
          /\ achievements stats' = (achievements stats ++ [achievement])%list
          /\ totalPoints stats' = (totalPoints stats + points achievement)%float
          /\ playerId stats' = playerId stats
          /\ level stats' = level stats
          /\ threatsDetected stats' = threatsDetected stats
          /\ honeypotsTriggered stats' = honeypotsTriggered stats
          /\ currentLeague stats' = currentLeague stats
          /\ nftBadges stats' = nftBadges stats
          /\ count_occ string_dec (map id (achievements stats')) (id achievement) = 1%nat)
  /\ (playerStats s = None -> unlockAchievement s achievement = s)
  /\ unlockAchievement (unlockAchievement s achievement) achievement
     = unlockAchievement s achievement
  /\ serviceAchievements (unlockAchievement s achievement) = serviceAchievements s
  /\ leaderboard (unlockAchievement s achievement) = leaderboard s.
Proof.
  unfold hasAchievement. repeat split.
  - intros stats Hs Hhas. unfold unlockAchievement. now rewrite Hs, Hhas.
  - intros stats Hs Hhas. unfold unlockAchievement. rewrite Hs, Hhas.
    eexists. simpl. repeat split.
    simpl. rewrite map_app, count_occ_app. simpl.
    destruct (string_dec (id achievement) (id achievement)) as [_ | Hne]; [| congruence].
    rewrite (proj1 (count_occ_not_In string_dec _ _)); [reflexivity |].
    intros Hin. apply in_map_iff in Hin as [a [Ha Hin]].
    assert (Hex : existsb (fun a => (id a =? id achievement)%string) (achievements stats)
                  = true).
    { apply existsb_exists. exists a. split; [exact Hin |]. now apply String.eqb_eq. }
    congruence.
  - intros Hs. unfold unlockAchievement. now rewrite Hs.
  - destruct (playerStats s) as [stats |] eqn:Hs.
    + destruct (existsb (fun a => (id a =? id achievement)%string) (achievements stats))
        eqn:Hhas.
      * unfold unlockAchievement. rewrite Hs, Hhas. now rewrite Hs, Hhas.
      * unfold unlockAchievement. rewrite Hs, Hhas. cbn [playerStats achievements].
        now rewrite existsb_id_app.
    + unfold unlockAchievement. rewrite Hs. now rewrite Hs.
  - unfold unlockAchievement. destruct (playerStats s) as [stats |]; [| reflexivity].
    destruct (existsb _ (achievements stats)); reflexivity.
  - unfold unlockAchievement. destruct (playerStats s) as [stats |]; [| reflexivity].
    destruct (existsb _ (achievements stats)); reflexivity.
Qed.

End GamificationAchievements.
(** ** QuantumService: what the stretches of a method may change *)

Section QuantumFrames.
Import Quantum.

(** [Always R m]: every piece of synchronous work in [m] relates the state
    before it to the state after it by [R]. *)
Fixpoint Always {A : Type} (R : Service -> Service -> Prop) (m : Async A) : Prop :=
  match m with
  | Done _ => True
  | Eff op k => (forall e s, R s (snd (op e s))) /\ (forall x, Always R (k x))
  | Yield k => Always R k
  end.

Lemma Always_bind {A B : Type} (R : Service -> Service -> Prop)
  (m : Async A) (f : A -> Async B) :
  Always R m -> (forall a, Always R (f a)) -> Always R (bind m f).
Proof.
  intros Hm Hf. induction m as [a | X op k IH | k IH]; simpl in *.
  - apply Hf.
  - destruct Hm as [Hop Hk]. split; [exact Hop |]. intros x. apply IH, Hk.
  - apply IH, Hm.
Qed.

Lemma Always_await {A : Type} (R : Service -> Service -> Prop) (m : Async A) :
  Always R m -> Always R (await m).
Proof.
  intros Hm. unfold await. apply Always_bind; [exact Hm |]. intros a. exact I.
Qed.

Lemma Always_forEach {X : Type} (R : Service -> Service -> Prop)
  (l : list X) (body : X -> Async unit) :
  (forall x, Always R (body x)) -> Always R (forEach l body).
Proof.
  intros Hbody. induction l as [| x rest IH]; simpl; [exact I |].
  apply Always_bind; [apply Hbody | intros _; exact IH].
Qed.

Lemma Always_weaken {A : Type} (R R' : Service -> Service -> Prop) (m : Async A) :
  (forall s s', R s s' -> R' s s') -> Always R m -> Always R' m.
Proof.
  intros Hsub. induction m as [a | X op k IH | k IH]; simpl; auto.
  intros [Hop Hk]. split; [intros e s; apply Hsub, Hop | intros x; apply IH, Hk].
Qed.

Lemma Always_get {A : Type} (R : Service -> Service -> Prop) (k : Service -> Async A) :
  (forall s, R s s) -> (forall s, Always R (k s)) -> Always R (s <- get ;; k s).
Proof. intros Hrefl Hk. simpl. split; [intros e s; apply Hrefl | exact Hk]. Qed.

Lemma Always_env {A : Type} (R : Service -> Service -> Prop) (k : Env -> Async A) :
  (forall s, R s s) -> (forall e, Always R (k e)) -> Always R (e <- env ;; k e).
Proof. intros Hrefl Hk. simpl. split; [intros e s; apply Hrefl | exact Hk]. Qed.

Lemma Always_update (R : Service -> Service -> Prop) (f : Service -> Service) :
  (forall s, R s (f s)) -> Always R (update f).
Proof. intros Hf. simpl. split; [intros _ s; apply Hf | intros x; exact I]. Qed.

(** One stretch of a method all of whose work respects [R] respects [R],
    and so does what is left of the method. *)
Lemma Always_runStretch {A : Type} (R : Service -> Service -> Prop) (m : Async A) :
  (forall s, R s s) -> (forall s1 s2 s3, R s1 s2 -> R s2 s3 -> R s1 s3) ->
  Always R m ->
  forall e s, R s (fst (runStretch e m s)) /\ Always R (snd (runStretch e m s)).
Proof.
  intros Hrefl Htrans. induction m as [a | X op k IH | k IH]; simpl; intros Hm e s.
  - split; [apply Hrefl | exact I].
  - destruct Hm as [Hop Hk]. specialize (Hop e s).
    destruct (op e s) as [x s1]. simpl in Hop.
    destruct (IH x (Hk x) e s1) as [H1 H2].
    split; [exact (Htrans _ _ _ Hop H1) | exact H2].
  - split; [apply Hrefl | exact Hm].
Qed.

(** *** Identifiers and counters *)

(** The identifier and the counter of every honeypot, place by place. *)
Definition ledger (s : Service) : list (string * Z) :=
  map (fun h => (honeypotId h, attacksDetected h)) (quantumHoneypots s).

(** Nothing of the ledger moves. *)
Definition keeps (s s' : Service) : Prop := ledger s' = ledger s.

(** Every honeypot stays at its place with its identifier, and its counter
    does not go down. *)
Definition grows (s s' : Service) : Prop :=
  forall ref h,
    nth_error (quantumHoneypots s) ref = Some h ->
    exists h',
      nth_error (quantumHoneypots s') ref = Some h'
      /\ honeypotId h' = honeypotId h
      /\ attacksDetected h <= attacksDetected h'.

Lemma keeps_refl s : keeps s s.
Proof. reflexivity. Qed.

Lemma keeps_trans s1 s2 s3 : keeps s1 s2 -> keeps s2 s3 -> keeps s1 s3.
Proof. unfold keeps. congruence. Qed.

Lemma grows_refl s : grows s s.
Proof. intros ref h Hh. exists h. repeat split; [exact Hh | lia]. Qed.

Lemma grows_trans s1 s2 s3 : grows s1 s2 -> grows s2 s3 -> grows s1 s3.
Proof.
  intros H12 H23 ref h Hh.
  destruct (H12 ref h Hh) as [h2 [Hh2 [Hid2 Hc2]]].
  destruct (H23 ref h2 Hh2) as [h3 [Hh3 [Hid3 Hc3]]].
  exists h3. repeat split; [exact Hh3 | congruence | lia].
Qed.

Lemma keeps_grows s s' : keeps s s' -> grows s s'.
Proof.
  unfold keeps, ledger. intros Hk ref h Hh.
  assert (Hl : nth_error (ledger s) ref = Some (honeypotId h, attacksDetected h)).
  { unfold ledger. rewrite nth_error_map, Hh. reflexivity. }
  unfold ledger in Hl. rewrite <- Hk, nth_error_map in Hl.
  destruct (nth_error (quantumHoneypots s') ref) as [h' |]; [| discriminate].
  simpl in Hl. injection Hl as Hid Hc.
  exists h'. repeat split; [exact Hid | lia].
Qed.

Lemma map_updateAt {A B : Type} (g : A -> B) (f : A -> A) (i : nat) (l : list A) :
  (forall x, g (f x) = g x) -> map g (updateAt i f l) = map g l.
Proof.
  intros Hgf. revert i. induction l as [| x rest IH]; intros [| i]; simpl;
    try reflexivity.
  - now rewrite Hgf.
  - now rewrite IH.
Qed.

Lemma nth_error_updateAt_same {A : Type} (f : A -> A) (i : nat) (l : list A) :
  nth_error (updateAt i f l) i = option_map f (nth_error l i).
Proof.
  revert i. induction l as [| x rest IH]; intros [| i]; simpl; auto.
Qed.

Lemma nth_error_updateAt_other {A : Type} (f : A -> A) (i j : nat) (l : list A) :
  i <> j -> nth_error (updateAt i f l) j = nth_error l j.
Proof.
  revert i j. induction l as [| x rest IH]; intros [| i] [| j] Hne; simpl; auto;
    congruence.
Qed.

(** An assignment to fields other than the identifier and the counter. *)
Lemma keeps_modify (ref : Ref) (f : QuantumHoneypot -> QuantumHoneypot) (s : Service) :
  (forall h, honeypotId (f h) = honeypotId h) ->
  (forall h, attacksDetected (f h) = attacksDetected h) ->
  keeps s (modify ref f s).
Proof.
  intros Hid Hc. unfold keeps, ledger, modify. simpl.
  apply map_updateAt. intros h. now rewrite Hid, Hc.
Qed.

Lemma grows_modify (ref : Ref) (f : QuantumHoneypot -> QuantumHoneypot) (s : Service) :
  (forall h, honeypotId (f h) = honeypotId h) ->
  (forall h, attacksDetected h <= attacksDetected (f h)) ->
  grows s (modify ref f s).
Proof.
  intros Hid Hc i h Hh. unfold modify. simpl.
  destruct (Nat.eq_dec ref i) as [-> | Hne].
  - rewrite nth_error_updateAt_same, Hh. simpl.
    exists (f h). repeat split; [apply Hid | apply Hc].
  - rewrite nth_error_updateAt_other by assumption.
    exists h. repeat split; [exact Hh | lia].
Qed.

Lemma keeps_withKeys s l : keeps s (withKeys s l).
Proof. reflexivity. Qed.

Lemma keeps_withSignatures s l : keeps s (withSignatures s l).
Proof. reflexivity. Qed.

Lemma keeps_withStatus s st : keeps s (withStatus s st).
Proof. reflexivity. Qed.

Lemma grows_push (s : Service) (h : QuantumHoneypot) :
  grows s (withHoneypots s (quantumHoneypots s ++ [h])%list).
Proof.
  intros ref h0 Hh. simpl. exists h0. repeat split; [| lia].
  rewrite nth_error_app1; [exact Hh |]. apply nth_error_Some. congruence.
Qed.

(** *** The private methods leave the ledger alone *)

Create HintDb quantum.

#[local] Hint Resolve keeps_refl keeps_withKeys keeps_withSignatures keeps_withStatus : quantum.

Lemma Always_external (R : Service -> Service -> Prop) : Always R external.
Proof. exact I. Qed.

Lemma keeps_generateQuantumKeys (i : string) (strength : KeyStrength) :
  Always keeps (generateQuantumKeys i strength).
Proof.
  unfold generateQuantumKeys.
  apply Always_bind; [apply Always_update; auto with quantum | intros _].
  apply Always_forEach. intros algorithm'.
  apply Always_bind.
  - apply Always_await. unfold generatePostQuantumKeyPair.
    apply Always_env; [auto with quantum | intros e; exact I].
  - intros keyPair. apply Always_env; [auto with quantum | intros e].
    apply Always_update. auto with quantum.
Qed.

Lemma keeps_setLastKeyRotation (ref : Ref) (now : Z) (s : Service) :
  keeps s (modify ref (setLastKeyRotation now) s).
Proof. apply keeps_modify; reflexivity. Qed.

Lemma keeps_rotateOne (ref : Ref) : Always keeps (rotateOne ref).
Proof.
  unfold rotateOne. apply Always_get; [auto with quantum | intros s].
  destruct (nth_error (quantumHoneypots s) ref) as [honeypot |]; [| exact I].
  apply Always_bind; [apply Always_await, keeps_generateQuantumKeys | intros _].
  apply Always_env; [auto with quantum | intros e].
  apply Always_bind; [apply Always_update; intros s0; apply keeps_setLastKeyRotation |].
  intros _. apply Always_get; [auto with quantum | intros s1].
  destruct (nth_error (quantumHoneypots s1) ref) as [honeypot1 |]; [| exact I].
  destruct (partnerOf honeypot1) as [partnerId |]; [| exact I].
  destruct (findHoneypot partnerId s1) as [partner |]; [| exact I].
  destruct (nth_error (quantumHoneypots s1) partner) as [p |]; [| exact I].
  apply Always_bind; [apply Always_await, keeps_generateQuantumKeys | intros _].
  apply Always_env; [auto with quantum | intros e'].
  apply Always_update. intros s0. apply keeps_setLastKeyRotation.
Qed.

Lemma keeps_rotateQuantumKeys (i : option string) : Always keeps (rotateQuantumKeys i).
Proof.
  unfold rotateQuantumKeys. apply Always_get; [auto with quantum | intros s].
  apply Always_bind; [apply Always_forEach, keeps_rotateOne | intros _].
  apply Always_await, Always_external.
Qed.

Lemma keeps_injectQuantumNoise (ref : Ref) : Always keeps (injectQuantumNoise ref).
Proof.
  unfold injectQuantumNoise. apply Always_env; [auto with quantum | intros e].
  apply Always_update. intros s. apply keeps_modify; reflexivity.
Qed.

Lemma keeps_induceDecoherence (ref : Ref) : Always keeps (induceDecoherence ref).
Proof.
  unfold induceDecoherence. apply Always_update. intros s.
  apply keeps_modify; intros h; destruct (quantumState h); reflexivity.
Qed.

Lemma keeps_countermeasure (ref : Ref) (name : string) :
  Always keeps (countermeasure ref name).
Proof.
  unfold countermeasure.
  destruct (name =? "key_rotation")%string.
  - apply Always_get; [auto with quantum | intros s].
    destruct (nth_error (quantumHoneypots s) ref); [| exact I].
    apply Always_await, keeps_rotateQuantumKeys.
  - destruct (name =? "quantum_noise_injection")%string;
      [apply Always_await, keeps_injectQuantumNoise |].
    destruct (name =? "decoherence_induction")%string;
      [apply Always_await, keeps_induceDecoherence | exact I].
Qed.

Lemma keeps_triggerQuantumCountermeasures (ref : Ref) (sig : QuantumAttackSignature) :
  Always keeps (triggerQuantumCountermeasures ref sig).
Proof. apply Always_forEach, keeps_countermeasure. Qed.

Lemma keeps_updateSystemStatus : Always keeps updateSystemStatus.
Proof. apply Always_update. auto with quantum. Qed.

Lemma keeps_whenActive (m : Async unit) : Always keeps m -> Always keeps (whenActive m).
Proof.
  intros Hm. unfold whenActive. apply Always_get; [auto with quantum | intros s].
  destruct (isQuantumSystemActive s); [apply Always_await, Hm | exact I].
Qed.

(** [detectQuantumAttack] after the counter has been raised. *)
Definition afterCount (honeypot : Ref) (sig : QuantumAttackSignature)
  : Async (option QuantumAttackSignature) :=
  update (fun s => withSignatures s (attackSignatures s ++ [sig])%list) ;;;
  await (triggerQuantumCountermeasures honeypot sig) ;;;
  await updateSystemStatus ;;;
  await saveQuantumData ;;;
  whenActive (reportQuantumAttack sig) ;;;
  Done (Some sig).

Lemma keeps_afterCount (honeypot : Ref) (sig : QuantumAttackSignature) :
  Always keeps (afterCount honeypot sig).
Proof.
  unfold afterCount.
  apply Always_bind; [apply Always_update; auto with quantum | intros _].
  apply Always_bind;
    [apply Always_await, keeps_triggerQuantumCountermeasures | intros _].
  apply Always_bind; [apply Always_await, keeps_updateSystemStatus | intros _].
  apply Always_bind; [apply Always_await, Always_external | intros _].
  apply Always_bind; [apply keeps_whenActive, Always_external | intros _].
  exact I.
Qed.

End QuantumFrames.
(** ** QuantumService: concurrent detections on one honeypot *)

Section QuantumConcurrentDetection.
Import Quantum.

Lemma findIndexFrom_map {A B : Type} (g : A -> B) (p : B -> bool) (i : nat) (l : list A) :
  findIndexFrom (fun x => p (g x)) i l = findIndexFrom p i (map g l).
Proof.
  revert i. induction l as [| x rest IH]; intros i; simpl; [reflexivity |].
  destruct (p (g x)); [reflexivity | apply IH].
Qed.

Lemma findHoneypot_ledger (i : string) (s s' : Service) :
  ledger s' = ledger s -> findHoneypot i s' = findHoneypot i s.
Proof.
  intros Hl. unfold findHoneypot.
  rewrite !(findIndexFrom_map honeypotId (fun x => (x =? i)%string)).
  f_equal. apply (f_equal (map fst)) in Hl. unfold ledger in Hl.
  rewrite !map_map in Hl. exact Hl.
Qed.

(** The counter of the honeypot at [ref]. *)
Definition counterAt (ref : Ref) (s : Service) : option Z :=
  option_map snd (nth_error (ledger s) ref).

Lemma counterAt_honeypot (ref : Ref) (s : Service) :
  counterAt ref s = option_map attacksDetected (nth_error (quantumHoneypots s) ref).
Proof.
  unfold counterAt, ledger. rewrite nth_error_map.
  now destruct (nth_error (quantumHoneypots s) ref).
Qed.

Lemma counterAt_recordAttack (ref : Ref) (sig : QuantumAttackSignature) (s : Service) :
  counterAt ref (modify ref (recordAttack sig) s)
  = option_map (fun c => c + 1) (counterAt ref s).
Proof.
  rewrite !counterAt_honeypot. unfold modify. simpl.
  rewrite nth_error_updateAt_same.
  now destruct (nth_error (quantumHoneypots s) ref).
Qed.

Lemma ids_recordAttack (ref : Ref) (sig : QuantumAttackSignature) (s : Service) :
  map fst (ledger (modify ref (recordAttack sig) s)) = map fst (ledger s).
Proof.
  unfold ledger, modify. simpl. rewrite !map_map. now apply map_updateAt.
Qed.

Lemma findHoneypot_ids (i : string) (s s' : Service) :
  map fst (ledger s') = map fst (ledger s) -> findHoneypot i s' = findHoneypot i s.
Proof.
  intros Hl. unfold findHoneypot.
  rewrite !(findIndexFrom_map honeypotId (fun x => (x =? i)%string)).
  f_equal. unfold ledger in Hl. rewrite !map_map in Hl. exact Hl.
Qed.

(** Where a pending [detectQuantumAttack] stands, and how many increments
    it still owes: just called, resumed after the analysis with a signature
    in hand, or past the increment. *)
Inductive Phase (i : string) (ref : Ref)
  : Async (option QuantumAttackSignature) -> Z -> Prop :=
| Phase_called (attackData : AttackData) :
    isQuantumAttack (detectQuantumIndicators attackData) = true ->
    Phase i ref (detectQuantumAttack i attackData) 1
| Phase_analysed (sig : QuantumAttackSignature) :
    Phase i ref (afterAnalysis ref (Some sig)) 1
| Phase_counted (m : Async (option QuantumAttackSignature)) :
    Always keeps m -> Phase i ref m 0.

Lemma Phase_owes (i : string) (ref : Ref) m n : Phase i ref m n -> 0 <= n <= 1.
Proof. intros []; lia. Qed.

Lemma Phase_finished (i : string) (ref : Ref) m n :
  Phase i ref m n -> finished m = true -> n = 0.
Proof. intros [attackData _ | sig | m' _] Hf; try reflexivity; discriminate. Qed.

Lemma runStretch_called (i : string) (ref : Ref) (attackData : AttackData) e s :
  findHoneypot i s = Some ref ->
  isQuantumAttack (detectQuantumIndicators attackData) = true ->
  exists sig, runStretch e (detectQuantumAttack i attackData) s
              = (s, afterAnalysis ref (Some sig)).
Proof.
  intros Hfind Hq. unfold detectQuantumAttack. simpl. rewrite Hfind.
  unfold analyzeQuantumAttack. simpl. rewrite Hq. simpl.
  eexists. reflexivity.
Qed.

Lemma runStretch_analysed (ref : Ref) (sig : QuantumAttackSignature) e s :
  runStretch e (afterAnalysis ref (Some sig)) s
  = runStretch e (afterCount ref sig) (modify ref (recordAttack sig) s).
Proof. reflexivity. Qed.

(** One turn of a pending detection: the identifiers stay, and the counter
    of the honeypot plus what the call still owes is unchanged. *)
Lemma Phase_turn (i : string) (ref : Ref) m n e s c :
  Phase i ref m n ->
  findHoneypot i s = Some ref ->
  counterAt ref s = Some c ->
  exists n',
    Phase i ref (snd (runStretch e m s)) n'
    /\ findHoneypot i (fst (runStretch e m s)) = Some ref
    /\ counterAt ref (fst (runStretch e m s)) = Some (c + n - n').
Proof.
  intros Hphase Hfind Hc. destruct Hphase as [attackData Hq | sig | m Hkeeps].
  - destruct (runStretch_called i ref attackData e s Hfind Hq) as [sig ->]. simpl.
    exists 1. repeat split; [constructor | exact Hfind |].
    rewrite Hc. f_equal. lia.
  - rewrite runStretch_analysed.
    destruct (Always_runStretch keeps (afterCount ref sig) keeps_refl keeps_trans
                (keeps_afterCount ref sig) e (modify ref (recordAttack sig) s))
      as [Hk Hrest].
    exists 0. repeat split.
    + now constructor.
    + rewrite (findHoneypot_ledger i _ _ Hk).
      rewrite (findHoneypot_ids i s _ (ids_recordAttack ref sig s)). exact Hfind.
    + unfold counterAt at 1. rewrite Hk. fold (counterAt ref (modify ref (recordAttack sig) s)).
      rewrite counterAt_recordAttack, Hc. simpl. f_equal. lia.
  - destruct (Always_runStretch keeps m keeps_refl keeps_trans Hkeeps e s) as [Hk Hrest].
    exists 0. repeat split.
    + now constructor.
    + now rewrite (findHoneypot_ledger i _ _ Hk).
    + unfold counterAt. rewrite Hk. fold (counterAt ref s). rewrite Hc. f_equal. lia.
Qed.

Definition total (ns : list Z) : Z := fold_right Z.add 0 ns.

Lemma total_app (xs ys : list Z) : total (xs ++ ys) = total xs + total ys.
Proof. induction xs as [| x xs IH]; simpl; [reflexivity | rewrite IH; lia]. Qed.

Lemma total_nonneg (i : string) (ref : Ref) pool ns :
  Forall2 (Phase i ref) pool ns -> 0 <= total ns.
Proof.
  induction 1 as [| m n pool ns Hp _ IH]; simpl; [lia |].
  pose proof (Phase_owes _ _ _ _ Hp). lia.
Qed.

Lemma total_at_most_length (i : string) (ref : Ref) pool ns :
  Forall2 (Phase i ref) pool ns -> total ns <= Z.of_nat (List.length ns).
Proof.
  induction 1 as [| m n pool ns Hp _ IH]; cbn [total fold_right List.length]; [lia |].
  fold (total ns). pose proof (Phase_owes _ _ _ _ Hp). rewrite Nat2Z.inj_succ. lia.
Qed.

Lemma turn_length {A : Type} (c c' : Loop A) :
  turn c c' -> List.length (fst c') = List.length (fst c).
Proof. intros []. cbn [fst]. rewrite !length_app. reflexivity. Qed.

Lemma turns_length {A : Type} (c c' : Loop A) :
  turns c c' -> List.length (fst c') = List.length (fst c).
Proof.
  induction 1 as [c | c1 c2 c3 Hturn _ IH]; [reflexivity |].
  rewrite IH. now apply turn_length.
Qed.

(** The calls in flight owe together what is missing from the counter. *)
Definition Balanced (i : string) (ref : Ref) (target : Z)
  (c : Loop (option QuantumAttackSignature)) : Prop :=
  findHoneypot i (snd c) = Some ref
  /\ exists ns count,
       Forall2 (Phase i ref) (fst c) ns
       /\ counterAt ref (snd c) = Some count
       /\ count + total ns = target.

Lemma Balanced_turn (i : string) (ref : Ref) (target : Z) c c' :
  Balanced i ref target c -> turn c c' -> Balanced i ref target c'.
Proof.
  intros [Hfind [ns [count [Hphases [Hcount Hsum]]]]] Hturn.
  destruct Hturn as [before after m e s _]. cbn [fst snd] in *.
  apply Forall2_app_inv_l in Hphases as [ns1 [ns2 [H1 [H2 Hns]]]].
  rewrite Hns, total_app in Hsum. clear Hns.
  inversion H2 as [| m0 n after0 ns3 Hm Hafter Em En]. subst m0 after0 ns2.
  destruct (Phase_turn i ref m n e s count Hm Hfind Hcount) as [n' [Hm' [Hfind' Hcount']]].
  split; [exact Hfind' |].
  exists (ns1 ++ n' :: ns3)%list, (count + n - n'). repeat split.
  - apply Forall2_app; [exact H1 | constructor; assumption].
  - exact Hcount'.
  - rewrite total_app. simpl in *. lia.
Qed.

Lemma Balanced_turns (i : string) (ref : Ref) (target : Z) c c' :
  turns c c' -> Balanced i ref target c -> Balanced i ref target c'.
Proof.
  induction 1 as [c | c1 c2 c3 Hturn _ IH]; intros Hb; [exact Hb |].
  apply IH. exact (Balanced_turn i ref target c1 c2 Hb Hturn).
Qed.

Lemma total_finished (i : string) (ref : Ref) pool ns :
  Forall2 (Phase i ref) pool ns -> forallb finished pool = true -> total ns = 0.
Proof.
  induction 1 as [| m n pool ns Hp _ IH]; simpl; [reflexivity |].
  intros Hall. apply andb_true_iff in Hall as [Hm Hrest].
  rewrite (Phase_finished i ref m n Hp Hm), (IH Hrest). reflexivity.
Qed.

Lemma Phase_calls (i : string) (ref : Ref) (attacks : list AttackData) :
  Forall (fun d => isQuantumAttack (detectQuantumIndicators d) = true) attacks ->
  exists ns,
    Forall2 (Phase i ref) (map (detectQuantumAttack i) attacks) ns
    /\ total ns = Z.of_nat (List.length attacks).
Proof.
  induction 1 as [| d attacks Hd _ [ns [Hns Hsum]]]; cbn [map List.length].
  - exists []. split; [constructor | reflexivity].
  - exists (1 :: ns). split; [constructor; [now constructor | exact Hns] |].
    cbn [total fold_right]. fold (total ns). rewrite Hsum. lia.
Qed.

(** *** Every call returns *)

Lemma turns_trans {A : Type} (c1 c2 c3 : Loop A) :
  turns c1 c2 -> turns c2 c3 -> turns c1 c3.
Proof.
  induction 1 as [c | a b c Hab _ IH]; intros H; [exact H |].
  exact (turns_step a b c3 Hab (IH H)).
Qed.

Lemma turns_after_stretch {A : Type} (e : Env) (before after : list (Async A))
  (m : Async A) :
  forall s,
    finished m = false ->
    turns ((before ++ snd (runStretch e m s) :: after)%list, fst (runStretch e m s))
          ((before ++ Done (snd (complete e m s)) :: after)%list, fst (complete e m s)).
Proof.
  induction m as [a | X op k IH | k IH]; intros s Hf; [discriminate | |]; simpl.
  - destruct (op e s) as [x s1].
    destruct (finished (k x)) eqn:Hk.
    + destruct (k x); try discriminate. simpl. apply turns_refl.
    + apply IH. exact Hk.
  - destruct (finished k) eqn:Hk.
    + destruct k; try discriminate. simpl. apply turns_refl.
    + eapply turns_step; [apply (turn_intro before after k e s Hk) |].
      apply IH. reflexivity.
Qed.

Lemma turns_complete {A : Type} (e : Env) (before after : list (Async A))
  (m : Async A) (s : Service) :
  turns ((before ++ m :: after)%list, s)
        ((before ++ Done (snd (complete e m s)) :: after)%list, fst (complete e m s)).
Proof.
  destruct (finished m) eqn:Hf.
  - destruct m; try discriminate. simpl. apply turns_refl.
  - eapply turns_step; [apply (turn_intro before after m e s Hf) |].
    apply turns_after_stretch. exact Hf.
Qed.

(** Whatever is in flight, the loop can bring every call to its end. *)
Lemma turns_to_the_end {A : Type} (e : Env) (todo : list (Async A)) :
  forall (ready : list (Async A)) (s : Service),
    forallb finished ready = true ->
    exists c', turns ((ready ++ todo)%list, s) c' /\ allFinished c'.
Proof.
  induction todo as [| m todo IH]; intros ready s Hready.
  - exists (ready, s). rewrite app_nil_r. split; [apply turns_refl | exact Hready].
  - destruct (IH (ready ++ [Done (snd (complete e m s))])%list (fst (complete e m s)))
      as [c' [Hturns Hall]].
    + rewrite forallb_app, Hready. reflexivity.
    + exists c'. split; [| exact Hall].
      eapply turns_trans; [apply (turns_complete e ready todo m s) |].
      rewrite <- app_assoc in Hturns. exact Hturns.
Qed.

Lemma findIndexFrom_nth {A : Type} (p : A -> bool) (l : list A) :
  forall i ref, findIndexFrom p i l = Some ref ->
                exists x, nth_error l (ref - i) = Some x /\ p x = true /\ (i <= ref)%nat.
Proof.
  induction l as [| x rest IH]; intros i ref H; simpl in H; [discriminate |].
  destruct (p x) eqn:Hp.
  - injection H as <-. exists x. rewrite Nat.sub_diag. repeat split; [exact Hp | lia].
  - destruct (IH (S i) ref H) as [y [Hy [Hpy Hle]]]. exists y. repeat split; [| exact Hpy | lia].
    replace (ref - i)%nat with (S (ref - S i)) by lia. exact Hy.
Qed.

Lemma findHoneypot_counter (i : string) (ref : Ref) (s : Service) :
  findHoneypot i s = Some ref ->
  exists h, nth_error (quantumHoneypots s) ref = Some h
            /\ honeypotId h = i
            /\ counterAt ref s = Some (attacksDetected h).
Proof.
  intros Hfind. apply findIndexFrom_nth in Hfind as [h [Hh [Hid _]]].
  rewrite Nat.sub_0_r in Hh. exists h. repeat split; [exact Hh | |].
  - now apply String.eqb_eq in Hid.
  - now rewrite counterAt_honeypot, Hh.
Qed.

(** C2.  [attacks] are the arguments of N invocations of
    [detectQuantumAttack] on the honeypot [i], each of which the analysis
    answers with a signature; they are in flight together, and the event
    loop may resume them in any order, one stretch between two [await]s at a
    time.  However the loop interleaves them: while they run the counter of
    the honeypot lies between its value at the start and that value plus N;
    once all have returned it is that value plus N exactly; the honeypot
    keeps its place and its identifier.  And the loop can always bring all
    of them to their end. *)
Theorem C2_concurrent_detections_counted_once_each
  (i : string) (attacks : list AttackData) (s : Service) (ref : Ref)
  (Hfound : findHoneypot i s = Some ref)
  (Hsignatures :
     Forall (fun d => isQuantumAttack (detectQuantumIndicators d) = true) attacks) :
  let N := Z.of_nat (List.length attacks) in
  let calls := map (detectQuantumAttack i) attacks in
  exists h,
    nth_error (quantumHoneypots s) ref = Some h
    /\ (forall c', turns (calls, s) c' ->
          exists h',
            nth_error (quantumHoneypots (snd c')) ref = Some h'
            /\ honeypotId h' = honeypotId h
            /\ attacksDetected h <= attacksDetected h' <= attacksDetected h + N
            /\ (allFinished c' -> attacksDetected h' = attacksDetected h + N))
    /\ (exists c', turns (calls, s) c' /\ allFinished c').
Proof.
  cbv zeta.
  destruct (findHoneypot_counter i ref s Hfound) as [h [Hh [Hid Hcount]]].
  exists h. split; [exact Hh |]. split.
  - intros c' Hturns.
    destruct (Phase_calls i ref attacks Hsignatures) as [ns [Hns Hsum]].
    assert (Hstart : Balanced i ref (attacksDetected h + Z.of_nat (List.length attacks))
                       (map (detectQuantumAttack i) attacks, s)).
    { split; [exact Hfound |]. exists ns, (attacksDetected h).
      repeat split; [exact Hns | exact Hcount | lia]. }
    destruct (Balanced_turns i ref _ _ c' Hturns Hstart)
      as [Hfind' [ns' [count' [Hns' [Hcount' Hsum']]]]].
    destruct (findHoneypot_counter i ref (snd c') Hfind') as [h' [Hh' [Hid' Hc']]].
    rewrite Hcount' in Hc'. injection Hc' as Hc'.
    pose proof (total_nonneg i ref _ _ Hns') as Hlow.
    assert (Hhigh : total ns' <= Z.of_nat (List.length attacks)).
    { pose proof (total_at_most_length i ref _ _ Hns') as Hle.
      apply Forall2_length in Hns'. rewrite <- Hns' in Hle.
      rewrite (turns_length _ _ Hturns) in Hle. cbn [fst] in Hle.
      now rewrite length_map in Hle. }
    exists h'. repeat split; try lia; [exact Hh' | congruence |].
    intros Hall. rewrite (total_finished i ref _ _ Hns' Hall) in Hsum'. lia.
  - apply (turns_to_the_end
             {| Date_now := 0; random36 := ""; randomPublicKey := "";
                randomPrivateKey := ""; Math_random := 0 |}
             (map (detectQuantumAttack i) attacks) [] s eq_refl).
Qed.

Definition labHoneypot : QuantumHoneypot :=
  {| honeypotId := "qhp_1700000000000_x1"; quantumState := superposition;
     entanglementPartner := None; keyStrength := post_quantum_256;
     lastKeyRotation := 1700000000000; attacksDetected := 4; quantumSignatures := [];
     isActive := true; location := "lab";
     metadata := [("createdAt", MetaDate 1700000000000);
                  ("creator", MetaText "mobile_client")] |}.

Definition labService : Service :=
  {| quantumHoneypots := [labHoneypot]; quantumKeys := []; attackSignatures := [];
     systemStatus :=
       {| totalHoneypots := 1; activeHoneypots := 1; quantumStates := [(superposition, 1)];
          entangledPairs := 0; averageKeyStrength := post_quantum_256;
          totalAttacksDetected := 4; systemCoherence := 1; lastQuantumSync := 0 |};
     isQuantumSystemActive := false |}.

Definition coherentProbe : AttackData :=
  {| ad_coherenceTime := Some (5 # 1); ad_entanglementDegree := None;
     ad_quantumVolume := None; ad_vector := Some "lattice" |}.

Definition largeVolumeProbe : AttackData :=
  {| ad_coherenceTime := None; ad_entanglementDegree := None;
     ad_quantumVolume := Some (2000 # 1); ad_vector := None |}.

(** The theorem at two detections in flight on a honeypot that has counted
    four attacks: however they interleave, the counter ends at six. *)
Lemma C2_concurrent_detections_witness :
  exists h,
    nth_error (quantumHoneypots labService) 0 = Some h
    /\ (forall c',
          turns (map (detectQuantumAttack "qhp_1700000000000_x1")
                     [coherentProbe; largeVolumeProbe], labService) c' ->
          exists h',
            nth_error (quantumHoneypots (snd c')) 0 = Some h'
            /\ honeypotId h' = honeypotId h
            /\ attacksDetected h <= attacksDetected h' <= attacksDetected h + 2
            /\ (allFinished c' -> attacksDetected h' = attacksDetected h + 2))
    /\ (exists c',
          turns (map (detectQuantumAttack "qhp_1700000000000_x1")
                     [coherentProbe; largeVolumeProbe], labService) c'
          /\ allFinished c').
Proof.
  apply (C2_concurrent_detections_counted_once_each
           "qhp_1700000000000_x1" [coherentProbe; largeVolumeProbe] labService 0%nat).
  - reflexivity.
  - repeat constructor.
Defined.

End QuantumConcurrentDetection.
(** ** Retention of logged threats and of attack signatures *)

Section Retention.

Definition simulatedThreat (n : nat) : HoneyNet.ThreatEvent :=
  {| HoneyNet.id := "sim_" ++ JS.toString10 (Z.of_nat n);
     HoneyNet.timestamp := 1700000000000 + Z.of_nat n;
     HoneyNet.type := HoneyNet.malware; HoneyNet.severity := HoneyNet.high;
     HoneyNet.description := "simulated malware attack";
     HoneyNet.source := "192.168.1.100"; HoneyNet.blocked := true |}.

Definition fullLog : list HoneyNet.ThreatEvent := map simulatedThreat (seq 0 100).

Definition storageWorks : HoneyNet.StorageOutcome :=
  {| HoneyNet.getItemOk := true; HoneyNet.setItemOk := true |}.

Definition hasThreatId (i : string) (log : HoneyNet.ThreatLog) : bool :=
  match log with
  | Some l => existsb (fun t => (HoneyNet.id t =? i)%string) l
  | None => false
  end.

Definition networkSignature (n : nat) : Quantum.QuantumAttackSignature :=
  {| Quantum.signatureId := "qsig_" ++ JS.toString10 (Z.of_nat n) ++ "_net";
     Quantum.signatureType := Quantum.grover_search;
     Quantum.confidence := 3 # 10;
     Quantum.detectedAt := 1700000000000 + Z.of_nat n;
     Quantum.attackVector := "unknown";
     Quantum.quantumCharacteristics :=
       {| Quantum.qc_coherenceTime := None; Quantum.qc_entanglementDegree := None;
          Quantum.qc_quantumVolume := Some (200 # 1); Quantum.qc_errorRate := None |};
     Quantum.countermeasures := Quantum.getCountermeasures Quantum.grover_search |}.

Definition serviceWithSignatures (n : nat) : Quantum.Service :=
  {| Quantum.quantumHoneypots := []; Quantum.quantumKeys := [];
     Quantum.attackSignatures := map networkSignature (seq 0 n);
     Quantum.systemStatus :=
       {| Quantum.totalHoneypots := 0; Quantum.activeHoneypots := 0;
          Quantum.quantumStates := []; Quantum.entangledPairs := 0;
          Quantum.averageKeyStrength := Quantum.post_quantum_256;
          Quantum.totalAttacksDetected := 0; Quantum.systemCoherence := 1;
          Quantum.lastQuantumSync := 0 |};
     Quantum.isQuantumSystemActive := true |}.

Definition hasSignatureId (i : string) (s : Quantum.Service) : bool :=
  existsb (fun x => (Quantum.signatureId x =? i)%string) (Quantum.attackSignatures s).

(** C3, counterexample.  With 100 threats in the log, logging one more
    removes the oldest; with 1000 signatures stored, merging one new
    signature leaves the last 500 and discards the 501 oldest. *)
Lemma C3_oldest_entries_dropped :
  hasThreatId "sim_0" (Some fullLog) = true
  /\ hasThreatId "sim_0" (HoneyNet.logThreat storageWorks (Some fullLog) (simulatedThreat 100))
     = false
  /\ hasSignatureId "qsig_0_net" (serviceWithSignatures 1000) = true
  /\ hasSignatureId "qsig_0_net"
       (Quantum.mergeAttackSignatures [networkSignature 1000] (serviceWithSignatures 1000))
     = false
  /\ List.length (Quantum.attackSignatures
       (Quantum.mergeAttackSignatures [networkSignature 1000] (serviceWithSignatures 1000)))
     = 500%nat.
Proof. vm_compute. repeat split; reflexivity. Qed.

Lemma keepLast100_short (l : list HoneyNet.ThreatEvent) :
  (List.length l <= 100)%nat -> HoneyNet.keepLast100 l = l.
Proof.
  intros Hl. unfold HoneyNet.keepLast100.
  destruct (Nat.ltb_spec 100 (List.length l)); [lia | reflexivity].
Qed.

Lemma keepLast100_long (l : list HoneyNet.ThreatEvent) :
  (100 < List.length l)%nat ->
  HoneyNet.keepLast100 l = skipn (List.length l - 100) l.
Proof.
  intros Hl. unfold HoneyNet.keepLast100.
  destruct (Nat.ltb_spec 100 (List.length l)); [reflexivity | lia].
Qed.

Lemma logThreat_cases (io : HoneyNet.StorageOutcome) (stored : HoneyNet.ThreatLog)
  (threat : HoneyNet.ThreatEvent) :
  HoneyNet.logThreat io stored threat =
  if HoneyNet.getItemOk io && HoneyNet.setItemOk io
  then Some (HoneyNet.keepLast100
               (match stored with Some l => l | None => [] end ++ [threat])%list)
  else stored.
Proof.
  unfold HoneyNet.logThreat.
  destruct (HoneyNet.getItemOk io), (HoneyNet.setItemOk io); reflexivity.
Qed.

(** What [mergeLoop] appends: the network signatures whose id is not stored
    yet, each once. *)
Fixpoint newSignatures (networkSignatures stored : list Quantum.QuantumAttackSignature)
  : list Quantum.QuantumAttackSignature :=
  match networkSignatures with
  | [] => []
  | signature :: rest =>
      if existsb (fun s => (Quantum.signatureId s =? Quantum.signatureId signature)%string)
                 stored
      then newSignatures rest stored
      else signature :: newSignatures rest (stored ++ [signature])%list
  end.

Lemma mergeLoop_appends (networkSignatures : list Quantum.QuantumAttackSignature) :
  forall stored,
    Quantum.mergeLoop networkSignatures stored
    = (stored ++ newSignatures networkSignatures stored)%list.
Proof.
  induction networkSignatures as [| signature rest IH]; intros stored; simpl.
  - now rewrite app_nil_r.
  - destruct (existsb _ stored); rewrite IH; [reflexivity |].
    now rewrite <- app_assoc.
Qed.

Lemma newSignatures_from_network (networkSignatures : list Quantum.QuantumAttackSignature) :
  forall stored x, In x (newSignatures networkSignatures stored) -> In x networkSignatures.
Proof.
  induction networkSignatures as [| signature rest IH]; intros stored x; simpl; [tauto |].
  destruct (existsb _ stored); simpl.
  - intros H. right. exact (IH _ _ H).
  - intros [<- | H]; [now left | right; exact (IH _ _ H)].
Qed.

(** C3, amended.  [logThreat] appends the threat to the persisted log and
    then keeps the last 100 entries: while the log holds fewer than 100
    entries every entry stored before is still stored afterwards, followed
    by the new one; from 100 entries on the oldest are removed so that 100
    remain, the new one last; when a storage call fails the log is as
    before.  [mergeAttackSignatures] appends, after the stored signatures,
    the network signatures whose id is not stored yet; when that leaves at
    most 1000 signatures all of them stay, otherwise only the last 500 do.
    Nothing else of the service changes. *)
Theorem C3_retention_is_bounded
  (io : HoneyNet.StorageOutcome) (stored : HoneyNet.ThreatLog) (threat : HoneyNet.ThreatEvent)
  (networkSignatures : list Quantum.QuantumAttackSignature) (s : Quantum.Service) :
  let log := match stored with Some l => l | None => [] end in
  let merged :=
    (Quantum.attackSignatures s
       ++ newSignatures networkSignatures (Quantum.attackSignatures s))%list in
  let s' := Quantum.mergeAttackSignatures networkSignatures s in
  (HoneyNet.getItemOk io && HoneyNet.setItemOk io = false ->
     HoneyNet.logThreat io stored threat = stored)
  /\ (HoneyNet.getItemOk io && HoneyNet.setItemOk io = true ->
        ((List.length log < 100)%nat ->
           HoneyNet.logThreat io stored threat = Some (log ++ [threat])%list)
        /\ ((100 <= List.length log)%nat ->
              HoneyNet.logThreat io stored threat
              = Some (skipn (List.length log - 99) log ++ [threat])%list
              /\ List.length (skipn (List.length log - 99) log ++ [threat])%list = 100%nat))
  /\ (forall x, In x (newSignatures networkSignatures (Quantum.attackSignatures s)) ->
                In x networkSignatures)
  /\ ((List.length merged <= 1000)%nat -> Quantum.attackSignatures s' = merged)
  /\ ((1000 < List.length merged)%nat ->
        Quantum.attackSignatures s' = skipn (List.length merged - 500) merged
        /\ List.length (Quantum.attackSignatures s') = 500%nat)
  /\ Quantum.quantumHoneypots s' = Quantum.quantumHoneypots s
  /\ Quantum.quantumKeys s' = Quantum.quantumKeys s
  /\ Quantum.systemStatus s' = Quantum.systemStatus s
  /\ Quantum.isQuantumSystemActive s' = Quantum.isQuantumSystemActive s.
Proof.
  cbv zeta. rewrite logThreat_cases.
  split; [intros ->; reflexivity |].
  split.
  { intros ->. set (log := match stored with Some l => l | None => [] end). split.
    - intros Hshort. rewrite keepLast100_short; [reflexivity |].
      rewrite length_app. simpl. lia.
    - intros Hlong. rewrite keepLast100_long by (rewrite length_app; simpl; lia).
      rewrite length_app. simpl.
      replace (List.length log + 1 - 100)%nat with (List.length log - 99)%nat by lia.
      rewrite skipn_app.
      replace (List.length log - 99 - List.length log)%nat with 0%nat by lia.
      simpl. split; [reflexivity |].
      rewrite length_app, length_skipn. simpl. lia. }
  split; [apply newSignatures_from_network |].
  unfold Quantum.mergeAttackSignatures. rewrite mergeLoop_appends. simpl.
  set (merged := (Quantum.attackSignatures s
                    ++ newSignatures networkSignatures (Quantum.attackSignatures s))%list).
  repeat split.
  - intros Hle. destruct (Nat.ltb_spec 1000 (List.length merged)); [lia | reflexivity].
  - destruct (Nat.ltb_spec 1000 (List.length merged)); [reflexivity | lia].
  - destruct (Nat.ltb_spec 1000 (List.length merged)); [| lia].
    unfold Quantum.sliceLast. rewrite length_skipn. lia.
Qed.

End Retention.
(** ** Counters only go up *)

Section QuantumCounters.
Import Quantum.

(** The operations of [QuantumService] that write to the service, with
    their arguments; [Decohere] is the timer that lets honeypots decohere.
    ([initialize], which reads the arrays of the service from storage, and
    [cleanup], which empties them, replace the arrays as a whole: no
    honeypot exists both before and after them.) *)
Inductive Call : Type :=
| Create (location' : string) (strength : KeyStrength)
| Entangle (honeypotId1 honeypotId2 : string)
| Detect (honeypotId' : string) (attackData : AttackData)
| Rotate (honeypotId' : option string)
| Measure (honeypotId' : string)
| GetStatus
| GetRecent (limit : Z)
| Sync (networkUpdates : option NetworkUpdates)
| Decohere (hit : nat -> bool).

Definition discard {A : Type} (m : Async A) : Async unit := m ;;; Done tt.

Definition program (c : Call) : Async unit :=
  match c with
  | Create location' strength => discard (createQuantumHoneypot location' strength)
  | Entangle honeypotId1 honeypotId2 => discard (entangleHoneypots honeypotId1 honeypotId2)
  | Detect honeypotId' attackData => discard (detectQuantumAttack honeypotId' attackData)
  | Rotate honeypotId' => rotateQuantumKeys honeypotId'
  | Measure honeypotId' => discard (measureQuantumState honeypotId')
  | GetStatus => discard getSystemStatus
  | GetRecent limit => discard (getRecentAttackSignatures limit)
  | Sync networkUpdates => syncWithQuantumNetwork networkUpdates
  | Decohere hit => decoherenceTick hit
  end.

Lemma grows_of_keeps {A : Type} (m : Async A) : Always keeps m -> Always grows m.
Proof. apply Always_weaken. exact keeps_grows. Qed.

Lemma grows_recordAttack (ref : Ref) (sig : QuantumAttackSignature) (s : Service) :
  grows s (modify ref (recordAttack sig) s).
Proof. apply grows_modify; intros h; simpl; [reflexivity | lia]. Qed.

Lemma grows_afterAnalysis (ref : Ref) (signature : option QuantumAttackSignature) :
  Always grows (afterAnalysis ref signature).
Proof.
  destruct signature as [sig |]; [| exact I].
  change (Always grows (update (modify ref (recordAttack sig)) ;;; afterCount ref sig)).
  apply Always_bind; [apply Always_update, grows_recordAttack | intros _].
  apply grows_of_keeps, keeps_afterCount.
Qed.

Lemma grows_detectQuantumAttack (i : string) (attackData : AttackData) :
  Always grows (detectQuantumAttack i attackData).
Proof.
  unfold detectQuantumAttack. apply Always_get; [apply grows_refl | intros s].
  destruct (findHoneypot i s) as [ref |]; [| exact I].
  apply Always_bind; [| intros signature; apply grows_afterAnalysis].
  apply Always_await. unfold analyzeQuantumAttack.
  apply Always_env; [apply grows_refl | intros e].
  destruct (isQuantumAttack (detectQuantumIndicators attackData)); exact I.
Qed.

Lemma grows_createQuantumHoneypot (location' : string) (strength : KeyStrength) :
  Always grows (createQuantumHoneypot location' strength).
Proof.
  unfold createQuantumHoneypot. apply Always_env; [apply grows_refl | intros e].
  apply Always_bind;
    [apply grows_of_keeps, Always_await, keeps_generateQuantumKeys | intros _].
  apply Always_bind; [apply Always_update; intros s; apply grows_push | intros _].
  apply grows_of_keeps.
  apply Always_bind; [apply Always_await, keeps_updateSystemStatus | intros _].
  apply Always_bind; [apply Always_await, Always_external | intros _].
  apply Always_bind; [apply keeps_whenActive, Always_external | intros _].
  exact I.
Qed.

Lemma keeps_entangleHoneypots (honeypotId1 honeypotId2 : string) :
  Always keeps (entangleHoneypots honeypotId1 honeypotId2).
Proof.
  unfold entangleHoneypots. apply Always_get; [apply keeps_refl | intros s].
  destruct (findHoneypot honeypotId1 s) as [honeypot1 |]; [| exact I].
  destruct (findHoneypot honeypotId2 s) as [honeypot2 |]; [| exact I].
  apply Always_bind;
    [apply Always_update; intros s0; apply keeps_modify; reflexivity | intros _].
  apply Always_bind;
    [apply Always_update; intros s0; apply keeps_modify; reflexivity | intros _].
  apply Always_bind; [apply Always_await, keeps_updateSystemStatus | intros _].
  apply Always_bind; [apply Always_await, Always_external | intros _].
  apply Always_bind; [apply keeps_whenActive, Always_external | intros _].
  exact I.
Qed.

Lemma keeps_measureQuantumState (i : string) : Always keeps (measureQuantumState i).
Proof.
  unfold measureQuantumState. apply Always_get; [apply keeps_refl | intros s].
  destruct (findHoneypot i s) as [honeypot |]; [| exact I].
  destruct (nth_error (quantumHoneypots s) honeypot) as [h |]; [| exact I].
  destruct (quantumState h); try exact I.
  apply Always_bind;
    [apply Always_update; intros s0; apply keeps_modify; reflexivity | intros _].
  apply Always_bind.
  - destruct (partnerOf h) as [partnerId |]; [| exact I].
    apply Always_get; [apply keeps_refl | intros s1].
    destruct (findHoneypot partnerId s1) as [partner |]; [| exact I].
    apply Always_update. intros s0. apply keeps_modify; reflexivity.
  - intros _. apply Always_bind; [apply Always_await, Always_external | intros _].
    apply Always_get; [apply keeps_refl | intros s2].
    destruct (nth_error (quantumHoneypots s2) honeypot); exact I.
Qed.

Lemma keeps_getSystemStatus : Always keeps getSystemStatus.
Proof.
  unfold getSystemStatus.
  apply Always_bind; [apply Always_await, keeps_updateSystemStatus | intros _].
  apply Always_get; [apply keeps_refl | intros s; exact I].
Qed.

Lemma keeps_getRecentAttackSignatures (limit : Z) :
  Always keeps (getRecentAttackSignatures limit).
Proof.
  unfold getRecentAttackSignatures.
  apply Always_bind; [apply Always_update; intros s; reflexivity | intros _].
  apply Always_get; [apply keeps_refl | intros s; exact I].
Qed.

Lemma keeps_syncWithQuantumNetwork (networkUpdates : option NetworkUpdates) :
  Always keeps (syncWithQuantumNetwork networkUpdates).
Proof.
  unfold syncWithQuantumNetwork. apply Always_get; [apply keeps_refl | intros s].
  destruct (isQuantumSystemActive s); simpl; [| exact I].
  destruct networkUpdates as [updates |]; [| exact I].
  apply Always_bind.
  - destruct (nu_attackSignatures updates) as [signatures |]; [| exact I].
    apply Always_update. intros s0. reflexivity.
  - intros _. apply Always_env; [apply keeps_refl | intros e].
    apply Always_update. intros s0. reflexivity.
Qed.

Lemma map_decohere (g : QuantumHoneypot -> string * Z) (hit : nat -> bool)
  (l : list QuantumHoneypot) :
  (forall h, g (setQuantumState decoherent h) = g h) ->
  forall start,
    map g (map (fun ih : nat * QuantumHoneypot =>
                  match quantumState (snd ih) with
                  | superposition =>
                      if hit (fst ih) then setQuantumState decoherent (snd ih) else snd ih
                  | _ => snd ih
                  end)
               (combine (seq start (List.length l)) l))
    = map g l.
Proof.
  intros Hg. induction l as [| h rest IH]; intros start; simpl; [reflexivity |].
  rewrite IH. f_equal.
  destruct (quantumState h); try reflexivity.
  destruct (hit start); [apply Hg | reflexivity].
Qed.

Lemma keeps_decoherenceTick (hit : nat -> bool) : Always keeps (decoherenceTick hit).
Proof.
  unfold decoherenceTick. apply Always_update. intros s.
  unfold keeps, ledger. simpl. apply map_decohere. reflexivity.
Qed.

(** Whatever the operation, each of its stretches lets every honeypot keep
    its place and identifier and never lowers a counter. *)
Lemma grows_program (c : Call) : Always grows (program c).
Proof.
  destruct c; cbn [program]; unfold discard;
    try (apply Always_bind; [| intros ?; exact I]).
  - apply grows_createQuantumHoneypot.
  - apply grows_of_keeps, keeps_entangleHoneypots.
  - apply grows_detectQuantumAttack.
  - apply grows_of_keeps, keeps_rotateQuantumKeys.
  - apply grows_of_keeps, keeps_measureQuantumState.
  - apply grows_of_keeps, keeps_getSystemStatus.
  - apply grows_of_keeps, keeps_getRecentAttackSignatures.
  - apply grows_of_keeps, keeps_syncWithQuantumNetwork.
  - apply grows_of_keeps, keeps_decoherenceTick.
Qed.

Lemma grows_turn {A : Type} (c c' : Loop A) :
  Forall (Always grows) (fst c) -> turn c c' ->
  grows (snd c) (snd c') /\ Forall (Always grows) (fst c').
Proof.
  intros Hall Hturn. destruct Hturn as [before after m e s _]. cbn [fst snd] in *.
  apply Forall_app in Hall as [Hbefore Hrest].
  apply Forall_cons_iff in Hrest as [Hm Hafter].
  destruct (Always_runStretch grows m grows_refl grows_trans Hm e s) as [Hs Hm'].
  split; [exact Hs |].
  apply Forall_app. split; [exact Hbefore | constructor; assumption].
Qed.

Lemma grows_turns {A : Type} (c c' : Loop A) :
  turns c c' -> Forall (Always grows) (fst c) -> grows (snd c) (snd c').
Proof.
  induction 1 as [c | c1 c2 c3 Hturn _ IH]; intros Hall; [apply grows_refl |].
  destruct (grows_turn c1 c2 Hall Hturn) as [H12 Hall2].
  exact (grows_trans _ _ _ H12 (IH Hall2)).
Qed.

Lemma Always_complete {A : Type} (R : Service -> Service -> Prop) (m : Async A) :
  (forall s, R s s) -> (forall s1 s2 s3, R s1 s2 -> R s2 s3 -> R s1 s3) ->
  Always R m -> forall e s, R s (fst (complete e m s)).
Proof.
  intros Hrefl Htrans. induction m as [a | X op k IH | k IH]; simpl; intros Hm e s.
  - apply Hrefl.
  - destruct Hm as [Hop Hk]. specialize (Hop e s).
    destruct (op e s) as [x s1]. simpl in Hop.
    exact (Htrans _ _ _ Hop (IH x (Hk x) e s1)).
  - apply IH, Hm.
Qed.

Lemma complete_runStretch {A : Type} (e : Env) (m : Async A) (s : Service) :
  complete e m s = complete e (snd (runStretch e m s)) (fst (runStretch e m s)).
Proof.
  revert s. induction m as [a | X op k IH | k IH]; intros s; simpl; [reflexivity | |].
  - destruct (op e s) as [x s1]. apply IH.
  - reflexivity.
Qed.

Lemma complete_analysed (ref : Ref) (sig : QuantumAttackSignature) e s :
  complete e (afterAnalysis ref (Some sig)) s
  = complete e (afterCount ref sig) (modify ref (recordAttack sig) s).
Proof. reflexivity. Qed.

(** A detection run from its call to its return, with a honeypot of that
    id and a signature from the analysis: the ledger afterwards is the
    ledger before with one more attack on that honeypot, and the call
    returns the signature. *)
Lemma complete_detectQuantumAttack (i : string) (attackData : AttackData) e s ref :
  findHoneypot i s = Some ref ->
  isQuantumAttack (detectQuantumIndicators attackData) = true ->
  exists sig,
    ledger (fst (complete e (detectQuantumAttack i attackData) s))
    = ledger (modify ref (recordAttack sig) s).
Proof.
  intros Hfind Hq.
  destruct (runStretch_called i ref attackData e s Hfind Hq) as [sig Hrun].
  exists sig. rewrite complete_runStretch, Hrun. cbn [fst snd].
  rewrite complete_analysed.
  exact (Always_complete keeps _ keeps_refl keeps_trans (keeps_afterCount ref sig) e _).
Qed.

Lemma ledger_recordAttack (ref : Ref) (sig : QuantumAttackSignature) (s : Service) :
  ledger (modify ref (recordAttack sig) s)
  = updateAt ref (fun p => (fst p, snd p + 1)) (ledger s).
Proof.
  unfold ledger, modify. simpl. generalize (quantumHoneypots s). intros l. revert ref.
  induction l as [| h rest IH]; intros [| ref]; simpl; try reflexivity.
  now rewrite IH.
Qed.

End QuantumCounters.

Section HoneypotTriggers.
Import HoneyNet.

(** The honeypot [h'] is [h] as it was, or [h] triggered for the first
    time since it was armed. *)
Definition sameOrTriggered (h h' : MobileHoneypot) : Prop :=
  h' = h \/ (triggered h = false /\ h' = trigger h).

Lemma triggerActive_nth (l : list MobileHoneypot) :
  forall pick i h,
    nth_error l i = Some h ->
    exists h', nth_error (triggerActive pick l) i = Some h' /\ sameOrTriggered h h'.
Proof.
  induction l as [| x rest IH]; intros pick i h Hh; [destruct i; discriminate |].
  simpl. destruct (triggered x) eqn:Hx.
  - destruct i as [| i]; simpl in *.
    + exists x. split; [reflexivity | left; congruence].
    + apply IH. exact Hh.
  - destruct pick as [| pick].
    + destruct i as [| i]; simpl in *.
      * injection Hh as <-. exists (trigger x). split; [reflexivity | right; now split].
      * exists h. split; [exact Hh | now left].
    + destruct i as [| i]; simpl in *.
      * exists x. split; [reflexivity | left; congruence].
      * apply IH. exact Hh.
Qed.

Definition totalTriggers (l : list MobileHoneypot) : Z :=
  fold_right (fun h acc => triggerCount h + acc) 0 l.

Lemma triggerActive_total (l : list MobileHoneypot) :
  forall pick,
    (pick < List.length (filter (fun h => negb (triggered h)) l))%nat ->
    totalTriggers (triggerActive pick l) = totalTriggers l + 1.
Proof.
  induction l as [| x rest IH]; intros pick Hpick; simpl in *; [lia |].
  destruct (triggered x); simpl in *.
  - rewrite IH by assumption. lia.
  - destruct pick as [| pick]; simpl; [lia |].
    rewrite IH by lia. lia.
Qed.

Lemma sameOrTriggered_counts (h h' : MobileHoneypot) :
  sameOrTriggered h h' ->
  hp_id h' = hp_id h /\ triggerCount h <= triggerCount h' <= triggerCount h + 1.
Proof.
  intros [-> | [_ ->]]; simpl; split; try reflexivity; lia.
Qed.

Lemma triggerRandomHoneypot_nth (pick : nat) (s : Service) (i : nat) (h : MobileHoneypot) :
  nth_error (honeypots s) i = Some h ->
  exists h',
    nth_error (honeypots (triggerRandomHoneypot pick s)) i = Some h'
    /\ sameOrTriggered h h'.
Proof.
  intros Hh. unfold triggerRandomHoneypot.
  destruct (0 <? _)%nat; [| exists h; split; [exact Hh | now left]].
  destruct (pick <? _)%nat; [| exists h; split; [exact Hh | now left]].
  simpl. now apply triggerActive_nth.
Qed.

End HoneypotTriggers.

(** C5.  Occurrence counters only increase, and identifiers stay.
    [QuantumService]: let any operations of the service be in flight
    together and the event loop resume them in any order, for any number of
    turns; every honeypot that was there before is still at its place with
    its identifier, and its [attacksDetected] is not lower.  A detection run
    from its call to its return, on a honeypot that exists and with a
    signature from the analysis, raises the counter of that honeypot by
    exactly one and leaves all other counters and all identifiers alone.
    [HoneyNetService]: after [triggerRandomHoneypot], [simulateAttack] or
    [initializeHoneypots] every honeypot that was there before is at its
    place with its identifier, and is either untouched or triggered with
    [triggerCount] one higher; when an armed honeypot is picked the counts
    add up to exactly one more than before. *)
Theorem C5_counters_only_increase :
  (forall (calls : list Call) (s : Quantum.Service) c',
      Quantum.turns (map program calls, s) c' ->
      forall ref h,
        nth_error (Quantum.quantumHoneypots s) ref = Some h ->
        exists h',
          nth_error (Quantum.quantumHoneypots (snd c')) ref = Some h'
          /\ Quantum.honeypotId h' = Quantum.honeypotId h
          /\ Quantum.attacksDetected h <= Quantum.attacksDetected h')
  /\ (forall i attackData e s ref,
        Quantum.findHoneypot i s = Some ref ->
        Quantum.isQuantumAttack (Quantum.detectQuantumIndicators attackData) = true ->
        ledger (fst (Quantum.complete e (Quantum.detectQuantumAttack i attackData) s))
        = Quantum.updateAt ref (fun p => (fst p, snd p + 1)) (ledger s))
  /\ (forall pick s i h,
        nth_error (HoneyNet.honeypots s) i = Some h ->
        exists h',
          nth_error (HoneyNet.honeypots (HoneyNet.triggerRandomHoneypot pick s)) i = Some h'
          /\ HoneyNet.hp_id h' = HoneyNet.hp_id h
          /\ HoneyNet.triggerCount h <= HoneyNet.triggerCount h'
             <= HoneyNet.triggerCount h + 1)
  /\ (forall pick s,
        (pick < List.length (filter (fun h => negb (HoneyNet.triggered h))
                                    (HoneyNet.honeypots s)))%nat ->
        totalTriggers (HoneyNet.honeypots (HoneyNet.triggerRandomHoneypot pick s))
        = totalTriggers (HoneyNet.honeypots s) + 1)
  /\ (forall now io pick s stored,
        HoneyNet.honeypots (fst (HoneyNet.simulateAttack now io pick s stored))
        = HoneyNet.honeypots (HoneyNet.triggerRandomHoneypot pick s))
  /\ (forall now s i h,
        nth_error (HoneyNet.honeypots s) i = Some h ->
        nth_error (HoneyNet.honeypots (HoneyNet.initializeHoneypots now s)) i = Some h).
Proof.
  split; [| split; [| split; [| split; [| split]]]].
  - intros calls s c' Hturns.
    apply (grows_turns _ _ Hturns). cbn [fst].
    apply Forall_forall. intros m Hm. apply in_map_iff in Hm as [c [<- _]].
    apply grows_program.
  - intros i attackData e s ref Hfind Hq.
    destruct (complete_detectQuantumAttack i attackData e s ref Hfind Hq) as [sig ->].
    apply ledger_recordAttack.
  - intros pick s i h Hh.
    destruct (triggerRandomHoneypot_nth pick s i h Hh) as [h' [Hh' Hsame]].
    exists h'. split; [exact Hh' |]. now apply sameOrTriggered_counts.
  - intros pick s Hpick. unfold HoneyNet.triggerRandomHoneypot.
    destruct (Nat.ltb_spec 0 (List.length (filter (fun h => negb (HoneyNet.triggered h))
                                                  (HoneyNet.honeypots s)))); [| lia].
    destruct (Nat.ltb_spec pick (List.length (filter (fun h => negb (HoneyNet.triggered h))
                                                     (HoneyNet.honeypots s)))); [| lia].
    simpl. now apply triggerActive_total.
  - intros now io pick s stored. reflexivity.
  - intros now s i h Hh. unfold HoneyNet.initializeHoneypots.
    destruct (HoneyNet.honeypots s) as [| x rest] eqn:Hl; [destruct i; discriminate |].
    simpl. rewrite Hl. exact Hh.
Qed.
(** ** SwarmService: reading the pheromone trails *)

Section SwarmTrails.
Import Swarm.
Local Open Scope R_scope.

(** *** Memory *)

Lemma read_new (m : Memory) (v : list PheromoneTrail) :
  read (m ++ [v])%list (List.length m) = v.
Proof. unfold read. now rewrite nth_middle. Qed.

Lemma read_old (m : Memory) (v : list PheromoneTrail) (a : ArrayRef) :
  (a < List.length m)%nat -> read (m ++ [v])%list a = read m a.
Proof. intros Ha. unfold read. now apply app_nth1. Qed.

Lemma write_new (m : Memory) (v v' : list PheromoneTrail) :
  write (List.length m) v' (m ++ [v])%list = (m ++ [v'])%list.
Proof. induction m as [| x rest IH]; simpl; [reflexivity | now rewrite IH]. Qed.

(** *** Sorting *)

Definition stronger (a b : PheromoneTrail) : Prop := strength a >= strength b.

Lemma insertByStrength_perm (x : PheromoneTrail) (l : list PheromoneTrail) :
  Permutation (insertByStrength x l) (x :: l).
Proof.
  induction l as [| y rest IH]; simpl; [reflexivity |].
  destruct (Rlt_dec (strength x) (strength y)); [| reflexivity].
  rewrite IH. apply perm_swap.
Qed.

Lemma sortByStrength_perm (l : list PheromoneTrail) : Permutation (sortByStrength l) l.
Proof.
  induction l as [| x rest IH]; simpl; [reflexivity |].
  rewrite insertByStrength_perm. now constructor.
Qed.

Lemma insertByStrength_sorted (x : PheromoneTrail) (l : list PheromoneTrail) :
  StronglySorted stronger l -> StronglySorted stronger (insertByStrength x l).
Proof.
  induction l as [| y rest IH]; simpl; intros Hs.
  - repeat constructor.
  - apply StronglySorted_inv in Hs as [Hrest Hy].
    destruct (Rlt_dec (strength x) (strength y)) as [Hlt | Hge].
    + constructor; [now apply IH |].
      apply Forall_forall. intros z Hz.
      apply (Permutation_in _ (insertByStrength_perm x rest)) in Hz as [<- | Hz].
      * unfold stronger. lra.
      * rewrite Forall_forall in Hy. now apply Hy.
    + constructor; [now constructor |].
      constructor; [unfold stronger; lra |].
      apply Forall_forall. intros z Hz. rewrite Forall_forall in Hy.
      specialize (Hy z Hz). unfold stronger in *. lra.
Qed.

Lemma sortByStrength_sorted (l : list PheromoneTrail) :
  StronglySorted stronger (sortByStrength l).
Proof.
  induction l as [| x rest IH]; simpl; [constructor | now apply insertByStrength_sorted].
Qed.

(** *** The trails a call selects *)

Definition decayed (now : Z) (trail : PheromoneTrail) : PheromoneTrail :=
  withStrength trail (calculateDecayedStrength now trail).

(** The trails of [stored], decayed, that pass the filters of a call. *)
Definition selected (now : Z) (trailType' : option TrailType) (location' : option string)
  (stored : list PheromoneTrail) : list PheromoneTrail :=
  filter (fun trail =>
            match given location' with
            | Some l => (location trail =? l)%string
            | None => true
            end)
    (filter (fun trail =>
               match trailType' with
               | Some t => TrailType_eqb (trailType trail) t
               | None => true
               end)
       (filter strongEnough (map (decayed now) stored))).

Lemma filter_true {A : Type} (l : list A) : filter (fun _ => true) l = l.
Proof. induction l as [| x rest IH]; simpl; [reflexivity | now rewrite IH]. Qed.

Lemma getPheromoneTrails_returns (now : Z) (trailType' : option TrailType)
  (location' : option string) (w : World) :
  let out := getPheromoneTrails now trailType' location' w in
  read (memory (snd out)) (fst out)
  = sortByStrength (selected now trailType' location'
                      (read (memory w) (pheromoneTrails (this w))))
  /\ this (snd out) = this w
  /\ (List.length (memory w) <= fst out)%nat
  /\ (forall a, (a < List.length (memory w))%nat ->
                read (memory (snd out)) a = read (memory w) a).
Proof.
  cbv zeta. unfold getPheromoneTrails, selected, alloc.
  set (m0 := memory w). set (stored := read m0 (pheromoneTrails (this w))).
  rewrite !read_new.
  destruct trailType' as [t |]; destruct (given location') as [l |];
    rewrite ?read_new; cbn [fst snd memory this]; rewrite ?write_new, ?read_new;
    rewrite ?filter_true;
    (split; [reflexivity | split; [reflexivity | split]]);
    rewrite ?length_app; cbn [List.length]; try lia;
    intros a Ha; rewrite !read_old; rewrite ?length_app; cbn [List.length];
    try lia; reflexivity.
Qed.

Lemma given_Some (location' : option string) (l : string) :
  given location' = Some l <-> location' = Some l /\ l <> ""%string.
Proof.
  destruct location' as [[| c rest] |]; simpl; split;
    try discriminate; try (intros [H _]; discriminate).
  - intros [H Hne]. injection H as <-. now contradiction Hne.
  - intros H. injection H as <-. split; [reflexivity | discriminate].
  - intros [H _]. exact H.
Qed.

Lemma TrailType_eqb_eq (a b : TrailType) : TrailType_eqb a b = true <-> a = b.
Proof. destruct a, b; simpl; split; intros H; try reflexivity; discriminate. Qed.

Lemma strongEnough_spec (trail : PheromoneTrail) :
  strongEnough trail = true <-> strength trail > 1 / 100.
Proof.
  unfold strongEnough. destruct (Rgt_dec (strength trail) (1 / 100)); split;
    intros H; try reflexivity; try assumption; try discriminate; contradiction.
Qed.

Lemma in_selected (now : Z) (trailType' : option TrailType) (location' : option string)
  (stored : list PheromoneTrail) (r : PheromoneTrail) :
  In r (selected now trailType' location' stored)
  <-> exists trail,
        In trail stored
        /\ r = decayed now trail
        /\ strength r > 1 / 100
        /\ (forall t, trailType' = Some t -> trailType trail = t)
        /\ (forall l, location' = Some l -> l <> ""%string -> location trail = l).
Proof.
  unfold selected. rewrite !filter_In, in_map_iff, strongEnough_spec. split.
  - intros [[[[trail [<- Hin]] Hstrong] Htype] Hloc].
    exists trail. repeat split; try assumption.
    + intros t ->. now apply TrailType_eqb_eq in Htype.
    + intros l Hl Hne. destruct (given location') as [l' |] eqn:Hg.
      * apply given_Some in Hg as [Hg _]. rewrite Hl in Hg. injection Hg as <-.
        now apply String.eqb_eq in Hloc.
      * assert (Hg' : given location' = Some l) by now apply given_Some.
        congruence.
  - intros [trail [Hin [-> [Hstrong [Htype Hloc]]]]].
    repeat split; try assumption.
    + now exists trail.
    + destruct trailType' as [t |]; [| reflexivity].
      apply TrailType_eqb_eq. simpl. now apply Htype.
    + destruct (given location') as [l |] eqn:Hg; [| reflexivity].
      apply given_Some in Hg as [Hg Hne]. apply String.eqb_eq. simpl.
      now apply Hloc.
Qed.

Definition dmzTrail : PheromoneTrail :=
  {| trailId := "trail_1700000000000_q7"; trailType := danger; strength := 1;
     location := "dmz"; createdBy := "agent_1"; timestamp := 1700000000000;
     decayRate := 1 / 10; metadata := [] |}.

Definition loneAgentService : Service :=
  {| localAgent := None; nearbyAgents := []; activeTasks := []; pheromoneTrails := 0%nat;
     swarmIntelligence :=
       {| collectiveKnowledge := []; emergentBehaviors := []; swarmDecisions := [];
          networkTopology := [] |};
     isConnectedToSwarm := false |}.

Definition dmzWorld : World := {| this := loneAgentService; memory := [[dmzTrail]] |}.

Lemma dmzTrail_fresh : calculateDecayedStrength 1700000000000 dmzTrail = 1.
Proof.
  unfold calculateDecayedStrength. simpl.
  replace (- (1 / 10) * (0 / (1000 * 60 * 60))) with 0 by lra.
  rewrite exp_0. lra.
Qed.

(** C8, counterexample.  One trail is stored, at the location ["dmz"].  A
    call that supplies the empty string as location is answered with that
    trail: the empty string does not restrict the result. *)
Lemma C8_empty_location_not_applied :
  map location
      (read (memory (snd (getPheromoneTrails 1700000000000 None (Some ""%string) dmzWorld)))
            (fst (getPheromoneTrails 1700000000000 None (Some ""%string) dmzWorld)))
  = ["dmz"%string]
  /\ ("dmz" =? "")%string = false.
Proof.
  split; [| reflexivity].
  rewrite (proj1 (getPheromoneTrails_returns 1700000000000 None (Some ""%string) dmzWorld)).
  unfold selected. cbn [given map read memory dmzWorld this loneAgentService
                             pheromoneTrails nth].
  rewrite !filter_true. cbn [filter].
  assert (Hstrong : strongEnough (decayed 1700000000000 dmzTrail) = true).
  { apply strongEnough_spec. unfold decayed. cbn [strength withStrength].
    rewrite dmzTrail_fresh. lra. }
  rewrite Hstrong. reflexivity.
Qed.

(** C8, amended.  [getPheromoneTrails] mutates nothing: the fields of the
    service are as before, every array that existed before the call holds
    what it held, and the array returned is a new one.  That array holds
    the stored trails with the exponential decay applied to their strength,
    those only whose decayed strength exceeds 0.01, whose type is the
    [trailType] of the call when one is supplied, and whose location is the
    [location] of the call when one is supplied and is not the empty string
    (an empty string restricts nothing); each of them once per stored
    trail, and in the order of descending strength. *)
Theorem C8_getPheromoneTrails_reads_only (now : Z) (trailType' : option TrailType)
  (location' : option string) (w : World) :
  let out := getPheromoneTrails now trailType' location' w in
  let returned := read (memory (snd out)) (fst out) in
  let stored := read (memory w) (pheromoneTrails (this w)) in
  this (snd out) = this w
  /\ (forall a, (a < List.length (memory w))%nat ->
                read (memory (snd out)) a = read (memory w) a)
  /\ (List.length (memory w) <= fst out)%nat
  /\ (forall r,
        In r returned
        <-> exists trail,
              In trail stored
              /\ r = withStrength trail (calculateDecayedStrength now trail)
              /\ strength r > 1 / 100
              /\ (forall t, trailType' = Some t -> trailType trail = t)
              /\ (forall l, location' = Some l -> l <> ""%string -> location trail = l))
  /\ Permutation returned (selected now trailType' location' stored)
  /\ StronglySorted (fun a b => strength a >= strength b) returned.
Proof.
  cbv zeta.
  destruct (getPheromoneTrails_returns now trailType' location' w)
    as [Hreturned [Hthis [Hfresh Hframe]]].
  rewrite Hreturned.
  repeat split; try assumption.
  - intros Hin. apply (Permutation_in _ (sortByStrength_perm _)) in Hin.
    now apply in_selected.
  - intros Hex. apply (Permutation_in _ (Permutation_sym (sortByStrength_perm _))).
    now apply in_selected.
  - apply sortByStrength_perm.
  - apply sortByStrength_sorted.
Qed.

End SwarmTrails.
(** * Further properties of the services *)

(** ** BlockchainService: queries, extension and merging of chains *)

Section BlockchainQueries.
Import Blockchain.

Lemma find_app_last {A : Type} (p : A -> bool) (l : list A) (x : A) :
  (forall y, In y l -> p y = false) -> p x = true -> find p (l ++ [x])%list = Some x.
Proof.
  intros Hl Hx. induction l as [| y rest IH]; simpl.
  - now rewrite Hx.
  - rewrite (Hl y (or_introl eq_refl)). apply IH. intros z Hz. apply Hl. now right.
Qed.

(** X1.  A record that has just been submitted is found again under the
    identifier it was given, with the fields of the report, provided no
    record already pending carries that identifier; this holds whether or
    not the submission to the network succeeded. *)
Theorem submitted_record_is_found
  (env : SubmitEnv) (s : Service) (threatData : ThreatData)
  (networkAnswer : option (option ThreatRecord))
  (Hfresh : ~ In (generateThreatId (env_now env) (env_random env))
               (map id (pendingThreatRecords s))) :
  exists record,
    getThreatRecord (generateThreatId (env_now env) (env_random env)) networkAnswer
      (snd (submitThreatRecord env s threatData)) = Some record
    /\ id record = generateThreatId (env_now env) (env_random env)
    /\ threatType record = td_threatType threatData
    /\ severity record = td_severity threatData
    /\ sourceIp record = td_sourceIp threatData
    /\ targetIp record = td_targetIp threatData
    /\ signature record = td_signature threatData
    /\ metadata record = td_metadata threatData
    /\ timestamp record = env_date env.
Proof.
  set (threatId := generateThreatId (env_now env) (env_random env)) in *.
  assert (Hfound :
    forall s', pendingThreatRecords s'
               = (pendingThreatRecords s
                  ++ [ {| id := threatId;
                          threatType := td_threatType threatData;
                          severity := td_severity threatData;
                          sourceIp := td_sourceIp threatData;
                          targetIp := td_targetIp threatData;
                          signature := td_signature threatData;
                          metadata := td_metadata threatData;
                          timestamp := env_date env |} ])%list ->
      getThreatRecord threatId networkAnswer s'
      = Some {| id := threatId;
                threatType := td_threatType threatData;
                severity := td_severity threatData;
                sourceIp := td_sourceIp threatData;
                targetIp := td_targetIp threatData;
                signature := td_signature threatData;
                metadata := td_metadata threatData;
                timestamp := env_date env |}).
  { intros s' Hpending. unfold getThreatRecord. rewrite Hpending.
    rewrite find_app_last; [reflexivity | | apply String.eqb_refl].
    intros y Hy. apply String.eqb_neq. intros Heq. apply Hfresh.
    rewrite <- Heq. now apply in_map. }
  eexists. split.
  - apply Hfound. unfold submitThreatRecord.
    destruct (isConnected s && negb (env_networkOk env)); reflexivity.
  - repeat split.
Qed.

Definition emptyOfflineService : Service :=
  {| localChain := []; pendingThreatRecords := []; isConnected := false;
     nodeId := "node_1700000000000_a1" |}.

Definition portScanReport : ThreatData :=
  {| td_threatType := "brute_force"; td_severity := "medium"; td_sourceIp := "198.51.100.23";
     td_targetIp := "10.0.0.7"; td_signature := "ssh-bf-01"; td_metadata := [] |}.

Definition noonSubmission : SubmitEnv :=
  {| env_now := 1700000043200; env_random := "p9d2"; env_date := 1700000043201;
     env_networkOk := false |}.

Lemma submitted_record_is_found_witness :
  exists record,
    getThreatRecord (generateThreatId 1700000043200 "p9d2") None
      (snd (submitThreatRecord noonSubmission emptyOfflineService portScanReport))
    = Some record
    /\ id record = generateThreatId 1700000043200 "p9d2"
    /\ threatType record = "brute_force"
    /\ severity record = "medium"
    /\ sourceIp record = "198.51.100.23"
    /\ targetIp record = "10.0.0.7"
    /\ signature record = "ssh-bf-01"
    /\ metadata record = []
    /\ timestamp record = 1700000043201.
Proof.
  apply (submitted_record_is_found noonSubmission emptyOfflineService portScanReport None).
  simpl. tauto.
Defined.

(** *** getRecentBlocks *)

Lemma sliceFrom_negative {A : Type} (k : Z) (l : list A) :
  0 < k -> sliceFrom (- k) l = skipn (List.length l - Z.to_nat k) l.
Proof.
  intros Hk. unfold sliceFrom.
  destruct (Z.ltb_spec (- k) 0); [| lia]. f_equal. lia.
Qed.

(** X2.  Off line, [getRecentBlocks(limit)] with a positive [limit] answers the
    last [limit] blocks of the local chain (all of them when the chain is
    shorter), newest first; with [limit] 0 it answers the whole chain,
    newest first, since [slice(-0)] starts at the first block; with a
    negative [limit] it leaves out the oldest [-limit] blocks.  The local
    chain itself is an argument and is not reordered. *)
Theorem getRecentBlocks_offline
  (limit : Z) (networkAnswer : option (list Block)) (s : Service)
  (Hoffline : isConnected s = false) :
  let recent := getRecentBlocks limit networkAnswer s in
  let chain := localChain s in
  (0 < limit ->
     recent = rev (skipn (List.length chain - Z.to_nat limit) chain)
     /\ List.length recent = Nat.min (Z.to_nat limit) (List.length chain))
  /\ (limit = 0 -> recent = rev chain)
  /\ (limit < 0 -> recent = rev (skipn (Z.to_nat (- limit)) chain)).
Proof.
  cbv zeta. unfold getRecentBlocks. rewrite Hoffline. repeat split.
  - now rewrite sliceFrom_negative.
  - rewrite sliceFrom_negative by assumption. rewrite length_rev, length_skipn. lia.
  - intros ->. unfold sliceFrom. cbn [Z.opp Z.ltb Z.compare].
    rewrite Z.min_l by lia. reflexivity.
  - intros Hneg. unfold sliceFrom. destruct (Z.ltb_spec (- limit) 0); [lia |].
    destruct (Z.min_spec (- limit) (Z.of_nat (List.length (localChain s))))
      as [[_ ->] | [Hle ->]]; [reflexivity |].
    rewrite Nat2Z.id. rewrite !skipn_all2 by lia. reflexivity.
Qed.

Definition threeBlocks : Service :=
  {| localChain := [genesis; second; localOnly]; pendingThreatRecords := [];
     isConnected := false; nodeId := "node_me" |}.

Lemma getRecentBlocks_offline_witness :
  (0 < 0 ->
     getRecentBlocks 0 None threeBlocks
     = rev (skipn (List.length (localChain threeBlocks) - Z.to_nat 0) (localChain threeBlocks))
     /\ List.length (getRecentBlocks 0 None threeBlocks)
        = Nat.min (Z.to_nat 0) (List.length (localChain threeBlocks)))
  /\ (0 = 0 -> getRecentBlocks 0 None threeBlocks = rev (localChain threeBlocks))
  /\ (0 < 0 ->
      getRecentBlocks 0 None threeBlocks
      = rev (skipn (Z.to_nat (- 0)) (localChain threeBlocks))).
Proof. exact (getRecentBlocks_offline 0 None threeBlocks eq_refl). Defined.

(** *** Extending and cutting chains *)

Lemma last_nonempty {A : Type} (x : A) (l : list A) (d d' : A) :
  last (x :: l) d = last (x :: l) d'.
Proof.
  revert x. induction l as [| y l IH]; intros x; [reflexivity |].
  change (last (y :: l) d = last (y :: l) d'). apply IH.
Qed.

Lemma validateFrom_app (previousBlock : Block) (l1 l2 : list Block) :
  validateFrom previousBlock (l1 ++ l2)%list
  = validateFrom previousBlock l1 && validateFrom (last l1 previousBlock) l2.
Proof.
  revert previousBlock. induction l1 as [| b rest IH]; intros previousBlock.
  - reflexivity.
  - cbn [app validateFrom].
    destruct (negb (previousHash b =? blockHash previousBlock)%string); [reflexivity |].
    destruct (negb (calculateBlockHash b =? blockHash b)%string); [reflexivity |].
    rewrite IH. destruct rest as [| b0 rest]; [reflexivity |].
    change (last (b :: b0 :: rest) previousBlock) with (last (b0 :: rest) previousBlock).
    now rewrite (last_nonempty b0 rest b previousBlock).
Qed.

Lemma validateFrom_tail (previousBlock b : Block) (rest : list Block) :
  validateFrom previousBlock (b :: rest) = true -> validateFrom b rest = true.
Proof. intros H. now apply validateFrom_step in H. Qed.

(** X3.  A chain with one more block at its end is valid exactly when the chain
    was valid and the new block, if it is not the first, names the hash of
    the last block and stores its own computed hash; and every stretch of
    consecutive blocks of a valid chain is a valid chain. *)
Theorem validateChain_extension (chain : list Block) (newBlock : Block) :
  (validateChain (chain ++ [newBlock])%list = true
   <-> validateChain chain = true
       /\ (forall lastBlock,
             nth_error chain (List.length chain - 1) = Some lastBlock ->
             previousHash newBlock = blockHash lastBlock
             /\ calculateBlockHash newBlock = blockHash newBlock))
  /\ (forall before middle after,
        chain = (before ++ middle ++ after)%list ->
        validateChain chain = true -> validateChain middle = true).
Proof.
  split.
  - destruct chain as [| first rest]; cbn [app validateChain].
    + split; [| reflexivity]. intros _. split; [reflexivity |]. intros b Hb. discriminate.
    + rewrite validateFrom_app, andb_true_iff.
      assert (Hlast : nth_error (first :: rest) (List.length (first :: rest) - 1)
                      = Some (last rest first)).
      { clear. revert first. induction rest as [| b rest IH]; intros first; [reflexivity |].
        cbn [List.length]. replace (S (S (List.length rest)) - 1)%nat
          with (S (List.length (b :: rest) - 1)) by (cbn [List.length]; lia).
        cbn [nth_error]. rewrite IH. destruct rest as [| b0 rest]; [reflexivity |].
        change (last (b :: b0 :: rest) first) with (last (b0 :: rest) first).
        now rewrite (last_nonempty b0 rest b first). }
      rewrite Hlast.
      change (validateFrom (last rest first) [newBlock] = true)
        with (validateFrom (last rest first) (newBlock :: []) = true).
      rewrite validateFrom_step. unfold linkOk. split.
      * intros [Hv [Hlink _]]. split; [exact Hv |]. intros b Hb. now injection Hb as <-.
      * intros [Hv Hlink]. split; [exact Hv |]. split; [now apply Hlink | reflexivity].
  - intros before middle after -> Hvalid.
    assert (Hsuffix : forall l1 l2, validateChain (l1 ++ l2)%list = true ->
                                    validateChain l2 = true).
    { clear. intros l1. induction l1 as [| b l1 IH]; intros l2 H; [exact H |].
      apply IH. destruct l1 as [| b' l1].
      - destruct l2 as [| c l2]; [reflexivity |]. cbn [app validateChain] in *.
        now apply validateFrom_tail in H.
      - cbn [app validateChain] in *. now apply validateFrom_tail in H. }
    apply Hsuffix in Hvalid.
    destruct middle as [| first rest]; [reflexivity |].
    cbn [app validateChain] in *. rewrite validateFrom_app in Hvalid.
    now apply andb_true_iff in Hvalid.
Qed.

(** *** What validation does not look at *)

(** Two blocks that agree on everything the hash covers and on the stored
    hash. *)
Definition sameSealedFields (b b' : Block) : Prop :=
  blockNumber b' = blockNumber b
  /\ previousHash b' = previousHash b
  /\ blockTimestamp b' = blockTimestamp b
  /\ threatRecords b' = threatRecords b
  /\ nonce b' = nonce b
  /\ blockHash b' = blockHash b.

Lemma calculateBlockHash_sealed (b b' : Block) :
  sameSealedFields b b' -> calculateBlockHash b' = calculateBlockHash b.
Proof.
  intros [Hn [Hp [Ht [Hr [Hc _]]]]]. unfold calculateBlockHash, blockData.
  now rewrite Hn, Hp, Ht, Hr, Hc.
Qed.

Lemma validateFrom_sealed (rest rest' : list Block) :
  Forall2 sameSealedFields rest rest' ->
  forall previousBlock previousBlock',
    blockHash previousBlock' = blockHash previousBlock ->
    validateFrom previousBlock' rest' = validateFrom previousBlock rest.
Proof.
  induction 1 as [| b b' rest rest' Hb _ IH]; intros p p' Hp; [reflexivity |].
  cbn [validateFrom]. rewrite (calculateBlockHash_sealed b b' Hb), Hp.
  destruct Hb as [_ [Hprev [_ [_ [_ Hhash]]]]]. rewrite Hprev, Hhash.
  destruct (negb (previousHash b =? blockHash p)%string); [reflexivity |].
  destruct (negb (calculateBlockHash b =? blockHash b)%string); [reflexivity |].
  apply IH. exact Hhash.
Qed.

(** X4.  [validateChain] does not look at the miner or the Merkle root of any
    block, nor at anything of the first block but its stored hash: a chain
    whose first block is replaced by any block with the same [blockHash],
    and whose other blocks are changed in [minerId] and [merkleRoot] only,
    gets the same verdict. *)
Theorem validateChain_blind_spots
  (first first' : Block) (rest rest' : list Block)
  (Hfirst : blockHash first' = blockHash first)
  (Hrest : Forall2 sameSealedFields rest rest') :
  validateChain (first' :: rest') = validateChain (first :: rest).
Proof. apply validateFrom_sealed; assumption. Qed.

Definition forgedGenesis : Block :=
  {| blockNumber := 99; blockHash := "g0"; previousHash := "anything";
     blockTimestamp := 0;
     threatRecords :=
       [ {| id := "threat_0_forged"; threatType := "malware"; severity := "low";
            sourceIp := "0.0.0.0"; targetIp := "0.0.0.0"; timestamp := 0;
            signature := ""; metadata := [] |} ];
     minerId := "node_x"; nonce := 1; merkleRoot := "" |}.

Definition secondOtherMiner : Block :=
  {| blockNumber := 1; blockHash := "-7669dcac"; previousHash := "g0";
     blockTimestamp := 1700000030000; threatRecords := []; minerId := "node_evil";
     nonce := 7; merkleRoot := "0000" |}.

Lemma validateChain_blind_spots_witness :
  validateChain [forgedGenesis; secondOtherMiner] = validateChain [genesis; second].
Proof.
  apply validateChain_blind_spots; [reflexivity |].
  repeat constructor.
Defined.

(** *** Merging twice *)

(** X5.  Merging the same network chain a second time changes nothing, and a
    local chain that [validateChain] accepts is still accepted after any
    merge. *)
Theorem mergeChains_idempotent_and_valid (s : Service) (networkBlocks : list Block) :
  mergeChains (mergeChains s networkBlocks) networkBlocks = mergeChains s networkBlocks
  /\ (validateChain (localChain s) = true ->
      validateChain (localChain (mergeChains s networkBlocks)) = true).
Proof.
  rewrite !mergeChains_cases.
  destruct ((List.length (localChain s) <? List.length networkBlocks)%nat
            && validateChain networkBlocks) eqn:Hreplace.
  - apply andb_true_iff in Hreplace as [_ Hvalid]. cbn [localChain].
    rewrite Nat.ltb_irrefl. split; [reflexivity | intros _; exact Hvalid].
  - rewrite Hreplace. split; [reflexivity | tauto].
Qed.

(** *** submitPendingRecords, whatever the identifiers *)

Lemma submitLoop_filters (submitOk : nat -> bool) (todo : list ThreatRecord) :
  forall k pending,
    exists keep : ThreatRecord -> bool,
      submitLoop submitOk k todo pending = filter keep pending
      /\ ((forall j, submitOk (k + j)%nat = false) -> forall r, keep r = true)
      /\ ((forall j, submitOk (k + j)%nat = true) ->
          forall r, In r todo -> keep r = false).
Proof.
  induction todo as [| record rest IH]; intros k pending; cbn [submitLoop].
  - exists (fun _ => true). repeat split.
    + clear. induction pending as [| x l IHl]; simpl; [reflexivity | now rewrite <- IHl].
    + intros _ r [].
  - destruct (submitOk k) eqn:Hk.
    + destruct (IH (S k) (filter (fun r => negb (id r =? id record)%string) pending))
        as [keep [Heq [Hfail Hok]]].
      exists (fun r => negb (id r =? id record)%string && keep r). repeat split.
      * rewrite Heq. clear. induction pending as [| x l IHl]; simpl; [reflexivity |].
        destruct (negb (id x =? id record)%string); simpl;
          [destruct (keep x); now rewrite IHl | exact IHl].
      * intros Hall. specialize (Hall 0%nat). rewrite Nat.add_0_r in Hall. congruence.
      * intros Hall r [<- | Hin].
        -- now rewrite String.eqb_refl.
        -- rewrite Hok; [apply andb_false_r | | exact Hin].
           intros j. replace (S k + j)%nat with (k + S j)%nat by lia. apply Hall.
    + destruct (IH (S k) pending) as [keep [Heq [Hfail Hok]]].
      exists keep. repeat split; [exact Heq | |].
      * intros Hall. apply Hfail. intros j.
        replace (S k + j)%nat with (k + S j)%nat by lia. apply Hall.
      * intros Hall. specialize (Hall 0%nat). rewrite Nat.add_0_r in Hall. congruence.
Qed.

(** X6.  Whatever the identifiers of the pending records: [submitPendingRecords]
    only takes records out of the pending list, it adds none and keeps the
    others in their order; when every submission resolves the list ends
    empty, and when every submission throws the list is as before. *)
Theorem submitPendingRecords_only_removes (submitOk : nat -> bool) (s : Service) :
  let pending' := pendingThreatRecords (submitPendingRecords submitOk s) in
  (exists keep, pending' = filter keep (pendingThreatRecords s))
  /\ ((forall k, submitOk k = false) -> pending' = pendingThreatRecords s)
  /\ (isConnected s = true -> (forall k, submitOk k = true) -> pending' = []).
Proof.
  cbv zeta. unfold submitPendingRecords.
  destruct (negb (isConnected s) || (List.length (pendingThreatRecords s) =? 0)%nat)
    eqn:Hskip.
  - repeat split.
    + exists (fun _ => true). generalize (pendingThreatRecords s). clear.
      induction l as [| x l IHl]; simpl; [reflexivity | now rewrite <- IHl].
    + intros Hc _. rewrite Hc in Hskip. simpl in Hskip.
      apply Nat.eqb_eq in Hskip. now apply length_zero_iff_nil in Hskip.
  - cbn [pendingThreatRecords].
    destruct (submitLoop_filters submitOk (pendingThreatRecords s) 0
                (pendingThreatRecords s)) as [keep [Heq [Hfail Hok]]].
    rewrite Heq. repeat split.
    + now exists keep.
    + intros Hall. clear Heq Hok. specialize (Hfail (fun j => Hall (0 + j)%nat)).
      generalize (pendingThreatRecords s). intros l.
      induction l as [| x l IHl]; simpl; [reflexivity |]. now rewrite Hfail, IHl.
    + intros _ Hall. specialize (Hok (fun j => Hall (0 + j)%nat)). clear Heq Hfail.
      revert Hok. generalize (pendingThreatRecords s). intros l Hok.
      induction l as [| x l IHl]; simpl; [reflexivity |].
      rewrite (Hok x (or_introl eq_refl)). apply IHl. intros r Hr. apply Hok. now right.
Qed.

(** *** The size of a block hash *)

Lemma hashStep_range (hash char : Z) : - 2 ^ 31 <= hashStep hash char < 2 ^ 31.
Proof. unfold hashStep, JS.band. apply toInt32_range. Qed.

Lemma hashLoop_range (codes : list Z) :
  forall hash, - 2 ^ 31 <= hash < 2 ^ 31 ->
               - 2 ^ 31 <= fold_left hashStep codes hash < 2 ^ 31.
Proof.
  induction codes as [| c codes IH]; intros hash Hh; [exact Hh |].
  apply IH, hashStep_range.
Qed.

Lemma hexDigits_length (k : nat) :
  forall fuel n acc,
    0 <= n < 16 ^ Z.of_nat (S k) ->
    (String.length (JS.hexDigits fuel n acc) <= String.length acc + S k)%nat.
Proof.
  induction k as [| k IH]; intros fuel n acc Hn;
    (destruct fuel as [| fuel]; cbn [JS.hexDigits]; [lia |]);
    destruct (Z.eqb_spec (n / 16) 0) as [Hz | Hnz]; cbn [String.length]; try lia.
  - exfalso. apply Hnz. apply Z.div_small. simpl in Hn. lia.
  - etransitivity; [apply IH |]; cbn [String.length]; [| lia].
    rewrite Nat2Z.inj_succ, Z.pow_succ_r in Hn by lia.
    split; [apply Z.div_pos; lia | apply Z.div_lt_upper_bound; lia].
Qed.

(** X7.  The hash of a block is the base-16 text of a signed 32-bit integer:
    whatever the block holds, [calculateBlockHash] answers the text of a
    number from -2^31 to 2^31 - 1, at most nine characters long (a sign and
    eight digits). *)
Theorem calculateBlockHash_is_32_bit (block : Block) :
  exists hash : Z,
    - 2 ^ 31 <= hash < 2 ^ 31
    /\ calculateBlockHash block = JS.toString16 hash
    /\ (String.length (calculateBlockHash block) <= 9)%nat.
Proof.
  unfold calculateBlockHash.
  set (codes := JS.charCodes (JS.stringify (blockData block))).
  assert (Hrange : - 2 ^ 31 <= fold_left hashStep codes 0 < 2 ^ 31)
    by (apply hashLoop_range; lia).
  exists (fold_left hashStep codes 0). repeat split; try apply Hrange.
  generalize dependent (fold_left hashStep codes 0). intros h Hh.
  unfold JS.toString16.
  assert (Hdigits : (String.length
                       (JS.hexDigits (S (Z.to_nat (Z.log2 (Z.abs h)))) (Z.abs h) "")
                     <= 8)%nat).
  { destruct (Z.eq_dec h (- 2 ^ 31)) as [-> | Hne]; [vm_compute; lia |].
    apply (hexDigits_length 7). change (16 ^ Z.of_nat 8) with (2 ^ 32). lia. }
  destruct (h <? 0); cbn [String.length]; lia.
Qed.

End BlockchainQueries.

(** *** Looking up blocks and records *)

Section BlockchainLookups.
Import Blockchain.

Lemma find_some_id {A : Type} (key : A -> string) (wanted : string) (l : list A) (x : A) :
  In x l -> key x = wanted ->
  exists y, find (fun z => (key z =? wanted)%string) l = Some y
            /\ key y = wanted /\ In y l.
Proof.
  intros Hin Hkey. destruct (find (fun z => (key z =? wanted)%string) l) as [y |] eqn:Hfind.
  - apply find_some in Hfind as [Hy Heq]. apply String.eqb_eq in Heq. now exists y.
  - exfalso. apply (find_none _ _ Hfind) in Hin. rewrite Hkey, String.eqb_refl in Hin.
    discriminate.
Qed.

Lemma findInChain_some (threatId : string) (chain : list Block) (record : ThreatRecord) :
  findInChain threatId chain = Some record ->
  id record = threatId /\ exists block, In block chain /\ In record (threatRecords block).
Proof.
  induction chain as [| block rest IH]; cbn [findInChain]; [discriminate |].
  destruct (find (fun r => (id r =? threatId)%string) (threatRecords block)) as [r |] eqn:Hfind.
  - intros Heq. injection Heq as ->. apply find_some in Hfind as [Hin Hid].
    apply String.eqb_eq in Hid. split; [exact Hid |]. exists block. split; [now left | exact Hin].
  - intros Hrest. destruct (IH Hrest) as [Hid [b [Hb Hin]]].
    split; [exact Hid |]. exists b. split; [now right | exact Hin].
Qed.

Lemma findInChain_finds (chain : list Block) (block : Block) (record : ThreatRecord) :
  In block chain -> In record (threatRecords block) ->
  exists found, findInChain (id record) chain = Some found.
Proof.
  induction chain as [| b rest IH]; intros Hblock Hrecord; [destruct Hblock |].
  cbn [findInChain].
  destruct (find (fun r => (id r =? id record)%string) (threatRecords b)) as [r |] eqn:Hfind;
    [now exists r |].
  destruct Hblock as [-> | Hblock]; [| now apply IH].
  exfalso. apply (find_none _ _ Hfind) in Hrecord. rewrite String.eqb_refl in Hrecord.
  discriminate.
Qed.

(** X29.  What is stored locally is found by its key, connected or not and
    whatever the network answers: [getBlockByHash] on the hash of a block of
    the local chain answers a block of the chain with that hash, and
    [getThreatRecord] on the identifier of a pending record or of a record
    in a block of the chain answers a stored record with that identifier
    (a pending one first).  Off line, whatever either answers is stored
    locally under the key asked for. *)
Theorem local_lookups_find_what_is_stored
  (networkBlock : option (option Block)) (networkRecord : option (option ThreatRecord))
  (s : Service) :
  (forall block, In block (localChain s) ->
     exists found,
       getBlockByHash (blockHash block) networkBlock s = Some found
       /\ blockHash found = blockHash block /\ In found (localChain s))
  /\ (forall record,
        In record (pendingThreatRecords s)
        \/ (exists block, In block (localChain s) /\ In record (threatRecords block)) ->
        exists found,
          getThreatRecord (id record) networkRecord s = Some found
          /\ id found = id record
          /\ (In found (pendingThreatRecords s)
              \/ exists block, In block (localChain s) /\ In found (threatRecords block)))
  /\ (forall hash found,
        isConnected s = false ->
        getBlockByHash hash networkBlock s = Some found ->
        blockHash found = hash /\ In found (localChain s))
  /\ (forall threatId found,
        isConnected s = false ->
        getThreatRecord threatId networkRecord s = Some found ->
        id found = threatId
        /\ (In found (pendingThreatRecords s)
            \/ exists block, In block (localChain s) /\ In found (threatRecords block))).
Proof.
  split; [| split; [| split]].
  - intros block Hin. unfold getBlockByHash.
    destruct (find_some_id blockHash (blockHash block) (localChain s) block Hin eq_refl)
      as [found [Hfind [Hhash Hfound]]].
    rewrite Hfind. now exists found.
  - intros record Hstored. unfold getThreatRecord.
    destruct (find (fun r => (id r =? id record)%string) (pendingThreatRecords s))
      as [pendingRecord |] eqn:Hpending.
    + apply find_some in Hpending as [Hin Hid]. apply String.eqb_eq in Hid.
      exists pendingRecord. repeat split; [exact Hid | now left].
    + destruct Hstored as [Hin | [block [Hblock Hin]]].
      * exfalso. apply (find_none _ _ Hpending) in Hin. rewrite String.eqb_refl in Hin.
        discriminate.
      * destruct (findInChain_finds _ _ _ Hblock Hin) as [found Hfound].
        rewrite Hfound. exists found. destruct (findInChain_some _ _ _ Hfound) as [Hid Hwhere].
        repeat split; [exact Hid | now right].
  - intros hash found Hoffline. unfold getBlockByHash. rewrite Hoffline.
    destruct (find (fun block => (blockHash block =? hash)%string) (localChain s))
      as [localBlock |] eqn:Hfind; [| discriminate].
    intros Heq. injection Heq as <-. apply find_some in Hfind as [Hin Hhash].
    apply String.eqb_eq in Hhash. now split.
  - intros threatId found Hoffline. unfold getThreatRecord. rewrite Hoffline.
    destruct (find (fun r => (id r =? threatId)%string) (pendingThreatRecords s))
      as [pendingRecord |] eqn:Hpending.
    + intros Heq. injection Heq as <-. apply find_some in Hpending as [Hin Hid].
      apply String.eqb_eq in Hid. split; [exact Hid | now left].
    + destruct (findInChain threatId (localChain s)) as [record |] eqn:Hchain;
        [| discriminate].
      intros Heq. injection Heq as <-. destruct (findInChain_some _ _ _ Hchain) as [Hid Hwhere].
      split; [exact Hid | now right].
Qed.

End BlockchainLookups.


(** ** GamificationService: scores and lists of achievements *)

Section GamificationMore.
Import Gamification.

(** X8.  For names that are not properties of [Object.prototype],
    [calculateThreatPoints] answers a whole number from 10 to 140: never
    NaN, never less than the smallest base. *)
Theorem calculateThreatPoints_whole_in_range (threatType severity : string)
  (Htype : ~ In threatType objectPrototype)
  (Hseverity : ~ In severity objectPrototype) :
  exists n : Z,
    10 <= n <= 140
    /\ calculateThreatPoints threatType severity = PrimFloat.of_uint63 (Uint63.of_Z n).
Proof.
  rewrite calculateThreatPoints_as_described by assumption.
  unfold threatPointsAsDescribed, basePointsAsDescribed, typeMultiplierAsDescribed.
  repeat match goal with
         | |- context [(?a =? ?b)%string] => destruct (a =? b)%string
         end;
    first [ exists 10; split; [lia | vm_compute; reflexivity]
          | exists 11; split; [lia | vm_compute; reflexivity]
          | exists 12; split; [lia | vm_compute; reflexivity]
          | exists 13; split; [lia | vm_compute; reflexivity]
          | exists 14; split; [lia | vm_compute; reflexivity]
          | exists 25; split; [lia | vm_compute; reflexivity]
          | exists 28; split; [lia | vm_compute; reflexivity]
          | exists 30; split; [lia | vm_compute; reflexivity]
          | exists 33; split; [lia | vm_compute; reflexivity]
          | exists 35; split; [lia | vm_compute; reflexivity]
          | exists 50; split; [lia | vm_compute; reflexivity]
          | exists 55; split; [lia | vm_compute; reflexivity]
          | exists 60; split; [lia | vm_compute; reflexivity]
          | exists 65; split; [lia | vm_compute; reflexivity]
          | exists 70; split; [lia | vm_compute; reflexivity]
          | exists 100; split; [lia | vm_compute; reflexivity]
          | exists 110; split; [lia | vm_compute; reflexivity]
          | exists 120; split; [lia | vm_compute; reflexivity]
          | exists 130; split; [lia | vm_compute; reflexivity]
          | exists 140; split; [lia | vm_compute; reflexivity] ].
Qed.

Lemma calculateThreatPoints_whole_in_range_witness :
  exists n : Z,
    10 <= n <= 140
    /\ calculateThreatPoints "ransomware" "critical" = PrimFloat.of_uint63 (Uint63.of_Z n).
Proof.
  apply calculateThreatPoints_whole_in_range;
    simpl; intros H; repeat (destruct H as [H | H]; [discriminate |]); exact H.
Defined.

(** The identifiers of the player's achievements. *)
Definition achievementIds (s : Service) : list string :=
  match playerStats s with
  | Some stats => map id (achievements stats)
  | None => []
  end.

Definition playerAchievements (s : Service) : list Achievement :=
  match playerStats s with
  | Some stats => achievements stats
  | None => []
  end.

Lemma unlockAchievement_step (s : Service) (achievement : Achievement) :
  NoDup (achievementIds s) ->
  NoDup (achievementIds (unlockAchievement s achievement))
  /\ (exists added,
        playerAchievements (unlockAchievement s achievement)
        = (playerAchievements s ++ added)%list
        /\ (forall a, In a added -> a = achievement))
  /\ (playerStats s = None -> playerStats (unlockAchievement s achievement) = None)
  /\ (playerStats s <> None ->
      In (id achievement) (achievementIds (unlockAchievement s achievement))).
Proof.
  intros Hnodup. unfold unlockAchievement, achievementIds, playerAchievements in *.
  destruct (playerStats s) as [stats |] eqn:Hs.
  - destruct (existsb (fun a => (id a =? id achievement)%string) (achievements stats))
      eqn:Hhas.
    + rewrite Hs. repeat split.
      * exact Hnodup.
      * exists []. rewrite app_nil_r. split; [reflexivity | intros a []].
      * discriminate.
      * intros _. apply existsb_exists in Hhas as [a [Hin Ha]].
        apply String.eqb_eq in Ha. rewrite <- Ha. now apply in_map.
    + cbn [playerStats achievements]. repeat split.
      * rewrite map_app. cbn [map].
        apply NoDup_app; [exact Hnodup | repeat constructor; intros [] |].
        intros x Hx [<- | []].
        apply in_map_iff in Hx as [a [Ha Hin]].
        assert (Hex : existsb (fun a => (id a =? id achievement)%string)
                        (achievements stats) = true).
        { apply existsb_exists. exists a. split; [exact Hin | now apply String.eqb_eq]. }
        congruence.
      * exists [achievement]. split; [reflexivity |]. intros a [<- | []]. reflexivity.
      * discriminate.
      * intros _. rewrite map_app. apply in_or_app. right. now left.
  - rewrite Hs. repeat split; try assumption.
    + exists []. split; [reflexivity | intros a []].
    + intros H. now contradiction H.
Qed.

(** X9.  However many achievements are unlocked one after the other, and
    whichever repeat: when the identifiers of the player's achievements were
    all different they still are; the achievements held before keep their
    places at the head of the list, and what follows them comes from the
    unlocked ones; every unlocked identifier is in the list afterwards when
    there is a player. *)
Theorem unlockAchievement_keeps_ids_distinct (s : Service) (queue : list Achievement)
  (Hdistinct : NoDup (achievementIds s)) :
  let s' := fold_left unlockAchievement queue s in
  NoDup (achievementIds s')
  /\ (exists added,
        playerAchievements s' = (playerAchievements s ++ added)%list
        /\ (forall a, In a added -> In a queue))
  /\ (playerStats s <> None ->
      forall a, In a queue -> In (id a) (achievementIds s')).
Proof.
  cbv zeta. revert s Hdistinct.
  induction queue as [| achievement rest IH]; intros s Hdistinct; cbn [fold_left].
  - repeat split; [exact Hdistinct | | intros _ a []].
    exists []. rewrite app_nil_r. split; [reflexivity | intros a []].
  - destruct (unlockAchievement_step s achievement Hdistinct)
      as [Hnodup [[added1 [Happ1 Hfrom1]] [Hnone Hin1]]].
    destruct (IH _ Hnodup) as [Hnodup' [[added [Happ Hfrom]] Hall]].
    repeat split.
    + exact Hnodup'.
    + exists (added1 ++ added)%list. split.
      * now rewrite Happ, Happ1, app_assoc.
      * intros a Ha. apply in_app_or in Ha as [Ha | Ha];
          [left; symmetry; now apply Hfrom1 | right; now apply Hfrom].
    + intros Hplayer a [<- | Ha].
      * specialize (Hin1 Hplayer).
        unfold achievementIds, playerAchievements in *.
        destruct (playerStats (fold_left unlockAchievement rest
                                 (unlockAchievement s achievement))) as [stats' |].
        -- destruct (playerStats (unlockAchievement s achievement)) as [stats1 |];
             [| destruct Hin1].
           rewrite Happ, map_app. apply in_or_app. now left.
        -- destruct (playerStats (unlockAchievement s achievement)) as [stats1 |];
             [| destruct Hin1].
           apply in_map_iff in Hin1 as [a0 [_ Hin0]].
           assert (Hnil : (achievements stats1 ++ added)%list = []) by now rewrite <- Happ.
           apply app_eq_nil in Hnil as [Hnil _]. rewrite Hnil in Hin0. destruct Hin0.
      * apply Hall; [| exact Ha].
        intros Hnone'. apply Hplayer.
        destruct (playerStats s) eqn:Hs; [| reflexivity].
        unfold unlockAchievement in Hnone'. rewrite Hs in Hnone'.
        destruct (existsb _ (achievements p)); [congruence | discriminate].
Qed.

Definition firstThreat : Achievement :=
  {| id := "first_threat"; name := "First Blood";
     description := "Detected your first threat"; icon := "shield-check";
     unlockedAt := 1700000000000; rarity := common; points := 50 |}.

Definition threatHunter : Achievement :=
  {| id := "threat_hunter"; name := "Threat Hunter"; description := "Detected 10 threats";
     icon := "crosshairs"; unlockedAt := 1700000100000; rarity := rare; points := 200 |}.

Definition newPlayer : Service :=
  {| playerStats :=
       Some {| playerId := "player_1"; level := 1; totalPoints := 0; threatsDetected := 0;
               honeypotsTriggered := 0; currentLeague := "Bronze"; achievements := [];
               nftBadges := [] |};
     serviceAchievements := []; leaderboard := None |}.

Definition unlockedTwice : Service :=
  fold_left unlockAchievement [firstThreat; threatHunter; firstThreat] newPlayer.

Lemma unlockAchievement_keeps_ids_distinct_witness :
  NoDup (achievementIds unlockedTwice)
  /\ (exists added,
        playerAchievements unlockedTwice = (playerAchievements newPlayer ++ added)%list
        /\ (forall a, In a added -> In a [firstThreat; threatHunter; firstThreat]))
  /\ (playerStats newPlayer <> None ->
      forall a, In a [firstThreat; threatHunter; firstThreat] ->
                In (id a) (achievementIds unlockedTwice)).
Proof.
  apply (unlockAchievement_keeps_ids_distinct newPlayer
           [firstThreat; threatHunter; firstThreat]).
  simpl. constructor.
Defined.

End GamificationMore.

(** ** HoneyNetService: honeypots fire once, the log keeps the last hundred *)

Section HoneyNetMore.
Import HoneyNet.

(** The honeypots that can still be triggered: the array
    [this.honeypots.filter(h => !h.triggered)] of [triggerRandomHoneypot]
    and of [getStatistics]. *)
Definition armed (l : list MobileHoneypot) : list MobileHoneypot :=
  filter (fun h => negb (triggered h)) l.

(** A honeypot whose counter agrees with its flag. *)
Definition oneShot (h : MobileHoneypot) : Prop :=
  triggerCount h = if triggered h then 1 else 0.

Lemma armed_triggerActive (l : list MobileHoneypot) :
  forall pick,
    (pick < List.length (armed l))%nat ->
    S (List.length (armed (triggerActive pick l))) = List.length (armed l).
Proof.
  unfold armed. induction l as [| x rest IH]; intros pick Hpick; simpl in *; [lia |].
  destruct (triggered x) eqn:Hx; simpl in *.
  - rewrite Hx. simpl. now apply IH.
  - destruct pick as [| pick]; simpl.
    + reflexivity.
    + rewrite Hx. simpl. f_equal. apply IH. lia.
Qed.

Lemma triggerActive_picks (l : list MobileHoneypot) :
  forall pick h,
    nth_error (armed l) pick = Some h ->
    exists i,
      nth_error l i = Some h
      /\ nth_error (triggerActive pick l) i = Some (trigger h)
      /\ forall j, j <> i -> nth_error (triggerActive pick l) j = nth_error l j.
Proof.
  induction l as [| x rest IH]; intros pick h Hh; cbn [armed filter] in Hh;
    [destruct pick; discriminate |].
  cbn [triggerActive]. destruct (triggered x) eqn:Hx; cbn [negb] in Hh.
  - destruct (IH pick h Hh) as [i [Hi [Hi' Hother]]].
    exists (S i). repeat split; try assumption.
    intros [| j] Hj; [reflexivity |]. cbn [nth_error]. apply Hother. congruence.
  - destruct pick as [| pick]; cbn [nth_error] in Hh.
    + injection Hh as <-. exists 0%nat. repeat split.
      intros [| j] Hj; [congruence | reflexivity].
    + destruct (IH pick h Hh) as [i [Hi [Hi' Hother]]].
      exists (S i). repeat split; try assumption.
      intros [| j] Hj; [reflexivity |]. cbn [nth_error]. apply Hother. congruence.
Qed.

Lemma triggerActive_oneShot (l : list MobileHoneypot) :
  forall pick, Forall oneShot l -> Forall oneShot (triggerActive pick l).
Proof.
  induction l as [| x rest IH]; intros pick Hl; [constructor |].
  inversion Hl as [| ? ? Hx Hrest]; subst. cbn [triggerActive].
  destruct (triggered x) eqn:Htx.
  - constructor; [exact Hx | now apply IH].
  - destruct pick as [| pick].
    + constructor; [| exact Hrest]. unfold oneShot in *. rewrite Htx in Hx.
      cbn [trigger triggerCount triggered]. lia.
    + constructor; [exact Hx | now apply IH].
Qed.

Lemma triggerRandomHoneypot_cases (pick : nat) (s : Service) :
  triggerRandomHoneypot pick s
  = if (pick <? List.length (armed (honeypots s)))%nat
    then withHoneypots s (triggerActive pick (honeypots s))
    else s.
Proof.
  unfold triggerRandomHoneypot. fold (armed (honeypots s)).
  destruct (Nat.ltb_spec 0 (List.length (armed (honeypots s))));
    destruct (Nat.ltb_spec pick (List.length (armed (honeypots s)))); try reflexivity; lia.
Qed.

Lemma triggerActive_length (l : list MobileHoneypot) :
  forall pick, List.length (triggerActive pick l) = List.length l.
Proof.
  induction l as [| x rest IH]; intros pick; [reflexivity |].
  cbn [triggerActive]. destruct (triggered x); [cbn [List.length]; now rewrite IH |].
  destruct pick; cbn [List.length]; [reflexivity | now rewrite IH].
Qed.

(** X10.  [triggerRandomHoneypot] fires one armed honeypot and only that one:
    the honeypot drawn among the armed ones is marked triggered with its
    count one higher, where it stands, every other honeypot is as before,
    and one honeypot fewer is armed.  When no honeypot is armed the service
    is left as it is.  No honeypot is armed again, and a honeypot whose
    count agreed with its flag (1 when triggered, else 0) still has it so:
    the count of such a honeypot never goes beyond 1. *)
Theorem triggerRandomHoneypot_fires_one (pick : nat) (s : Service) :
  let s' := triggerRandomHoneypot pick s in
  (forall h,
      nth_error (armed (honeypots s)) pick = Some h ->
      S (List.length (armed (honeypots s'))) = List.length (armed (honeypots s))
      /\ exists i,
           nth_error (honeypots s) i = Some h
           /\ nth_error (honeypots s') i = Some (trigger h)
           /\ forall j, j <> i -> nth_error (honeypots s') j = nth_error (honeypots s) j)
  /\ (nth_error (armed (honeypots s)) pick = None -> s' = s)
  /\ (armed (honeypots s) = [] -> s' = s)
  /\ (Forall oneShot (honeypots s) -> Forall oneShot (honeypots s'))
  /\ isInitialized s' = isInitialized s
  /\ isProtectionActive s' = isProtectionActive s
  /\ statistics s' = statistics s.
Proof.
  cbv zeta. unfold triggerRandomHoneypot. fold (armed (honeypots s)).
  repeat split.
  - assert (Hlt : (pick < List.length (armed (honeypots s)))%nat)
      by (apply nth_error_Some; congruence).
    destruct (Nat.ltb_spec 0 (List.length (armed (honeypots s)))); [| lia].
    destruct (Nat.ltb_spec pick (List.length (armed (honeypots s)))); [| lia].
    cbn [withHoneypots honeypots]. now apply armed_triggerActive.
  - assert (Hlt : (pick < List.length (armed (honeypots s)))%nat)
      by (apply nth_error_Some; congruence).
    destruct (Nat.ltb_spec 0 (List.length (armed (honeypots s)))); [| lia].
    destruct (Nat.ltb_spec pick (List.length (armed (honeypots s)))); [| lia].
    cbn [withHoneypots honeypots]. now apply triggerActive_picks.
  - intros Hnone. apply nth_error_None in Hnone.
    destruct (0 <? _)%nat; [| reflexivity].
    destruct (Nat.ltb_spec pick (List.length (armed (honeypots s)))); [lia | reflexivity].
  - intros ->. reflexivity.
  - intros Hall. destruct (0 <? _)%nat; [| exact Hall].
    destruct (pick <? _)%nat; [| exact Hall].
    cbn [withHoneypots honeypots]. now apply triggerActive_oneShot.
  - destruct (0 <? _)%nat; [| reflexivity]. destruct (pick <? _)%nat; reflexivity.
  - destruct (0 <? _)%nat; [| reflexivity]. destruct (pick <? _)%nat; reflexivity.
  - destruct (0 <? _)%nat; [| reflexivity]. destruct (pick <? _)%nat; reflexivity.
Qed.

(** *** Simulated attacks, one after the other *)

(** What the outside world gives one call of [simulateAttack]: the clock,
    the answers of the storage, the honeypot drawn. *)
Record Attack : Type := {
  attackNow : Z;
  attackStorage : StorageOutcome;
  attackPick : nat
}.

Definition simulateAttacks (attacks : list Attack) (s : Service) (stored : ThreatLog)
  : Service * ThreatLog :=
  fold_left
    (fun state attack =>
       simulateAttack (attackNow attack) (attackStorage attack) (attackPick attack)
                      (fst state) (snd state))
    attacks (s, stored).

Lemma simulateAttack_step (now : Z) (io : StorageOutcome) (pick : nat)
  (s : Service) (stored : ThreatLog) :
  let s' := fst (simulateAttack now io pick s stored) in
  threatsDetected (statistics s') = threatsDetected (statistics s) + 1
  /\ attacksBlocked (statistics s') = attacksBlocked (statistics s) + 1
  /\ honeypots s' = honeypots (triggerRandomHoneypot pick s).
Proof.
  cbv zeta. unfold simulateAttack. cbn [fst withStatistics statistics honeypots
    threatsDetected attacksBlocked].
  rewrite triggerRandomHoneypot_cases.
  destruct (_ <? _)%nat; repeat split.
Qed.

Lemma armed_after_trigger (pick : nat) (s : Service) :
  (List.length (armed (honeypots (triggerRandomHoneypot pick s)))
   <= List.length (armed (honeypots s))
   <= S (List.length (armed (honeypots (triggerRandomHoneypot pick s)))))%nat.
Proof.
  rewrite triggerRandomHoneypot_cases.
  destruct (Nat.ltb_spec pick (List.length (armed (honeypots s)))) as [Hlt | Hge]; [| lia].
  cbn [withHoneypots honeypots]. pose proof (armed_triggerActive _ _ Hlt). lia.
Qed.

(** X11.  After any number of simulated attacks, whatever the storage answers and
    whichever honeypots are drawn: [threatsDetected] and [attacksBlocked]
    are each higher by the number of attacks (an attack counts even when
    nothing could be logged and no honeypot was left to trigger), the
    number of armed honeypots has not risen and has fallen by at most one
    per attack, and honeypots whose count agreed with their flag still have
    it so. *)
Theorem simulateAttacks_counts (attacks : list Attack) (s : Service) (stored : ThreatLog) :
  let s' := fst (simulateAttacks attacks s stored) in
  let n := List.length attacks in
  threatsDetected (statistics s') = threatsDetected (statistics s) + Z.of_nat n
  /\ attacksBlocked (statistics s') = attacksBlocked (statistics s) + Z.of_nat n
  /\ (List.length (armed (honeypots s')) <= List.length (armed (honeypots s)))%nat
  /\ (List.length (armed (honeypots s)) <= List.length (armed (honeypots s')) + n)%nat
  /\ List.length (honeypots s') = List.length (honeypots s)
  /\ (Forall oneShot (honeypots s) -> Forall oneShot (honeypots s')).
Proof.
  cbv zeta. unfold simulateAttacks. revert s stored.
  induction attacks as [| attack rest IH]; intros s stored; cbn [fold_left List.length].
  - cbn [fst]. repeat split; try lia. tauto.
  - cbn [fst snd].
    destruct (simulateAttack (attackNow attack) (attackStorage attack) (attackPick attack)
                s stored) as [s1 stored1] eqn:Hstep.
    pose proof (simulateAttack_step (attackNow attack) (attackStorage attack)
                  (attackPick attack) s stored) as Hone.
    cbv zeta in Hone. rewrite Hstep in Hone. cbn [fst snd] in *.
    destruct Hone as [Hthreats [Hblocked Hhoneypots]].
    destruct (IH s1 stored1) as [IHt [IHb [IHle [IHge [IHlen IHone]]]]].
    pose proof (armed_after_trigger (attackPick attack) s) as Harmed.
    rewrite <- Hhoneypots in Harmed.
    rewrite IHt, IHb, Hthreats, Hblocked, Nat2Z.inj_succ.
    repeat split; try lia.
    + rewrite IHlen, Hhoneypots, triggerRandomHoneypot_cases.
      destruct (_ <? _)%nat; [| reflexivity].
      cbn [withHoneypots honeypots]. apply triggerActive_length.
    + intros Hall. apply IHone. rewrite Hhoneypots, triggerRandomHoneypot_cases.
      destruct (_ <? _)%nat; [| exact Hall].
      cbn [withHoneypots honeypots]. now apply triggerActive_oneShot.
Qed.

(** *** The threat log over many threats *)

Lemma skipn_after_head {A : Type} (head rest : list A) (k : nat) :
  skipn (List.length head + k) (head ++ rest) = skipn k rest.
Proof.
  rewrite skipn_app, skipn_all2 by lia. rewrite app_nil_l. f_equal. lia.
Qed.

Lemma skipn_skipn_app {A : Type} (n : nat) (l : list A) (x : A) :
  skipn (List.length (skipn (List.length l - n) l ++ [x]) - n)
        (skipn (List.length l - n) l ++ [x])
  = skipn (List.length (l ++ [x]) - n) (l ++ [x]).
Proof.
  pose proof (firstn_skipn (List.length l - n) l) as Hsplit.
  pose proof (length_firstn (List.length l - n) l) as Hhead.
  pose proof (length_skipn (List.length l - n) l) as Htail.
  remember (firstn (List.length l - n) l) as head eqn:Eh.
  remember (skipn (List.length l - n) l) as tail eqn:Et.
  clear Eh Et. subst l. rewrite length_app in *.
  rewrite <- app_assoc, !length_app. cbn [List.length].
  replace (List.length head + (List.length tail + 1) - n)%nat
    with (List.length head + (List.length tail + 1 - n))%nat by lia.
  now rewrite skipn_after_head.
Qed.

(** The last hundred of a list. *)
Definition lastHundred (l : list ThreatEvent) : list ThreatEvent :=
  skipn (List.length l - 100) l.

Lemma keepLast100_lastHundred (l : list ThreatEvent) : keepLast100 l = lastHundred l.
Proof.
  unfold keepLast100, lastHundred.
  destruct (Nat.ltb_spec 100 (List.length l)); [reflexivity |].
  now replace (List.length l - 100)%nat with 0%nat by lia.
Qed.

Definition workingStorage : StorageOutcome := {| getItemOk := true; setItemOk := true |}.

(** X12.  While the storage works, logging threats one after the other leaves in
    the log the last hundred of what was stored followed by the threats
    logged, in that order, however long the stored log was and however many
    threats are logged. *)
Theorem logThreat_keeps_last_hundred
  (stored : ThreatLog) (first : ThreatEvent) (others : list ThreatEvent) :
  fold_left (logThreat workingStorage) (first :: others) stored
  = Some (lastHundred
            ((match stored with Some l => l | None => [] end) ++ first :: others)%list)
  /\ (List.length
        (lastHundred
           ((match stored with Some l => l | None => [] end) ++ first :: others)%list)
      <= 100)%nat.
Proof.
  split.
  - set (log := match stored with Some l => l | None => [] end).
    cbn [fold_left]. rewrite logThreat_cases. cbn [workingStorage getItemOk setItemOk andb].
    fold log. rewrite keepLast100_lastHundred.
    replace (log ++ first :: others)%list with ((log ++ [first]) ++ others)%list
      by now rewrite <- app_assoc.
    generalize (log ++ [first])%list. clear. intros l. revert l.
    induction others as [| threat rest IH]; intros l; cbn [fold_left].
    + now rewrite app_nil_r.
    + rewrite logThreat_cases. cbn [workingStorage getItemOk setItemOk andb].
      rewrite keepLast100_lastHundred.
      unfold lastHundred at 1 2. rewrite skipn_skipn_app. fold (lastHundred (l ++ [threat])).
      rewrite IH. now rewrite <- app_assoc.
  - unfold lastHundred. rewrite length_skipn. lia.
Qed.

End HoneyNetMore.

(** ** QuantumService: analysis, status, queries *)

Section QuantumAnalysis.
Import Quantum.

Lemma above_weaker (low high : Q) (x : option Q) :
  (low <= high)%Q -> above high x = true -> above low x = true.
Proof.
  intros Hle. destruct x as [q |]; simpl; [| discriminate].
  rewrite !negb_true_iff. intros Hq.
  destruct (Qle_bool q low) eqn:Hlow; [| reflexivity].
  apply Qle_bool_iff in Hlow.
  assert (Hhigh : Qle_bool q high = true)
    by (apply Qle_bool_iff; now apply Qle_trans with low).
  congruence.
Qed.

(** X13.  What [detectQuantumIndicators] reports: an attack exactly when one of
    the three measurements is above its threshold; a confidence that is the
    sum of 0.3, 0.4 and 0.3 over the measurements above threshold, so
    between 0 and 1, zero exactly when no attack is reported and at least
    0.3 otherwise; and an attack type that depends on the quantum volume
    alone (Shor above 1000, Grover above 100, brute force otherwise), never
    one of the other two types. *)
Theorem detectQuantumIndicators_report (attackData : AttackData) :
  let indicators := detectQuantumIndicators attackData in
  let coherent := above 0 (ad_coherenceTime attackData) in
  let entangled' := above 0 (ad_entanglementDegree attackData) in
  let voluminous := above 1 (ad_quantumVolume attackData) in
  isQuantumAttack indicators = coherent || entangled' || voluminous
  /\ (ind_confidence indicators
      == (if coherent then 3 # 10 else 0) + (if entangled' then 4 # 10 else 0)
         + (if voluminous then 3 # 10 else 0))%Q
  /\ (0 <= ind_confidence indicators <= 1)%Q
  /\ (isQuantumAttack indicators = false -> (ind_confidence indicators == 0)%Q)
  /\ (isQuantumAttack indicators = true -> (3 # 10 <= ind_confidence indicators)%Q)
  /\ attackType indicators
     = (if above 1000 (ad_quantumVolume attackData) then shor_algorithm
        else if above 100 (ad_quantumVolume attackData) then grover_search
        else quantum_brute_force).
Proof.
  cbv zeta. unfold detectQuantumIndicators.
  destruct (above 1000 (ad_quantumVolume attackData)) eqn:H1000.
  - rewrite (above_weaker 1 1000 _ ltac:(discriminate) H1000).
    destruct (above 0 (ad_coherenceTime attackData)),
             (above 0 (ad_entanglementDegree attackData));
      cbn; repeat split; try reflexivity; try discriminate.
  - destruct (above 100 (ad_quantumVolume attackData)) eqn:H100.
    + rewrite (above_weaker 1 100 _ ltac:(discriminate) H100).
      destruct (above 0 (ad_coherenceTime attackData)),
               (above 0 (ad_entanglementDegree attackData));
        cbn; repeat split; try reflexivity; try discriminate.
    + destruct (above 0 (ad_coherenceTime attackData)),
               (above 0 (ad_entanglementDegree attackData)),
               (above 1 (ad_quantumVolume attackData));
        cbn; repeat split; try reflexivity; try discriminate.
Qed.

End QuantumAnalysis.

(** *** Counting by key *)

Section Counting.
Import Quantum.
Context {K : Type} (eqb : K -> K -> bool).
Hypothesis eqb_spec : forall a b, eqb a b = true <-> a = b.

(** [counts[key]] as a number: 0 when the object has no such property. *)
Definition countOf (key : K) (counts : list (K * Z)) : Z :=
  match lookup eqb key counts with
  | Some n => n
  | None => 0
  end.

Lemma eqb_refl_of_spec (a : K) : eqb a a = true.
Proof. now apply eqb_spec. Qed.

Lemma lookup_increment (key k : K) (counts : list (K * Z)) :
  lookup eqb k (increment eqb key counts)
  = if eqb key k then Some (countOf k counts + 1) else lookup eqb k counts.
Proof.
  unfold countOf. induction counts as [| [k0 n] rest IH]; cbn [increment lookup].
  - destruct (eqb key k); reflexivity.
  - destruct (eqb k0 key) eqn:H0.
    + apply eqb_spec in H0. subst k0. cbn [lookup].
      destruct (eqb key k); reflexivity.
    + cbn [lookup]. destruct (eqb k0 k) eqn:H0k.
      * apply eqb_spec in H0k. subst k0.
        destruct (eqb key k) eqn:Hkey; [| reflexivity].
        apply eqb_spec in Hkey. subst key. rewrite eqb_refl_of_spec in H0. discriminate.
      * exact IH.
Qed.

Lemma keys_increment (key : K) (counts : list (K * Z)) :
  forall k, In k (map fst (increment eqb key counts))
            <-> k = key \/ In k (map fst counts).
Proof.
  induction counts as [| [k0 n] rest IH]; intros k; cbn [increment map fst In].
  - intuition.
  - destruct (eqb k0 key) eqn:H0; cbn [map fst In].
    + apply eqb_spec in H0. subst k0. intuition.
    + rewrite IH. intuition.
Qed.

(** The tally that the counting loops build from [start]. *)
Definition tally {A : Type} (f : A -> K) (l : list A) (start : list (K * Z))
  : list (K * Z) :=
  fold_left (fun acc x => increment eqb (f x) acc) l start.

Lemma countOf_tally {A : Type} (f : A -> K) (l : list A) :
  forall start k,
    countOf k (tally f l start)
    = countOf k start + countWhere (fun x => eqb (f x) k) l.
Proof.
  unfold tally, countWhere.
  induction l as [| x rest IH]; intros start k; cbn [fold_left filter].
  - simpl. lia.
  - rewrite IH. unfold countOf at 1. rewrite lookup_increment.
    destruct (eqb (f x) k); [| fold (countOf k start); lia].
    cbn [List.length]. rewrite Nat2Z.inj_succ. unfold countOf. lia.
Qed.

Lemma keys_tally {A : Type} (f : A -> K) (l : list A) :
  forall start k,
    In k (map fst (tally f l start)) <-> In k (map f l) \/ In k (map fst start).
Proof.
  unfold tally. induction l as [| x rest IH]; intros start k; cbn [fold_left map In].
  - intuition.
  - rewrite IH, keys_increment. intuition.
Qed.

Lemma lookup_tally {A : Type} (f : A -> K) (l : list A) (k : K) :
  lookup eqb k (tally f l [])
  = if countWhere (fun x => eqb (f x) k) l =? 0 then None
    else Some (countWhere (fun x => eqb (f x) k) l).
Proof.
  pose proof (countOf_tally f l [] k) as Hcount.
  pose proof (keys_tally f l [] k) as Hkeys.
  unfold countOf in Hcount. cbn [lookup] in Hcount.
  assert (Hin : In k (map f l) <-> 0 < countWhere (fun x => eqb (f x) k) l).
  { unfold countWhere. clear Hcount Hkeys. induction l as [| x rest IH]; cbn [map In filter].
    - simpl. intuition lia.
    - destruct (eqb (f x) k) eqn:Hx.
      + apply eqb_spec in Hx. cbn [List.length]. intuition lia.
      + rewrite <- IH. split; [intros [Heq | H]; [| exact H] | tauto].
        apply eqb_spec in Heq. congruence. }
  assert (Hdefined : forall counts, In k (map fst counts) <-> lookup eqb k counts <> None).
  { clear Hcount Hkeys Hin. induction counts as [| [k0 n] rest IH]; cbn [map fst In lookup].
    - intuition.
    - destruct (eqb k0 k) eqn:H0.
      + apply eqb_spec in H0. intuition discriminate.
      + rewrite <- IH. split; [intros [Heq | H]; [| exact H] | tauto].
        apply eqb_spec in Heq. congruence. }
  cbn [map In] in Hkeys.
  destruct (lookup eqb k (tally f l [])) as [n |] eqn:Hlookup.
  - assert (Hpos : 0 < countWhere (fun x => eqb (f x) k) l).
    { apply Hin.
      assert (Hkey : In k (map fst (tally f l [])))
        by (apply Hdefined; rewrite Hlookup; discriminate).
      apply Hkeys in Hkey. tauto. }
    destruct (Z.eqb_spec (countWhere (fun x => eqb (f x) k) l) 0); [lia |].
    f_equal. lia.
  - destruct (Z.eqb_spec (countWhere (fun x => eqb (f x) k) l) 0); [reflexivity |].
    exfalso. assert (Hpos : 0 < countWhere (fun x => eqb (f x) k) l).
    { unfold countWhere in *. lia. }
    apply Hin in Hpos. apply (Hdefined (tally f l [])); [| exact Hlookup].
    apply Hkeys. now left.
Qed.

End Counting.

Section QuantumStatus.
Import Quantum.

Lemma KeyStrength_eqb_spec (a b : KeyStrength) : KeyStrength_eqb a b = true <-> a = b.
Proof. destruct a, b; simpl; intuition discriminate. Qed.

Lemma QuantumState_eqb_spec (a b : QuantumState) : QuantumState_eqb a b = true <-> a = b.
Proof. destruct a, b; simpl; intuition discriminate. Qed.

(** How many of [strengths] are [k]. *)
Definition occurrences (k : KeyStrength) (strengths : list KeyStrength) : Z :=
  countWhere (fun x => KeyStrength_eqb x k) strengths.

Lemma countWhere_nonneg {A : Type} (p : A -> bool) (l : list A) : 0 <= countWhere p l.
Proof. unfold countWhere. lia. Qed.

Lemma countWhere_positive {A : Type} (p : A -> bool) (l : list A) :
  0 < countWhere p l -> exists x, In x l /\ p x = true.
Proof.
  unfold countWhere. intros Hpos.
  destruct (filter p l) as [| x rest] eqn:Hf; [simpl in Hpos; lia |].
  exists x. apply filter_In. rewrite Hf. now left.
Qed.

Lemma mostCommon_fold (counts : list (KeyStrength * Z)) (keys : list KeyStrength) :
  (forall b, In b keys -> exists y, lookup KeyStrength_eqb b counts = Some y /\ 1 <= y) ->
  forall a,
    (lookup KeyStrength_eqb a counts = None \/ 0 <= countOf KeyStrength_eqb a counts) ->
    let r := fold_left (fun a b => if countGreater counts a b then a else b) keys a in
    countOf KeyStrength_eqb a counts <= countOf KeyStrength_eqb r counts
    /\ forall b, In b keys ->
                 countOf KeyStrength_eqb b counts <= countOf KeyStrength_eqb r counts.
Proof.
  cbv zeta. induction keys as [| b rest IH]; intros Hkeys a Ha; cbn [fold_left].
  - split; [lia | intros b []].
  - destruct (Hkeys b (or_introl eq_refl)) as [y [Hb Hy]].
    assert (Hchoice :
      countOf KeyStrength_eqb a counts
        <= countOf KeyStrength_eqb (if countGreater counts a b then a else b) counts
      /\ countOf KeyStrength_eqb b counts
        <= countOf KeyStrength_eqb (if countGreater counts a b then a else b) counts
      /\ 0 <= countOf KeyStrength_eqb (if countGreater counts a b then a else b) counts).
    { unfold countGreater, countOf in *. rewrite Hb.
      destruct (lookup KeyStrength_eqb a counts) as [x |] eqn:Hx.
      - destruct (Z.ltb_spec y x); [rewrite Hx | rewrite Hb]; lia.
      - rewrite Hb. lia. }
    destruct Hchoice as [Hca [Hcb Hnonneg]].
    destruct (IH (fun b' Hb' => Hkeys b' (or_intror Hb')) _ (or_intror Hnonneg))
      as [Hr Hall].
    split; [lia |]. intros b' [<- | Hin]; [lia | now apply Hall].
Qed.

Lemma mostCommon_occurrences (strengths : list KeyStrength) (k : KeyStrength) :
  occurrences k strengths <= occurrences (getMostCommonKeyStrength strengths) strengths.
Proof.
  set (counts := tally KeyStrength_eqb (fun x : KeyStrength => x) strengths []).
  assert (Hcount : forall k, countOf KeyStrength_eqb k counts = occurrences k strengths).
  { intros k0. unfold counts. rewrite (countOf_tally KeyStrength_eqb KeyStrength_eqb_spec).
    unfold countOf. cbn [lookup]. reflexivity. }
  assert (Hlookup : forall k,
             lookup KeyStrength_eqb k counts
             = if occurrences k strengths =? 0 then None
               else Some (occurrences k strengths)).
  { intros k0. unfold counts.
    now rewrite (lookup_tally KeyStrength_eqb KeyStrength_eqb_spec). }
  rewrite <- !Hcount.
  change (getMostCommonKeyStrength strengths)
    with (fold_left (fun a b => if countGreater counts a b then a else b)
                    (map fst counts) post_quantum_256).
  destruct (mostCommon_fold counts (map fst counts)) with (a := post_quantum_256)
    as [Hstart Hall].
  - intros b Hb. rewrite Hlookup.
    unfold counts in Hb.
    apply (keys_tally KeyStrength_eqb KeyStrength_eqb_spec) in Hb as [Hb | []].
    apply in_map_iff in Hb as [x [<- Hx]].
    assert (Hpos : 0 < occurrences x strengths).
    { unfold occurrences, countWhere.
      assert (Hin : In x (filter (fun y => KeyStrength_eqb y x) strengths))
        by (apply filter_In; split; [exact Hx | now apply KeyStrength_eqb_spec]).
      destruct (filter (fun y => KeyStrength_eqb y x) strengths); [destruct Hin |].
      cbn [List.length]. lia. }
    destruct (Z.eqb_spec (occurrences x strengths) 0); [lia |].
    eexists. split; [reflexivity | lia].
  - right. rewrite Hcount. apply countWhere_nonneg.
  - destruct (Z.eq_dec (occurrences k strengths) 0) as [Hzero | Hnonzero].
    + rewrite Hcount at 1. rewrite Hzero. rewrite Hcount. apply countWhere_nonneg.
    + apply Hall.
      assert (Hdefined : lookup KeyStrength_eqb k counts <> None).
      { rewrite Hlookup. destruct (Z.eqb_spec (occurrences k strengths) 0);
          [contradiction | discriminate]. }
      clear - Hdefined. induction counts as [| [k0 n] rest IH]; cbn [lookup] in *.
      * contradiction.
      * cbn [map fst In]. destruct (KeyStrength_eqb k0 k) eqn:Hk;
          [left; now apply KeyStrength_eqb_spec | right; now apply IH].
Qed.

(** X14.  [getMostCommonKeyStrength] answers a strength that occurs at least as
    often as every other one; it is one of the strengths given when there
    is any, and ['post_quantum_256'] when there is none. *)
Theorem getMostCommonKeyStrength_is_most_common (strengths : list KeyStrength) :
  (forall k,
      occurrences k strengths <= occurrences (getMostCommonKeyStrength strengths) strengths)
  /\ (strengths = [] -> getMostCommonKeyStrength strengths = post_quantum_256)
  /\ (strengths <> [] -> In (getMostCommonKeyStrength strengths) strengths).
Proof.
  repeat split.
  - intros k. apply mostCommon_occurrences.
  - intros ->. reflexivity.
  - intros Hne. destruct strengths as [| x rest]; [contradiction |].
    assert (Hpos : 0 < occurrences x (x :: rest)).
    { unfold occurrences, countWhere. cbn [filter].
      rewrite (proj2 (KeyStrength_eqb_spec x x) eq_refl). cbn [List.length]. lia. }
    pose proof (mostCommon_occurrences (x :: rest) x) as Hmax.
    destruct (countWhere_positive
                (fun y => KeyStrength_eqb y (getMostCommonKeyStrength (x :: rest)))
                (x :: rest)) as [y [Hy Heq]].
    + unfold occurrences in *. lia.
    + apply KeyStrength_eqb_spec in Heq. now rewrite <- Heq.
Qed.

End QuantumStatus.

Section QuantumStatusSummary.
Import Quantum.

(** How many honeypots are in state [q]. *)
Definition inState (q : QuantumState) (hs : list QuantumHoneypot) : Z :=
  countWhere (fun h => QuantumState_eqb (quantumState h) q) hs.

Lemma inState_partition (hs : list QuantumHoneypot) :
  inState superposition hs + inState entangled hs + inState collapsed hs
  + inState decoherent hs = Z.of_nat (List.length hs).
Proof.
  unfold inState, countWhere. induction hs as [| h rest IH]; [reflexivity |].
  cbn [filter List.length]. destruct (quantumState h); cbn [QuantumState_eqb List.length];
    rewrite !Nat2Z.inj_succ; lia.
Qed.

Lemma fold_left_sum {A : Type} (f : A -> Z) (l : list A) :
  forall start, fold_left (fun acc x => acc + f x) l start = start + total (map f l).
Proof.
  induction l as [| x rest IH]; intros start; cbn [fold_left map total fold_right].
  - lia.
  - rewrite IH. unfold total. lia.
Qed.

(** X15.  The summary that [getSystemStatus] answers agrees with the honeypots
    held: the total is their number; the active ones are counted among
    them; the table of states has, for each state, the number of honeypots
    in it (and no entry for a state no honeypot is in), so its entries add
    up to the total; [entangledPairs] is half the number of entangled
    honeypots; [totalAttacksDetected] is the sum of the counters; the key
    strength reported is one that most honeypots have.  The coherence and
    the time of the last synchronisation are not touched, nor are the
    honeypots, keys and signatures. *)
Theorem getSystemStatus_agrees_with_honeypots (e : Env) (s : Service) :
  let s' := fst (complete e getSystemStatus s) in
  let status := snd (complete e getSystemStatus s) in
  let hs := quantumHoneypots s in
  status = systemStatus s'
  /\ totalHoneypots status = Z.of_nat (List.length hs)
  /\ activeHoneypots status = countWhere isActive hs
  /\ 0 <= activeHoneypots status <= totalHoneypots status
  /\ (forall q,
        lookup QuantumState_eqb q (quantumStates status)
        = if inState q hs =? 0 then None else Some (inState q hs))
  /\ countOf QuantumState_eqb superposition (quantumStates status)
     + countOf QuantumState_eqb entangled (quantumStates status)
     + countOf QuantumState_eqb collapsed (quantumStates status)
     + countOf QuantumState_eqb decoherent (quantumStates status)
     = totalHoneypots status
  /\ (entangledPairs status * 2 == inject_Z (inState entangled hs))%Q
  /\ totalAttacksDetected status = total (map attacksDetected hs)
  /\ (forall k,
        occurrences k (map keyStrength hs)
        <= occurrences (averageKeyStrength status) (map keyStrength hs))
  /\ systemCoherence status = systemCoherence (systemStatus s)
  /\ lastQuantumSync status = lastQuantumSync (systemStatus s)
  /\ quantumHoneypots s' = hs
  /\ quantumKeys s' = quantumKeys s
  /\ attackSignatures s' = attackSignatures s
  /\ isQuantumSystemActive s' = isQuantumSystemActive s.
Proof.
  cbv zeta. cbn [complete getSystemStatus updateSystemStatus await bind update fst snd
                 withStatus systemStatus totalHoneypots activeHoneypots quantumStates
                 entangledPairs averageKeyStrength totalAttacksDetected systemCoherence
                 lastQuantumSync quantumHoneypots quantumKeys attackSignatures
                 isQuantumSystemActive get].
  assert (Hstates : forall q,
             lookup QuantumState_eqb q
               (fold_left (fun acc h => increment QuantumState_eqb (quantumState h) acc)
                          (quantumHoneypots s) [])
             = if inState q (quantumHoneypots s) =? 0 then None
               else Some (inState q (quantumHoneypots s))).
  { intros q. exact (lookup_tally QuantumState_eqb QuantumState_eqb_spec quantumState
                       (quantumHoneypots s) q). }
  repeat split.
  - unfold countWhere. lia.
  - unfold countWhere. pose proof (filter_length_le isActive (quantumHoneypots s)). lia.
  - exact Hstates.
  - unfold countOf. rewrite !Hstates.
    pose proof (inState_partition (quantumHoneypots s)) as Hsum.
    repeat match goal with
           | |- context [?x =? 0] => destruct (Z.eqb_spec x 0)
           end; lia.
  - apply Qdiv_mult_l. discriminate.
  - now rewrite fold_left_sum.
  - intros k. apply mostCommon_occurrences.
Qed.

End QuantumStatusSummary.

(** ** QuantumService: what no operation ever does to a honeypot *)

Section QuantumPointwise.
Import Quantum.

(** Every honeypot stays at its place and is related by [P] to what it
    was. *)
Definition pointwise (P : QuantumHoneypot -> QuantumHoneypot -> Prop) (s s' : Service)
  : Prop :=
  forall ref h,
    nth_error (quantumHoneypots s) ref = Some h ->
    exists h', nth_error (quantumHoneypots s') ref = Some h' /\ P h h'.

Variable P : QuantumHoneypot -> QuantumHoneypot -> Prop.
Hypothesis P_refl : forall h, P h h.
Hypothesis P_trans : forall a b c, P a b -> P b c -> P a c.
Hypothesis P_collapse : forall h, P h (setQuantumState collapsed h).
Hypothesis P_decohere : forall h, P h (setQuantumState decoherent h).
Hypothesis P_entangle : forall partner h, P h (setEntanglement partner h).
Hypothesis P_rotate : forall now h, P h (setLastKeyRotation now h).
Hypothesis P_record : forall sig h, P h (recordAttack sig h).
Hypothesis P_metadata : forall key v h, P h (setMetadata key v h).

Lemma pointwise_refl (s : Service) : pointwise P s s.
Proof. intros ref h Hh. exists h. split; [exact Hh | apply P_refl]. Qed.

Lemma pointwise_trans (s1 s2 s3 : Service) :
  pointwise P s1 s2 -> pointwise P s2 s3 -> pointwise P s1 s3.
Proof.
  intros H12 H23 ref h Hh.
  destruct (H12 ref h Hh) as [h2 [Hh2 HP2]].
  destruct (H23 ref h2 Hh2) as [h3 [Hh3 HP3]].
  exists h3. split; [exact Hh3 | exact (P_trans _ _ _ HP2 HP3)].
Qed.

Lemma pointwise_same (s s' : Service) :
  quantumHoneypots s' = quantumHoneypots s -> pointwise P s s'.
Proof. intros Heq ref h Hh. exists h. rewrite Heq. split; [exact Hh | apply P_refl]. Qed.

Lemma pointwise_modify (ref : Ref) (f : QuantumHoneypot -> QuantumHoneypot) (s : Service) :
  (forall h, P h (f h)) -> pointwise P s (modify ref f s).
Proof.
  intros Hf i h Hh. unfold modify. cbn [withHoneypots quantumHoneypots].
  destruct (Nat.eq_dec ref i) as [-> | Hne].
  - rewrite nth_error_updateAt_same, Hh. exists (f h). split; [reflexivity | apply Hf].
  - rewrite nth_error_updateAt_other by assumption.
    exists h. split; [exact Hh | apply P_refl].
Qed.

Lemma pointwise_push (s : Service) (h : QuantumHoneypot) :
  pointwise P s (withHoneypots s (quantumHoneypots s ++ [h])%list).
Proof.
  intros ref h0 Hh. cbn [withHoneypots quantumHoneypots]. exists h0.
  split; [| apply P_refl].
  rewrite nth_error_app1; [exact Hh |]. apply nth_error_Some. congruence.
Qed.

Lemma pointwise_decohere (hit : nat -> bool) (s : Service) :
  pointwise P s
    (withHoneypots s
       (map (fun ih : nat * QuantumHoneypot =>
               match quantumState (snd ih) with
               | superposition =>
                   if hit (fst ih) then setQuantumState decoherent (snd ih) else snd ih
               | _ => snd ih
               end)
            (combine (seq 0 (List.length (quantumHoneypots s))) (quantumHoneypots s)))).
Proof.
  intros ref h Hh. cbn [withHoneypots quantumHoneypots].
  rewrite nth_error_map.
  assert (Hpair : forall start,
             nth_error
               (combine (seq start (List.length (quantumHoneypots s))) (quantumHoneypots s))
               ref = Some ((start + ref)%nat, h)).
  { revert ref Hh.
    induction (quantumHoneypots s) as [| x rest IH]; intros ref Hh start;
      [destruct ref; discriminate |].
    destruct ref as [| ref]; cbn [List.length seq combine nth_error] in *.
    - injection Hh as ->. now rewrite Nat.add_0_r.
    - rewrite (IH ref Hh (S start)). f_equal. f_equal. lia. }
  specialize (Hpair 0%nat). cbn [Nat.add] in Hpair.
  rewrite Hpair. cbn [option_map fst snd]. eexists. split; [reflexivity |].
  destruct (quantumState h); try apply P_refl.
  destruct (hit ref); [apply P_decohere | apply P_refl].
Qed.

(** One step of the proof that a method respects [pointwise P]. *)
Ltac frame :=
  repeat first
    [ exact I
    | assumption
    | apply Always_external
    | apply Always_get; [apply pointwise_refl | intros ?]
    | apply Always_env; [apply pointwise_refl | intros ?]
    | apply Always_await
    | apply Always_forEach; intros ?
    | apply Always_update; intros ?;
      first [ apply pointwise_same; reflexivity
            | apply pointwise_push
            | apply pointwise_decohere
            | apply pointwise_modify; intros ?;
              first [ apply P_collapse | apply P_decohere | apply P_entangle
                    | apply P_rotate | apply P_record | apply P_metadata ] ]
    | match goal with
      | |- Always _ (match ?x with _ => _ end) => destruct x
      end
    | apply Always_bind; [| intros ?] ].

Lemma pointwise_generateQuantumKeys (i : string) (strength : KeyStrength) :
  Always (pointwise P) (generateQuantumKeys i strength).
Proof. unfold generateQuantumKeys, generatePostQuantumKeyPair. frame. Qed.

Lemma pointwise_rotateOne (ref : Ref) : Always (pointwise P) (rotateOne ref).
Proof.
  pose proof pointwise_generateQuantumKeys as Hkeys.
  unfold rotateOne. frame; try apply Hkeys.
Qed.

Lemma pointwise_rotateQuantumKeys (i : option string) :
  Always (pointwise P) (rotateQuantumKeys i).
Proof.
  unfold rotateQuantumKeys, saveQuantumData. frame; try apply pointwise_rotateOne.
Qed.

Lemma pointwise_induceDecoherence (ref : Ref) :
  Always (pointwise P) (induceDecoherence ref).
Proof.
  unfold induceDecoherence. apply Always_update. intros s.
  apply pointwise_modify. intros h.
  destruct (quantumState h); first [apply P_decohere | apply P_refl].
Qed.

Lemma pointwise_countermeasure (ref : Ref) (name : string) :
  Always (pointwise P) (countermeasure ref name).
Proof.
  unfold countermeasure, injectQuantumNoise.
  frame; first [apply pointwise_rotateQuantumKeys | apply pointwise_induceDecoherence].
Qed.

Lemma pointwise_whenActive (m : Async unit) :
  Always (pointwise P) m -> Always (pointwise P) (whenActive m).
Proof. intros Hm. unfold whenActive. frame. Qed.

Lemma pointwise_updateSystemStatus : Always (pointwise P) updateSystemStatus.
Proof. unfold updateSystemStatus. frame. Qed.

Lemma pointwise_detectQuantumAttack (i : string) (attackData : AttackData) :
  Always (pointwise P) (detectQuantumAttack i attackData).
Proof.
  unfold detectQuantumAttack, analyzeQuantumAttack, afterAnalysis,
    triggerQuantumCountermeasures, saveQuantumData, reportQuantumAttack.
  frame; try first [ apply pointwise_countermeasure | apply pointwise_updateSystemStatus
                   | apply pointwise_whenActive, Always_external ].
Qed.

Lemma pointwise_createQuantumHoneypot (location' : string) (strength : KeyStrength) :
  Always (pointwise P) (createQuantumHoneypot location' strength).
Proof.
  unfold createQuantumHoneypot, saveQuantumData, registerHoneypotWithNetwork.
  frame; try first [ apply pointwise_generateQuantumKeys | apply pointwise_updateSystemStatus
                   | apply pointwise_whenActive, Always_external ].
Qed.

Lemma pointwise_entangleHoneypots (honeypotId1 honeypotId2 : string) :
  Always (pointwise P) (entangleHoneypots honeypotId1 honeypotId2).
Proof.
  unfold entangleHoneypots, saveQuantumData, notifyEntanglement.
  frame; try first [ apply pointwise_updateSystemStatus
                   | apply pointwise_whenActive, Always_external ].
Qed.

Lemma pointwise_measureQuantumState (i : string) :
  Always (pointwise P) (measureQuantumState i).
Proof. unfold measureQuantumState, saveQuantumData. frame. Qed.

Lemma pointwise_syncWithQuantumNetwork (networkUpdates : option NetworkUpdates) :
  Always (pointwise P) (syncWithQuantumNetwork networkUpdates).
Proof.
  unfold syncWithQuantumNetwork. apply Always_get; [apply pointwise_refl | intros s].
  destruct (negb (isQuantumSystemActive s)); [exact I |].
  cbn [Always]. frame.
Qed.

(** Whatever the operation, each of its stretches respects [pointwise P]. *)
Lemma pointwise_program (c : Call) : Always (pointwise P) (program c).
Proof.
  destruct c; cbn [program]; unfold discard;
    try (apply Always_bind; [| intros ?; exact I]).
  - apply pointwise_createQuantumHoneypot.
  - apply pointwise_entangleHoneypots.
  - apply pointwise_detectQuantumAttack.
  - apply pointwise_rotateQuantumKeys.
  - apply pointwise_measureQuantumState.
  - unfold getSystemStatus. frame; try apply pointwise_updateSystemStatus.
  - unfold getRecentAttackSignatures. frame.
  - apply pointwise_syncWithQuantumNetwork.
  - unfold decoherenceTick. frame.
Qed.

Lemma pointwise_turn {A : Type} (c c' : Loop A) :
  Forall (Always (pointwise P)) (fst c) -> turn c c' ->
  pointwise P (snd c) (snd c') /\ Forall (Always (pointwise P)) (fst c').
Proof.
  intros Hall Hturn. destruct Hturn as [before after m e s _]. cbn [fst snd] in *.
  apply Forall_app in Hall as [Hbefore Hrest].
  apply Forall_cons_iff in Hrest as [Hm Hafter].
  destruct (Always_runStretch (pointwise P) m pointwise_refl pointwise_trans Hm e s)
    as [Hs Hm'].
  split; [exact Hs |].
  apply Forall_app. split; [exact Hbefore | constructor; assumption].
Qed.

Lemma pointwise_turns {A : Type} (c c' : Loop A) :
  turns c c' -> Forall (Always (pointwise P)) (fst c) -> pointwise P (snd c) (snd c').
Proof.
  induction 1 as [c | c1 c2 c3 Hturn _ IH]; intros Hall; [apply pointwise_refl |].
  destruct (pointwise_turn c1 c2 Hall Hturn) as [H12 Hall2].
  exact (pointwise_trans _ _ _ H12 (IH Hall2)).
Qed.

(** However the calls in flight are interleaved. *)
Lemma pointwise_interleaved (calls : list Call) (s : Service) (c' : Loop unit) :
  turns (map program calls, s) c' -> pointwise P s (snd c').
Proof.
  intros Hturns. apply (pointwise_turns _ _ Hturns). cbn [fst].
  apply Forall_forall. intros m Hm. apply in_map_iff in Hm as [c [<- _]].
  apply pointwise_program.
Qed.

End QuantumPointwise.

Section QuantumNever.
Import Quantum.

(** What stays of a honeypot: the identifier, the key strength, the
    location and the active flag are as they were; a honeypot in
    superposition was in superposition all along, with the partner it had;
    a honeypot without partner had none before. *)
Definition settled (h h' : QuantumHoneypot) : Prop :=
  honeypotId h' = honeypotId h
  /\ keyStrength h' = keyStrength h
  /\ location h' = location h
  /\ isActive h' = isActive h
  /\ (quantumState h' = superposition ->
      quantumState h = superposition /\ entanglementPartner h' = entanglementPartner h)
  /\ (entanglementPartner h' = None -> entanglementPartner h = None).

(** The signatures of a honeypot are only added to, at the end, and the
    counter rises by the number added. *)
Definition counted (h h' : QuantumHoneypot) : Prop :=
  exists added,
    quantumSignatures h' = (quantumSignatures h ++ added)%list
    /\ attacksDetected h' = attacksDetected h + Z.of_nat (List.length added).

Lemma settled_refl (h : QuantumHoneypot) : settled h h.
Proof. unfold settled. tauto. Qed.

Lemma settled_trans (a b c : QuantumHoneypot) : settled a b -> settled b c -> settled a c.
Proof.
  unfold settled. intros [Hi [Hk [Hl [Ha [Hs Hp]]]]] [Hi' [Hk' [Hl' [Ha' [Hs' Hp']]]]].
  split; [congruence |]. split; [congruence |]. split; [congruence |].
  split; [congruence |]. split.
  - intros Hc. destruct (Hs' Hc) as [Hb Hpb]. destruct (Hs Hb) as [Ha0 Hpa].
    split; [exact Ha0 | congruence].
  - intros Hc. apply Hp, Hp', Hc.
Qed.

Lemma counted_refl (h : QuantumHoneypot) : counted h h.
Proof. exists []. rewrite app_nil_r. simpl. split; [reflexivity | lia]. Qed.

Lemma counted_trans (a b c : QuantumHoneypot) : counted a b -> counted b c -> counted a c.
Proof.
  intros [added1 [Hs1 Hc1]] [added2 [Hs2 Hc2]]. exists (added1 ++ added2)%list.
  rewrite Hs2, Hs1, <- app_assoc, length_app. split; [reflexivity | lia].
Qed.

Definition detectionEnv : Env :=
  {| Date_now := 1700000050000; random36 := "k3f9"; randomPublicKey := "pub";
     randomPrivateKey := "priv"; Math_random := 1 # 2 |}.

(** X16.  Whatever operations of the service are in flight together and however
    the event loop interleaves them: every honeypot keeps its place, its
    identifier, its key strength, its location and its active flag (no
    operation deactivates a honeypot); a honeypot that has left
    superposition never returns to it, and one still in superposition has
    the partner it had; the partner of a honeypot is never removed. *)
Theorem honeypot_fields_settled
  (calls : list Call) (s : Service) (c' : Loop unit)
  (Hrun : turns (map program calls, s) c')
  (ref : Ref) (h : QuantumHoneypot)
  (Hh : nth_error (quantumHoneypots s) ref = Some h) :
  exists h', nth_error (quantumHoneypots (snd c')) ref = Some h' /\ settled h h'.
Proof.
  refine (pointwise_interleaved settled settled_refl settled_trans _ _ _ _ _ _
            calls s c' Hrun ref h Hh);
    intros; unfold settled; cbn; repeat split; try tauto; try discriminate.
Qed.

Lemma honeypot_fields_settled_witness :
  exists h',
    nth_error
      (quantumHoneypots
         (fst (complete detectionEnv
                 (program (Detect "qhp_1700000000000_x1" largeVolumeProbe)) labService)))
      0
    = Some h'
    /\ settled labHoneypot h'.
Proof.
  exact (honeypot_fields_settled
           [Detect "qhp_1700000000000_x1" largeVolumeProbe;
            Measure "qhp_1700000000000_x1"]
           labService _
           (turns_complete detectionEnv []
              [program (Measure "qhp_1700000000000_x1")]
              (program (Detect "qhp_1700000000000_x1" largeVolumeProbe)) labService)
           0%nat labHoneypot eq_refl).
Defined.

(** X17.  Under any interleaving of any operations, the signatures recorded on a
    honeypot are only added to, at the end of its list, and its counter
    [attacksDetected] rises by exactly the number of signatures added: a
    counter that equals the number of recorded signatures keeps doing so. *)
Theorem counter_follows_signatures
  (calls : list Call) (s : Service) (c' : Loop unit)
  (Hrun : turns (map program calls, s) c')
  (ref : Ref) (h : QuantumHoneypot)
  (Hh : nth_error (quantumHoneypots s) ref = Some h) :
  exists h',
    nth_error (quantumHoneypots (snd c')) ref = Some h'
    /\ counted h h'
    /\ (attacksDetected h = Z.of_nat (List.length (quantumSignatures h)) ->
        attacksDetected h' = Z.of_nat (List.length (quantumSignatures h'))).
Proof.
  assert (Hpointwise : pointwise counted s (snd c')).
  { refine (pointwise_interleaved counted counted_refl counted_trans _ _ _ _ _ _
              calls s c' Hrun);
      intros;
      first [ exists []; cbn; split; [now rewrite app_nil_r | lia]
            | match goal with
              | sig : QuantumAttackSignature |- _ =>
                  exists [sig]; cbn; split; [reflexivity | lia]
              end ]. }
  destruct (Hpointwise ref h Hh) as [h' [Hh' Hcounted]].
  exists h'. repeat split; try assumption.
  destruct Hcounted as [added [Hs Hc]]. intros Heq.
  rewrite Hc, Hs, length_app, Heq. lia.
Qed.

Lemma counter_follows_signatures_witness :
  exists h',
    nth_error
      (quantumHoneypots
         (fst (complete detectionEnv
                 (program (Detect "qhp_1700000000000_x1" coherentProbe)) labService)))
      0
    = Some h'
    /\ counted labHoneypot h'
    /\ (attacksDetected labHoneypot
        = Z.of_nat (List.length (quantumSignatures labHoneypot)) ->
        attacksDetected h' = Z.of_nat (List.length (quantumSignatures h'))).
Proof.
  exact (counter_follows_signatures
           [Detect "qhp_1700000000000_x1" coherentProbe; GetStatus]
           labService _
           (turns_complete detectionEnv [] [program GetStatus]
              (program (Detect "qhp_1700000000000_x1" coherentProbe)) labService)
           0%nat labHoneypot eq_refl).
Defined.

End QuantumNever.

(** ** QuantumService: measuring and entangling, run alone *)

Section QuantumMeasure.
Import Quantum.

(** [honeypot.quantumState = 'collapsed'] on the honeypot at [ref]. *)
Definition collapseAt (ref : Ref) (s : Service) : Service :=
  modify ref (setQuantumState collapsed) s.

(** What [measureQuantumState] comes to when it runs alone: the state after
    it and its answer. *)
Definition measured (i : string) (s : Service) : Service * QuantumState :=
  match findHoneypot i s with
  | None => (s, decoherent)
  | Some ref =>
      match nth_error (quantumHoneypots s) ref with
      | None => (s, decoherent)
      | Some h =>
          match quantumState h with
          | superposition =>
              let s1 := collapseAt ref s in
              let s2 :=
                match partnerOf h with
                | None => s1
                | Some partnerId =>
                    match findHoneypot partnerId s1 with
                    | None => s1
                    | Some partner => collapseAt partner s1
                    end
                end in
              (s2, match nth_error (quantumHoneypots s2) ref with
                   | Some h2 => quantumState h2
                   | None => decoherent
                   end)
          | q => (s, q)
          end
      end
  end.

Lemma complete_measureQuantumState (e : Env) (i : string) (s : Service) :
  complete e (measureQuantumState i) s = measured i s.
Proof.
  unfold measureQuantumState, measured, collapseAt. cbn [complete bind get].
  destruct (findHoneypot i s) as [ref |]; [| reflexivity].
  destruct (nth_error (quantumHoneypots s) ref) as [h |]; [| reflexivity].
  destruct (quantumState h); try reflexivity.
  cbn [complete bind update]. destruct (partnerOf h) as [partnerId |].
  - cbn [complete bind]. 
    destruct (findHoneypot partnerId (modify ref (setQuantumState collapsed) s)) as [partner |];
      cbn [complete bind update await saveQuantumData external];
      match goal with |- context [nth_error ?l ref] => destruct (nth_error l ref) end;
      reflexivity.
  - cbn [complete bind update await saveQuantumData external].
    match goal with |- context [nth_error ?l ref] => destruct (nth_error l ref) end;
      reflexivity.
Qed.

Lemma findHoneypot_collapseAt (i : string) (ref : Ref) (s : Service) :
  findHoneypot i (collapseAt ref s) = findHoneypot i s.
Proof. apply findHoneypot_ledger. apply keeps_modify; reflexivity. Qed.

Lemma nth_collapseAt (p ref : Ref) (s : Service) :
  nth_error (quantumHoneypots (collapseAt p s)) ref
  = if Nat.eqb p ref
    then option_map (setQuantumState collapsed) (nth_error (quantumHoneypots s) ref)
    else nth_error (quantumHoneypots s) ref.
Proof.
  unfold collapseAt, modify. cbn [withHoneypots quantumHoneypots].
  destruct (Nat.eqb_spec p ref) as [-> | Hne].
  - apply nth_error_updateAt_same.
  - now apply nth_error_updateAt_other.
Qed.

Lemma measured_spec (i : string) (s : Service) :
  QuantumState_eqb (snd (measured i s)) superposition = false
  /\ (findHoneypot i s = None -> measured i s = (s, decoherent))
  /\ (forall ref h,
        findHoneypot i s = Some ref ->
        nth_error (quantumHoneypots s) ref = Some h ->
        (quantumState h = superposition -> snd (measured i s) = collapsed)
        /\ (quantumState h <> superposition -> measured i s = (s, quantumState h)))
  /\ measured i (fst (measured i s)) = measured i s.
Proof.
  unfold measured.
  destruct (findHoneypot i s) as [ref |] eqn:Hfind.
  2:{ cbn [fst snd]. rewrite Hfind.
      split; [reflexivity |]. split; [reflexivity |]. split; [discriminate | reflexivity]. }
  destruct (nth_error (quantumHoneypots s) ref) as [h |] eqn:Hh.
  2:{ cbn [fst snd]. rewrite Hfind, Hh.
      split; [reflexivity |]. split; [discriminate |]. split; [| reflexivity].
      intros ref0 h0 Href Hh0. injection Href as <-. congruence. }
  assert (Hother : quantumState h <> superposition ->
            QuantumState_eqb (quantumState h) superposition = false
            /\ (forall ref0 h0,
                  Some ref = Some ref0 ->
                  nth_error (quantumHoneypots s) ref0 = Some h0 ->
                  (quantumState h0 = superposition -> quantumState h = collapsed)
                  /\ (quantumState h0 <> superposition ->
                      (s, quantumState h) = (s, quantumState h0)))).
  { intros Hne. split; [destruct (quantumState h); try reflexivity; contradiction |].
    intros ref0 h0 Href Hh0. injection Href as <-. assert (h0 = h) by congruence.
    subst h0. split; [contradiction | reflexivity]. }
  destruct (quantumState h) eqn:Hq.
  2-4: cbn [fst snd]; rewrite Hfind, Hh, Hq;
       (destruct Hother as [H1 H2]; [discriminate |]);
       (split; [reflexivity |]); (split; [discriminate |]); (split; [exact H2 | reflexivity]).
  clear Hother. cbv zeta.
  set (s2 := match partnerOf h with
             | Some partnerId =>
                 match findHoneypot partnerId (collapseAt ref s) with
                 | Some partner => collapseAt partner (collapseAt ref s)
                 | None => collapseAt ref s
                 end
             | None => collapseAt ref s
             end).
  assert (Hfind2 : findHoneypot i s2 = Some ref).
  { unfold s2. destruct (partnerOf h); [destruct (findHoneypot _ (collapseAt ref s)) |];
      now rewrite ?findHoneypot_collapseAt. }
  assert (Hnth2 : exists h2, nth_error (quantumHoneypots s2) ref = Some h2
                             /\ quantumState h2 = collapsed).
  { assert (H1 : nth_error (quantumHoneypots (collapseAt ref s)) ref
                 = Some (setQuantumState collapsed h))
      by (rewrite nth_collapseAt, Nat.eqb_refl, Hh; reflexivity).
    unfold s2. destruct (partnerOf h) as [partnerId |];
      [| eexists; split; [exact H1 | reflexivity]].
    destruct (findHoneypot partnerId (collapseAt ref s)) as [partner |];
      [| eexists; split; [exact H1 | reflexivity]].
    rewrite nth_collapseAt, H1. destruct (Nat.eqb partner ref);
      eexists; split; reflexivity. }
  destruct Hnth2 as [h2 [Hh2 Hq2]]. rewrite Hh2. cbn [fst snd]. rewrite Hq2.
  split; [reflexivity |]. split; [discriminate |]. split.
  - intros ref0 h0 Href Hh0. injection Href as <-. assert (h0 = h) by congruence.
    subst h0. split; [reflexivity | intros Hne; contradiction].
  - rewrite Hfind2, Hh2, Hq2. reflexivity.
Qed.


(** X18.  [measureQuantumState] never answers ['superposition']: a honeypot
    found in superposition is collapsed by the measurement and the answer
    is ['collapsed']; a honeypot in any other state is left as it is and
    its state is the answer; an unknown identifier gives ['decoherent'] and
    changes nothing.  Measuring again gives the same answer and changes
    nothing more. *)
Theorem measureQuantumState_never_superposition (e : Env) (i : string) (s : Service) :
  let outcome := complete e (measureQuantumState i) s in
  QuantumState_eqb (snd outcome) superposition = false
  /\ (findHoneypot i s = None -> outcome = (s, decoherent))
  /\ (forall ref h,
        findHoneypot i s = Some ref ->
        nth_error (quantumHoneypots s) ref = Some h ->
        (quantumState h = superposition -> snd outcome = collapsed)
        /\ (quantumState h <> superposition -> outcome = (s, quantumState h)))
  /\ complete e (measureQuantumState i) (fst outcome) = outcome.
Proof.
  cbv zeta. rewrite !complete_measureQuantumState.
  destruct (measured_spec i s) as [Hnever [Hunknown [Hfound Hagain]]].
  split; [exact Hnever |]. split; [exact Hunknown |]. split; [exact Hfound |].
  rewrite Hagain. now destruct (measured i s).
Qed.

Lemma complete_entangleHoneypots (e : Env) (i1 i2 : string) (s : Service) :
  complete e (entangleHoneypots i1 i2) s
  = match findHoneypot i1 s, findHoneypot i2 s with
    | Some honeypot1, Some honeypot2 =>
        (fst (complete e updateSystemStatus
                (modify honeypot2 (setEntanglement i1)
                   (modify honeypot1 (setEntanglement i2) s))),
         true)
    | _, _ => (s, false)
    end.
Proof.
  unfold entangleHoneypots. cbn [complete bind get].
  destruct (findHoneypot i1 s) as [r1 |]; [| reflexivity].
  destruct (findHoneypot i2 s) as [r2 |]; [| reflexivity].
  cbn [complete bind get update await updateSystemStatus saveQuantumData external
       whenActive notifyEntanglement].
  match goal with |- context [if ?b then _ else _] => destruct b end; reflexivity.
Qed.

Lemma findHoneypot_found (i : string) (ref : Ref) (s : Service) :
  findHoneypot i s = Some ref ->
  exists h, nth_error (quantumHoneypots s) ref = Some h /\ honeypotId h = i.
Proof.
  intros Hfind. destruct (findHoneypot_counter i ref s Hfind) as [h [Hh [Hid _]]].
  now exists h.
Qed.

Lemma nth_modify (p ref : Ref) (f : QuantumHoneypot -> QuantumHoneypot) (s : Service) :
  nth_error (quantumHoneypots (modify p f s)) ref
  = if Nat.eqb p ref then option_map f (nth_error (quantumHoneypots s) ref)
    else nth_error (quantumHoneypots s) ref.
Proof.
  unfold modify. cbn [withHoneypots quantumHoneypots].
  destruct (Nat.eqb_spec p ref) as [-> | Hne].
  - apply nth_error_updateAt_same.
  - now apply nth_error_updateAt_other.
Qed.

(** X19.  [entangleHoneypots] answers [false] and changes nothing when one of
    the two identifiers is unknown.  Otherwise it answers [true]; the first
    honeypot of each identifier is entangled, with the other identifier as
    its partner, whatever state and partner it had; every other honeypot,
    the keys and the signatures are as before.  The two identifiers may
    be the same: the honeypot is then its own partner. *)
Theorem entangleHoneypots_outcome (e : Env) (i1 i2 : string) (s : Service) :
  let s' := fst (complete e (entangleHoneypots i1 i2) s) in
  let ok := snd (complete e (entangleHoneypots i1 i2) s) in
  (findHoneypot i1 s = None \/ findHoneypot i2 s = None -> ok = false /\ s' = s)
  /\ (forall honeypot1 honeypot2 h1 h2,
        findHoneypot i1 s = Some honeypot1 ->
        findHoneypot i2 s = Some honeypot2 ->
        nth_error (quantumHoneypots s) honeypot1 = Some h1 ->
        nth_error (quantumHoneypots s) honeypot2 = Some h2 ->
        ok = true
        /\ (forall ref, ref <> honeypot1 -> ref <> honeypot2 ->
                        nth_error (quantumHoneypots s') ref
                        = nth_error (quantumHoneypots s) ref)
        /\ (i1 <> i2 ->
            nth_error (quantumHoneypots s') honeypot1 = Some (setEntanglement i2 h1)
            /\ nth_error (quantumHoneypots s') honeypot2 = Some (setEntanglement i1 h2))
        /\ (i1 = i2 ->
            nth_error (quantumHoneypots s') honeypot1
            = Some (setEntanglement i1 (setEntanglement i1 h1))))
  /\ quantumKeys s' = quantumKeys s
  /\ attackSignatures s' = attackSignatures s
  /\ isQuantumSystemActive s' = isQuantumSystemActive s.
Proof.
  cbv zeta. rewrite complete_entangleHoneypots.
  split; [| split].
  - intros [H | H]; rewrite H; [| destruct (findHoneypot i1 s)]; split; reflexivity.
  - intros r1 r2 h1 h2 Hf1 Hf2 Hh1 Hh2. rewrite Hf1, Hf2. cbn [fst snd].
    split; [reflexivity |].
    change (quantumHoneypots
              (fst (complete e updateSystemStatus
                      (modify r2 (setEntanglement i1) (modify r1 (setEntanglement i2) s)))))
      with (quantumHoneypots
              (modify r2 (setEntanglement i1) (modify r1 (setEntanglement i2) s))).
    split; [| split].
    + intros ref Hn1 Hn2. rewrite !nth_modify.
      destruct (Nat.eqb_spec r2 ref); [congruence |].
      destruct (Nat.eqb_spec r1 ref); [congruence | reflexivity].
    + intros Hne.
      destruct (findHoneypot_found i1 r1 s Hf1) as [x1 [Hx1 Hid1]].
      destruct (findHoneypot_found i2 r2 s Hf2) as [x2 [Hx2 Hid2]].
      assert (Hrefs : r1 <> r2) by (intros ->; congruence).
      rewrite !nth_modify.
      destruct (Nat.eqb_spec r2 r1); [congruence |].
      rewrite !Nat.eqb_refl, Hh1, Hh2.
      destruct (Nat.eqb_spec r1 r2); [congruence |]. split; reflexivity.
    + intros ->. assert (r2 = r1) by congruence. subst r2.
      rewrite !nth_modify, !Nat.eqb_refl, Hh1. reflexivity.
  - destruct (findHoneypot i1 s); [destruct (findHoneypot i2 s) |]; repeat split.
Qed.

End QuantumMeasure.

(** ** QuantumService: creating a honeypot, run alone *)

Section QuantumCreate.
Import Quantum.

(** The honeypot that [createQuantumHoneypot] builds in its first stretch. *)
Definition createdHoneypot (e : Env) (location' : string) (strength : KeyStrength)
  : QuantumHoneypot :=
  {| honeypotId := generateHoneypotId e; quantumState := superposition;
     entanglementPartner := None; keyStrength := strength; lastKeyRotation := Date_now e;
     attacksDetected := 0; quantumSignatures := []; isActive := true;
     location := location';
     metadata := [("createdAt", MetaDate (Date_now e));
                  ("creator", MetaText "mobile_client")] |}.

(** The three keys that [generateQuantumKeys] pushes when it runs alone from
    stretch [n] on: each pair is drawn one stretch before its key is dated. *)
Definition keysFor (clock : nat -> Env) (n : nat) (i : string) (strength : KeyStrength)
  : list QuantumKey :=
  [ makeQuantumKey i strength kyber
      (randomPublicKey (clock n), randomPrivateKey (clock n)) (clock (S n));
    makeQuantumKey i strength dilithium
      (randomPublicKey (clock (S n)), randomPrivateKey (clock (S n))) (clock (S (S n)));
    makeQuantumKey i strength falcon
      (randomPublicKey (clock (S (S n))), randomPrivateKey (clock (S (S n))))
      (clock (S (S (S n)))) ].

Lemma runAlone_createQuantumHoneypot (clock : nat -> Env) (location' : string)
  (strength : KeyStrength) (s : Service) :
  let i := generateHoneypotId (clock 0%nat) in
  let outcome := runAlone clock 0 (createQuantumHoneypot location' strength) s in
  snd outcome = i
  /\ quantumHoneypots (fst outcome)
     = (quantumHoneypots s ++ [createdHoneypot (clock 0%nat) location' strength])%list
  /\ quantumKeys (fst outcome)
     = (filter (fun key => negb (String.prefix i (keyId key))) (quantumKeys s)
        ++ keysFor clock 0 i strength)%list
  /\ attackSignatures (fst outcome) = attackSignatures s
  /\ isQuantumSystemActive (fst outcome) = isQuantumSystemActive s
  /\ totalHoneypots (systemStatus (fst outcome))
     = Z.of_nat (List.length (quantumHoneypots s)) + 1.
Proof.
  cbv zeta. unfold createQuantumHoneypot.
  cbn [runAlone bind env get update await generateQuantumKeys forEach
       generatePostQuantumKeyPair updateSystemStatus saveQuantumData external whenActive
       registerHoneypotWithNetwork honeypotId keyStrength].
  unfold withStatus, withHoneypots, withKeys.
  cbn [quantumKeys quantumHoneypots attackSignatures isQuantumSystemActive systemStatus].
  destruct (isQuantumSystemActive s);
    cbn [runAlone bind fst snd quantumKeys quantumHoneypots attackSignatures
         isQuantumSystemActive systemStatus totalHoneypots];
    rewrite <- !app_assoc, length_app, Nat2Z.inj_add; repeat split; reflexivity.
Qed.

Lemma prefix_append (a b : string) : String.prefix a (a ++ b) = true.
Proof.
  induction a as [| c a IH]; [destruct b; reflexivity |].
  cbn [String.append String.prefix]. destruct (ascii_dec c c) as [_ | Hne]; [exact IH |].
  now contradiction Hne.
Qed.

Lemma findIndexFrom_app {A : Type} (p : A -> bool) (l : list A) (x : A) :
  forall start,
    findIndexFrom p start (l ++ [x])%list
    = match findIndexFrom p start l with
      | Some ref => Some ref
      | None => if p x then Some (start + List.length l)%nat else None
      end.
Proof.
  induction l as [| y rest IH]; intros start; cbn [findIndexFrom List.app List.length].
  - rewrite Nat.add_0_r. reflexivity.
  - destruct (p y); [reflexivity |]. rewrite IH.
    destruct (findIndexFrom p (S start) rest); [reflexivity |].
    destruct (p x); [f_equal; lia | reflexivity].
Qed.

Lemma countWhere_app {A : Type} (p : A -> bool) (l1 l2 : list A) :
  countWhere p (l1 ++ l2)%list = countWhere p l1 + countWhere p l2.
Proof. unfold countWhere. rewrite filter_app, length_app. lia. Qed.

Lemma countWhere_filter_out {A : Type} (p : A -> bool) (l : list A) :
  countWhere p (filter (fun x => negb (p x)) l) = 0.
Proof.
  unfold countWhere. induction l as [| x rest IH]; [reflexivity |].
  cbn [filter]. destruct (p x) eqn:Hp; cbn [negb]; [exact IH |].
  cbn [filter]. now rewrite Hp.
Qed.

(** X20.  [createQuantumHoneypot], run alone: the identifier it answers is the one
    drawn in its first stretch and, when no older honeypot carries it,
    [find] gets the new honeypot under it; the new honeypot is last in the
    array, in superposition, without partner, active, with no attack
    counted; the honeypots held before are untouched; exactly three keys
    carry the identifier as prefix, each of the size of the key strength,
    not compromised, unused, expiring 24 hours after its creation; and the
    status counts one honeypot more. *)
Theorem createQuantumHoneypot_round_trip
  (clock : nat -> Env) (location' : string) (strength : KeyStrength) (s : Service)
  (Hfresh : findHoneypot (generateHoneypotId (clock 0%nat)) s = None) :
  let s' := fst (runAlone clock 0 (createQuantumHoneypot location' strength) s) in
  let i := snd (runAlone clock 0 (createQuantumHoneypot location' strength) s) in
  i = generateHoneypotId (clock 0%nat)
  /\ findHoneypot i s' = Some (List.length (quantumHoneypots s))
  /\ nth_error (quantumHoneypots s') (List.length (quantumHoneypots s))
     = Some (createdHoneypot (clock 0%nat) location' strength)
  /\ (forall ref h, nth_error (quantumHoneypots s) ref = Some h ->
                    nth_error (quantumHoneypots s') ref = Some h)
  /\ countWhere (fun key => String.prefix i (keyId key)) (quantumKeys s') = 3
  /\ (forall key, In key (quantumKeys s') -> String.prefix i (keyId key) = true ->
                  keySize key = getKeySize strength
                  /\ isCompromised key = false
                  /\ usageCount key = 0
                  /\ expiresAt key = createdAt key + 86400000)
  /\ totalHoneypots (systemStatus s') = Z.of_nat (List.length (quantumHoneypots s)) + 1.
Proof.
  cbv zeta.
  destruct (runAlone_createQuantumHoneypot clock location' strength s)
    as [Hid [Hhoneypots [Hkeys [_ [_ Htotal]]]]]. cbv zeta in *.
  rewrite Hid. split; [reflexivity |]. split; [| split; [| split; [| split; [| split]]]].
  - unfold findHoneypot in *. rewrite Hhoneypots, findIndexFrom_app, Hfresh.
    cbn [createdHoneypot honeypotId]. now rewrite String.eqb_refl.
  - rewrite Hhoneypots, nth_error_app2, Nat.sub_diag by lia. reflexivity.
  - intros ref h Hh. rewrite Hhoneypots, nth_error_app1; [exact Hh |].
    apply nth_error_Some. congruence.
  - rewrite Hkeys, countWhere_app, countWhere_filter_out.
    unfold countWhere, keysFor, makeQuantumKey. cbn [filter keyId].
    now rewrite !prefix_append.
  - intros key Hin Hprefix. rewrite Hkeys in Hin. apply in_app_or in Hin as [Hin | Hin].
    + apply filter_In in Hin as [_ Hnot]. rewrite Hprefix in Hnot. discriminate.
    + unfold keysFor in Hin. cbn [In] in Hin.
      destruct Hin as [<- | [<- | [<- | []]]]; repeat split.
  - exact Htotal.
Qed.

Definition steadyClock (n : nat) : Env := detectionEnv.

Lemma createQuantumHoneypot_round_trip_witness :
  findHoneypot "qhp_1700000050000_k3f9"
    (fst (runAlone steadyClock 0 (createQuantumHoneypot "dmz" post_quantum_512) labService))
  = Some 1%nat
  /\ countWhere (fun key => String.prefix "qhp_1700000050000_k3f9" (keyId key))
       (quantumKeys
          (fst (runAlone steadyClock 0 (createQuantumHoneypot "dmz" post_quantum_512)
                  labService)))
     = 3.
Proof.
  destruct (createQuantumHoneypot_round_trip steadyClock "dmz" post_quantum_512 labService
              eq_refl) as [Hid [Hfind [_ [_ [Hkeys _]]]]].
  cbv zeta in *. rewrite Hid in Hfind, Hkeys. split; [exact Hfind | exact Hkeys].
Defined.

End QuantumCreate.

(** ** QuantumService: signatures *)

Section QuantumSignatures.
Import Quantum.

(** [a] was detected no earlier than [b]. *)
Definition noOlder (a b : QuantumAttackSignature) : Prop := detectedAt b <= detectedAt a.

Lemma insertByDate_perm (x : QuantumAttackSignature) (l : list QuantumAttackSignature) :
  Permutation (insertByDate x l) (x :: l).
Proof.
  induction l as [| y rest IH]; cbn [insertByDate]; [reflexivity |].
  destruct (detectedAt x <? detectedAt y); [| reflexivity].
  rewrite IH. apply perm_swap.
Qed.

Lemma sortByDate_perm (l : list QuantumAttackSignature) :
  Permutation (fold_right insertByDate [] l) l.
Proof.
  induction l as [| x rest IH]; cbn [fold_right]; [reflexivity |].
  rewrite insertByDate_perm. now constructor.
Qed.

Lemma insertByDate_sorted (x : QuantumAttackSignature) (l : list QuantumAttackSignature) :
  StronglySorted noOlder l -> StronglySorted noOlder (insertByDate x l).
Proof.
  induction 1 as [| y rest Hrest IH Hy]; cbn [insertByDate].
  - repeat constructor.
  - destruct (Z.ltb_spec (detectedAt x) (detectedAt y)) as [Hlt | Hge].
    + constructor; [exact IH |].
      apply Forall_forall. intros z Hz.
      apply (Permutation_in _ (insertByDate_perm x rest)) in Hz as [<- | Hz].
      * unfold noOlder. lia.
      * rewrite Forall_forall in Hy. now apply Hy.
    + constructor; [now constructor |].
      constructor; [unfold noOlder; lia |].
      rewrite Forall_forall in *. intros z Hz. specialize (Hy z Hz). unfold noOlder in *. lia.
Qed.

Lemma sortByDate_sorted (l : list QuantumAttackSignature) :
  StronglySorted noOlder (fold_right insertByDate [] l).
Proof.
  induction l as [| x rest IH]; cbn [fold_right]; [constructor | now apply insertByDate_sorted].
Qed.

Lemma sorted_split (l1 l2 : list QuantumAttackSignature) :
  StronglySorted noOlder (l1 ++ l2)%list ->
  forall a b, In a l1 -> In b l2 -> noOlder a b.
Proof.
  induction l1 as [| x rest IH]; intros Hs a b Ha Hb; [destruct Ha |].
  cbn [List.app] in Hs. inversion Hs as [| ? ? Hrest Hx]; subst.
  destruct Ha as [<- | Ha].
  - rewrite Forall_forall in Hx. apply Hx. apply in_or_app. now right.
  - now apply IH.
Qed.

(** X21.  [getRecentAttackSignatures] sorts the array of signatures of the
    service in place, most recent first (the array holds the same
    signatures afterwards, reordered), and answers its first [limit]
    elements: as many signatures as asked for, or all when there are fewer,
    none of those left out being more recent than one returned.  With a
    negative [limit] it leaves out the [-limit] oldest instead.  Honeypots,
    keys and status are untouched. *)
Theorem getRecentAttackSignatures_most_recent (e : Env) (limit : Z) (s : Service) :
  let s' := fst (complete e (getRecentAttackSignatures limit) s) in
  let recent := snd (complete e (getRecentAttackSignatures limit) s) in
  Permutation (attackSignatures s') (attackSignatures s)
  /\ StronglySorted noOlder (attackSignatures s')
  /\ (0 <= limit ->
      recent = firstn (Z.to_nat limit) (attackSignatures s')
      /\ List.length recent
         = Nat.min (Z.to_nat limit) (List.length (attackSignatures s))
      /\ forall a b, In a recent ->
                     In b (skipn (Z.to_nat limit) (attackSignatures s')) -> noOlder a b)
  /\ (limit < 0 ->
      recent = firstn (List.length (attackSignatures s) - Z.to_nat (- limit))
                      (attackSignatures s'))
  /\ quantumHoneypots s' = quantumHoneypots s
  /\ quantumKeys s' = quantumKeys s
  /\ systemStatus s' = systemStatus s.
Proof.
  cbv zeta. unfold getRecentAttackSignatures.
  cbn [complete bind update get fst snd withSignatures attackSignatures quantumHoneypots
       quantumKeys systemStatus].
  pose proof (sortByDate_perm (attackSignatures s)) as Hperm.
  pose proof (sortByDate_sorted (attackSignatures s)) as Hsorted.
  split; [exact Hperm |]. split; [exact Hsorted |]. split; [| split].
  - intros Hlimit. unfold sliceTo. destruct (Z.ltb_spec limit 0); [lia |].
    split; [reflexivity |]. split.
    + rewrite length_firstn, (Permutation_length Hperm). reflexivity.
    + intros a b Ha Hb. apply (sorted_split _ _ ltac:(rewrite firstn_skipn; exact Hsorted) a b Ha Hb).
  - intros Hlimit. unfold sliceTo. destruct (Z.ltb_spec limit 0); [| lia].
    now rewrite (Permutation_length Hperm).
  - repeat split.
Qed.

Lemma complete_bind {A B : Type} (e : Env) (m : Async A) (f : A -> Async B) :
  forall s,
    complete e (bind m f) s
    = complete e (f (snd (complete e m s))) (fst (complete e m s)).
Proof.
  induction m as [a | X op k IH | k IH]; intros s; cbn [bind complete fst snd].
  - reflexivity.
  - destruct (op e s) as [x s1]. apply IH.
  - apply IH.
Qed.

Lemma complete_await {A : Type} (e : Env) (m : Async A) (s : Service) :
  complete e (await m) s = complete e m s.
Proof. unfold await. rewrite complete_bind. cbn [complete]. now destruct (complete e m s). Qed.

(** The steps of a proof that a method respects a relation: [refl] proves
    the relation on a state and itself, [upd] on a state and its update. *)
Ltac frameWith refl upd :=
  repeat first
    [ exact I
    | apply Always_external
    | apply Always_get; [refl | intros ?]
    | apply Always_env; [refl | intros ?]
    | apply Always_await
    | apply Always_forEach; intros ?
    | apply Always_update; intros ?; upd
    | match goal with
      | |- Always _ (match ?x with _ => _ end) => destruct x
      end
    | apply Always_bind; [| intros ?] ].

(** The list of all signatures is as it was. *)
Definition sameSignatures (s s' : Service) : Prop :=
  attackSignatures s' = attackSignatures s.

Lemma sameSignatures_trans s1 s2 s3 :
  sameSignatures s1 s2 -> sameSignatures s2 s3 -> sameSignatures s1 s3.
Proof. unfold sameSignatures. congruence. Qed.

Lemma sameSignatures_countermeasures (ref : Ref) (sig : QuantumAttackSignature) :
  Always sameSignatures (triggerQuantumCountermeasures ref sig).
Proof.
  unfold triggerQuantumCountermeasures, countermeasure, rotateQuantumKeys, rotateOne,
    generateQuantumKeys, generatePostQuantumKeyPair, injectQuantumNoise, induceDecoherence,
    saveQuantumData.
  frameWith ltac:(reflexivity) ltac:(reflexivity).
Qed.

(** X22.  [detectQuantumAttack], run alone: it answers [null] and changes
    nothing when no honeypot has the identifier or when the analysis finds
    no indicator; otherwise it answers a signature whose identifier is
    drawn at the analysis, whose type and confidence are those of the
    indicators, whose vector is the one given or ['unknown'], with the
    countermeasures of its type, and the signature is added once, at the
    end, to the signatures of the service, the countermeasures changing
    nothing of that list. *)
Theorem detectQuantumAttack_outcome (e : Env) (i : string) (attackData : AttackData)
  (s : Service) :
  let outcome := complete e (detectQuantumAttack i attackData) s in
  let indicators := detectQuantumIndicators attackData in
  (findHoneypot i s = None -> outcome = (s, None))
  /\ (isQuantumAttack indicators = false -> outcome = (s, None))
  /\ (forall honeypot,
        findHoneypot i s = Some honeypot ->
        isQuantumAttack indicators = true ->
        exists sig,
          snd outcome = Some sig
          /\ signatureId sig = generateSignatureId e
          /\ signatureType sig = attackType indicators
          /\ confidence sig = ind_confidence indicators
          /\ attackVector sig = vectorOrUnknown (ad_vector attackData)
          /\ countermeasures sig = getCountermeasures (attackType indicators)
          /\ attackSignatures (fst outcome) = (attackSignatures s ++ [sig])%list).
Proof.
  cbv zeta. unfold detectQuantumAttack. cbn [complete bind get].
  split; [| split].
  - intros ->. reflexivity.
  - intros Hq. destruct (findHoneypot i s); [| reflexivity].
    unfold analyzeQuantumAttack. cbn [complete bind env await]. rewrite Hq. reflexivity.
  - intros ref -> Hq.
    unfold analyzeQuantumAttack. cbn [complete bind env await]. rewrite Hq.
    cbn [complete bind afterAnalysis update].
    eexists. rewrite !complete_bind. cbn [complete snd].
    split; [reflexivity |]. repeat (split; [reflexivity |]).
    rewrite !complete_await. cbn [fst].
    assert (Hframe : forall (m : Async unit) s0,
               Always sameSignatures m ->
               attackSignatures (fst (complete e m s0)) = attackSignatures s0).
    { intros m s0 Hm.
      exact (Always_complete sameSignatures m (fun _ => eq_refl) sameSignatures_trans
               Hm e s0). }
    rewrite Hframe by (unfold whenActive, reportQuantumAttack;
                       frameWith ltac:(reflexivity) ltac:(reflexivity)).
    rewrite Hframe by exact I.
    rewrite Hframe by (unfold updateSystemStatus;
                       frameWith ltac:(reflexivity) ltac:(reflexivity)).
    rewrite Hframe by apply sameSignatures_countermeasures.
    reflexivity.
Qed.

(** The identifiers of signatures, in order. *)
Definition signatureIds (l : list QuantumAttackSignature) : list string :=
  map signatureId l.

Lemma mergeLoop_distinct (networkSignatures : list QuantumAttackSignature) :
  forall stored,
    NoDup (signatureIds stored) ->
    NoDup (signatureIds (mergeLoop networkSignatures stored))
    /\ (forall x, In x networkSignatures ->
                  In (signatureId x) (signatureIds (mergeLoop networkSignatures stored)))
    /\ (forall i, In i (signatureIds stored) ->
                  In i (signatureIds (mergeLoop networkSignatures stored))).
Proof.
  induction networkSignatures as [| signature rest IH]; intros stored Hnodup;
    cbn [mergeLoop].
  - split; [exact Hnodup |]. split; [intros x [] | tauto].
  - destruct (existsb (fun s => (signatureId s =? signatureId signature)%string) stored)
      eqn:Hex.
    + destruct (IH stored Hnodup) as [Hn [Hnet Hold]].
      split; [exact Hn |]. split; [| exact Hold].
      intros x [<- | Hx]; [| now apply Hnet].
      apply Hold. apply existsb_exists in Hex as [y [Hy Heq]].
      apply String.eqb_eq in Heq. rewrite <- Heq. now apply in_map.
    + assert (Hnodup' : NoDup (signatureIds (stored ++ [signature])%list)).
      { unfold signatureIds. rewrite map_app. cbn [map].
        apply NoDup_app; [exact Hnodup | repeat constructor; intros [] |].
        intros i Hi [<- | []].
        apply in_map_iff in Hi as [y [Heq Hy]].
        assert (Hex' : existsb (fun s => (signatureId s =? signatureId signature)%string)
                         stored = true).
        { apply existsb_exists. exists y. split; [exact Hy | now apply String.eqb_eq]. }
        congruence. }
      destruct (IH _ Hnodup') as [Hn [Hnet Hold]].
      split; [exact Hn |]. split.
      * intros x [<- | Hx]; [| now apply Hnet].
        apply Hold. unfold signatureIds. rewrite map_app. apply in_or_app. right. now left.
      * intros i Hi. apply Hold. unfold signatureIds. rewrite map_app.
        apply in_or_app. now left.
Qed.

Lemma NoDup_skipn {A : Type} (n : nat) (l : list A) : NoDup l -> NoDup (skipn n l).
Proof.
  intros H. rewrite <- (firstn_skipn n l) in H. now apply NoDup_app_remove_l in H.
Qed.

(** X23.  [mergeAttackSignatures] never stores two signatures of one identifier
    when the stored ones were distinct, whatever the network sends (also
    the same identifier several times); afterwards at most 1000 signatures
    are stored; and as long as the merged list is within 1000, every
    identifier received and every identifier stored before is stored. *)
Theorem mergeAttackSignatures_keeps_ids_distinct
  (networkSignatures : list QuantumAttackSignature) (s : Service)
  (Hdistinct : NoDup (signatureIds (attackSignatures s))) :
  let s' := mergeAttackSignatures networkSignatures s in
  NoDup (signatureIds (attackSignatures s'))
  /\ (List.length (attackSignatures s') <= 1000)%nat
  /\ ((List.length (mergeLoop networkSignatures (attackSignatures s)) <= 1000)%nat ->
      (forall x, In x networkSignatures ->
                 In (signatureId x) (signatureIds (attackSignatures s')))
      /\ (forall i, In i (signatureIds (attackSignatures s)) ->
                    In i (signatureIds (attackSignatures s')))).
Proof.
  cbv zeta. unfold mergeAttackSignatures. cbn [withSignatures attackSignatures].
  destruct (mergeLoop_distinct networkSignatures _ Hdistinct) as [Hnodup [Hnet Hold]].
  destruct (Nat.ltb_spec 1000
              (List.length (mergeLoop networkSignatures (attackSignatures s))))
    as [Hlong | Hshort].
  - split; [| split].
    + unfold sliceLast, signatureIds in *. rewrite <- skipn_map. now apply NoDup_skipn.
    + unfold sliceLast. rewrite length_skipn. lia.
    + lia.
  - split; [exact Hnodup |]. split; [exact Hshort |]. intros _. split; assumption.
Qed.

Definition sharedSignature (vector : string) : QuantumAttackSignature :=
  {| signatureId := "qsig_1700000000000_n1"; signatureType := grover_search;
     confidence := 3 # 10; detectedAt := 1700000000000; attackVector := vector;
     quantumCharacteristics :=
       {| qc_coherenceTime := None; qc_entanglementDegree := None;
          qc_quantumVolume := Some (500 # 1); qc_errorRate := None |};
     countermeasures := getCountermeasures grover_search |}.

Lemma mergeAttackSignatures_keeps_ids_distinct_witness :
  NoDup (signatureIds
           (attackSignatures
              (mergeAttackSignatures [sharedSignature "lattice"; sharedSignature "replay"]
                 labService)))
  /\ (List.length
        (attackSignatures
           (mergeAttackSignatures [sharedSignature "lattice"; sharedSignature "replay"]
              labService))
      <= 1000)%nat.
Proof.
  destruct (mergeAttackSignatures_keeps_ids_distinct
              [sharedSignature "lattice"; sharedSignature "replay"] labService
              (NoDup_nil string)) as [Hdistinct [Hbound _]].
  split; [exact Hdistinct | exact Hbound].
Defined.

End QuantumSignatures.

(** ** QuantumService: synchronising with the network *)

Section QuantumSync.
Import Quantum.

(** X30.  [syncWithQuantumNetwork], run alone: it changes nothing when the
    quantum system is not active, and nothing either when the request to
    the network fails, not even the time of the last synchronisation.
    With an answer, the signatures received are merged when there are any,
    the coherence is replaced when one is given, the time of the last
    synchronisation is the clock read after the answer, and the honeypots,
    the keys and the counts of the status are left alone. *)
Theorem syncWithQuantumNetwork_outcome (clock : nat -> Env)
  (networkUpdates : option NetworkUpdates) (s : Service) :
  let s' := fst (runAlone clock 0 (syncWithQuantumNetwork networkUpdates) s) in
  (isQuantumSystemActive s = false -> s' = s)
  /\ (networkUpdates = None -> s' = s)
  /\ (forall updates,
        isQuantumSystemActive s = true ->
        networkUpdates = Some updates ->
        attackSignatures s'
        = match nu_attackSignatures updates with
          | Some signatures => attackSignatures (mergeAttackSignatures signatures s)
          | None => attackSignatures s
          end
        /\ systemCoherence (systemStatus s')
           = match nu_systemCoherence updates with
             | Some coherence => coherence
             | None => systemCoherence (systemStatus s)
             end
        /\ lastQuantumSync (systemStatus s') = Date_now (clock 1%nat)
        /\ totalHoneypots (systemStatus s') = totalHoneypots (systemStatus s)
        /\ totalAttacksDetected (systemStatus s') = totalAttacksDetected (systemStatus s))
  /\ quantumHoneypots s' = quantumHoneypots s
  /\ quantumKeys s' = quantumKeys s
  /\ isQuantumSystemActive s' = isQuantumSystemActive s.
Proof.
  cbv zeta. unfold syncWithQuantumNetwork. cbn [runAlone bind get].
  destruct (isQuantumSystemActive s) eqn:Hactive; cbn [negb runAlone fst].
  - split; [discriminate |].
    destruct networkUpdates as [updates |]; cbn [runAlone fst].
    + split; [discriminate |]. split.
      * intros u _ Heq. injection Heq as <-.
        destruct (nu_attackSignatures updates) as [signatures |];
          cbn [runAlone bind update env fst]; repeat split.
      * destruct (nu_attackSignatures updates) as [signatures |];
          cbn [runAlone bind update env fst]; repeat split; exact Hactive.
    + split; [reflexivity |]. split; [discriminate |]. repeat split. exact Hactive.
  - split; [reflexivity |]. split; [reflexivity |]. split; [discriminate |].
    repeat split. exact Hactive.
Qed.

End QuantumSync.

(** ** SwarmService: decay, deposits, the decay timer, choosing agents *)

Section SwarmDecay.
Import Swarm.
Local Open Scope R_scope.

(** The age of a trail at [now], in hours. *)
Definition ageInHours (now : Z) (trail : PheromoneTrail) : R :=
  IZR (now - timestamp trail) / (1000 * 60 * 60).







End SwarmDecay.

Section SwarmDeposit.
Import Swarm.
Local Open Scope R_scope.

Lemma length_write (a : ArrayRef) (v : list PheromoneTrail) (m : Memory) :
  List.length (write a v m) = List.length m.
Proof.
  revert a. induction m as [| x rest IH]; intros [| a]; simpl; try reflexivity.
  now rewrite IH.
Qed.

Lemma read_write_same (a : ArrayRef) (v : list PheromoneTrail) (m : Memory) :
  (a < List.length m)%nat -> read (write a v m) a = v.
Proof.
  unfold read. revert a. induction m as [| x rest IH]; intros [| a] Ha; simpl in *;
    try lia; try reflexivity.
  apply IH. lia.
Qed.

Lemma read_write_other (a b : ArrayRef) (v : list PheromoneTrail) (m : Memory) :
  a <> b -> read (write a v m) b = read m b.
Proof.
  unfold read. revert a b. induction m as [| x rest IH]; intros [| a] [| b] Hne; simpl;
    try reflexivity; try congruence.
  apply IH. congruence.
Qed.

(** The trails the service holds. *)
Definition stored (w : World) : list PheromoneTrail :=
  read (memory w) (pheromoneTrails (this w)).

(** X25.  [depositPheromone] adds the new trail at the end of the array the
    service holds, in place.  While fewer than 1000 trails were held they
    are all kept.  With 1000 held, the service moves to a new array of the
    last 499 of them and the new trail, 500 in all, while the former array
    keeps all 1001.  A service within 1000 trails stays within 1000; no
    other array is touched; the trail carries the strength given, the
    decay rate 0.1 and the date of the deposit. *)
Theorem depositPheromone_keeps_last_trails
  (e : DepositEnv) (trailType' : TrailType) (location' : string) (strength' : R)
  (metadata' : list (string * JS.json)) (w : World)
  (Hheld : (pheromoneTrails (this w) < List.length (memory w))%nat) :
  let trail := newTrail e trailType' location' strength' metadata' (this w) in
  let w' := depositPheromone e trailType' location' strength' metadata' w in
  ((List.length (stored w) < 1000)%nat ->
     stored w' = (stored w ++ [trail])%list
     /\ pheromoneTrails (this w') = pheromoneTrails (this w))
  /\ ((1000 <= List.length (stored w))%nat ->
      stored w' = (skipn (List.length (stored w) - 499) (stored w) ++ [trail])%list
      /\ List.length (stored w') = 500%nat
      /\ pheromoneTrails (this w') = List.length (memory w)
      /\ read (memory w') (pheromoneTrails (this w)) = (stored w ++ [trail])%list)
  /\ ((List.length (stored w) <= 1000)%nat -> (List.length (stored w') <= 1000)%nat)
  /\ (forall a, (a < List.length (memory w))%nat -> a <> pheromoneTrails (this w) ->
                read (memory w') a = read (memory w) a)
  /\ strength trail = strength'
  /\ decayRate trail = 1 / 10
  /\ timestamp trail = dep_date e.
Proof.
  cbv zeta. unfold depositPheromone, stored.
  set (a := pheromoneTrails (this w)) in *.
  set (trail := newTrail e trailType' location' strength' metadata' (this w)).
  rewrite read_write_same by assumption.
  rewrite length_app. cbn [List.length].
  destruct (Nat.ltb_spec 1000 (List.length (read (memory w) a) + 1)) as [Hlong | Hshort].
  - unfold alloc. cbn [this memory withTrails pheromoneTrails].
    rewrite read_new, length_write.
    assert (Hskip : skipn (List.length (read (memory w) a) + 1 - 500)
                          (read (memory w) a ++ [trail])
                    = (skipn (List.length (read (memory w) a) - 499) (read (memory w) a)
                       ++ [trail])%list).
    { rewrite skipn_app.
      replace (List.length (read (memory w) a) + 1 - 500)%nat
        with (List.length (read (memory w) a) - 499)%nat by lia.
      replace (List.length (read (memory w) a) - 499 - List.length (read (memory w) a))%nat
        with 0%nat by lia.
      reflexivity. }
    rewrite Hskip.
    split; [intros; lia |]. split; [| split; [| split]].
    + intros _. split; [reflexivity |]. split.
      * rewrite length_app, length_skipn. cbn [List.length]. lia.
      * split; [reflexivity |].
        rewrite read_old by (rewrite length_write; assumption).
        now apply read_write_same.
    + intros _. rewrite length_app, length_skipn. cbn [List.length]. lia.
    + intros b Hb Hne. rewrite read_old by (rewrite length_write; assumption).
      apply read_write_other. congruence.
    + repeat split.
  - cbn [this memory]. rewrite read_write_same by assumption.
    split; [intros _; split; reflexivity |]. split; [intros; lia |]. split; [| split].
    + intros _. rewrite length_app. cbn [List.length]. lia.
    + intros b Hb Hne. apply read_write_other. congruence.
    + repeat split.
Qed.

Lemma deposited_last
  (e : DepositEnv) (trailType' : TrailType) (location' : string) (strength' : R)
  (metadata' : list (string * JS.json)) (w : World) :
  (pheromoneTrails (this w) < List.length (memory w))%nat ->
  exists before,
    stored (depositPheromone e trailType' location' strength' metadata' w)
    = (before ++ [newTrail e trailType' location' strength' metadata' (this w)])%list.
Proof.
  intros Hheld. unfold depositPheromone, stored.
  rewrite read_write_same by assumption.
  set (held := read (memory w) (pheromoneTrails (this w))).
  destruct (Nat.ltb_spec 1000 (List.length (held ++ [newTrail e trailType' location'
                                                       strength' metadata' (this w)])))
    as [Hlong | Hshort].
  - unfold alloc. cbn [this memory withTrails pheromoneTrails]. rewrite read_new.
    rewrite length_app in *. cbn [List.length] in *.
    exists (skipn (List.length held - 499) held).
    rewrite skipn_app.
    replace (List.length held + 1 - 500)%nat with (List.length held - 499)%nat by lia.
    replace (List.length held - 499 - List.length held)%nat with 0%nat by lia.
    reflexivity.
  - cbn [this memory]. rewrite read_write_same by assumption. now exists held.
Qed.

(** X26.  A trail deposited with a strength above 0.01 is answered by
    [getPheromoneTrails] asked at the instant of the deposit, with its
    strength as given, whether the query names no type or the type of the
    trail, and no location (or the empty one) or the location of the
    trail. *)
Theorem deposited_trail_is_found
  (e : DepositEnv) (trailType' : TrailType) (location' : string) (strength' : R)
  (metadata' : list (string * JS.json)) (w : World)
  (Hheld : (pheromoneTrails (this w) < List.length (memory w))%nat)
  (Hstrong : strength' > 1 / 100) :
  let trail := newTrail e trailType' location' strength' metadata' (this w) in
  let w' := depositPheromone e trailType' location' strength' metadata' w in
  forall (askedType : option TrailType) (askedLocation : option string),
    (askedType = None \/ askedType = Some trailType') ->
    (given askedLocation = None \/ askedLocation = Some location') ->
    In trail
       (read (memory (snd (getPheromoneTrails (dep_date e) askedType askedLocation w')))
             (fst (getPheromoneTrails (dep_date e) askedType askedLocation w'))).
Proof.
  cbv zeta. intros askedType askedLocation Htype Hlocation.
  destruct (getPheromoneTrails_returns (dep_date e) askedType askedLocation
              (depositPheromone e trailType' location' strength' metadata' w))
    as [Hreturned _].
  cbv zeta in Hreturned. rewrite Hreturned.
  apply (Permutation_in _ (Permutation_sym (sortByStrength_perm _))).
  apply in_selected.
  exists (newTrail e trailType' location' strength' metadata' (this w)).
  destruct (deposited_last e trailType' location' strength' metadata' w Hheld)
    as [before Hstored].
  fold (stored (depositPheromone e trailType' location' strength' metadata' w)).
  rewrite Hstored.
  assert (Hfresh : decayed (dep_date e)
                     (newTrail e trailType' location' strength' metadata' (this w))
                   = newTrail e trailType' location' strength' metadata' (this w)).
  { unfold decayed, withStrength, calculateDecayedStrength, newTrail.
    cbn [trailId trailType strength location createdBy timestamp decayRate metadata].
    rewrite Z.sub_diag.
    replace (- (1 / 10) * (0 / (1000 * 60 * 60))) with 0 by lra.
    rewrite exp_0, Rmult_1_r. reflexivity. }
  split; [apply in_or_app; right; now left |].
  split; [now rewrite Hfresh |].
  split; [exact Hstrong |]. split.
  - intros t Ht. destruct Htype as [Hnone | Hsome]; [congruence |].
    rewrite Hsome in Ht. now injection Ht as <-.
  - intros l Hl Hne. destruct Hlocation as [Hnone | Hsome].
    + assert (Hgiven : given askedLocation = Some l) by now apply given_Some.
      congruence.
    + rewrite Hsome in Hl. now injection Hl as <-.
Qed.

Definition noonDeposit : DepositEnv :=
  {| dep_now := 1700000043200; dep_random := "c4"; dep_date := 1700000043201 |}.

Lemma depositPheromone_keeps_last_trails_witness :
  stored (depositPheromone noonDeposit threat "gateway" (1 / 2) [] dmzWorld)
  = [dmzTrail; newTrail noonDeposit threat "gateway" (1 / 2) [] loneAgentService].
Proof.
  destruct (depositPheromone_keeps_last_trails noonDeposit threat "gateway" (1 / 2) []
              dmzWorld) as [Hshort _].
  - simpl. lia.
  - cbv zeta in Hshort. destruct Hshort as [Hstored _]; [simpl; lia |]. exact Hstored.
Defined.

Lemma deposited_trail_is_found_witness :
  In (newTrail noonDeposit threat "gateway" (1 / 2) [] loneAgentService)
     (read
        (memory
           (snd (getPheromoneTrails 1700000043201 (Some threat) (Some "gateway")
                   (depositPheromone noonDeposit threat "gateway" (1 / 2) [] dmzWorld))))
        (fst (getPheromoneTrails 1700000043201 (Some threat) (Some "gateway")
                (depositPheromone noonDeposit threat "gateway" (1 / 2) [] dmzWorld)))).
Proof.
  apply (deposited_trail_is_found noonDeposit threat "gateway" (1 / 2) [] dmzWorld).
  - simpl. lia.
  - lra.
  - now right.
  - now right.
Defined.

(** *** The decay timer *)


End SwarmDeposit.

Section SwarmAgents.
Import Swarm.

Lemma nearbyLoop_firstn (task : SwarmTask) (nearby : list SwarmAgent) :
  forall suitableAgents,
    nearbyLoop task nearby suitableAgents
    = (suitableAgents
       ++ firstn (3 - List.length suitableAgents)
                 (filter (fun agent => isAgentSuitableForTask agent task) nearby))%list.
Proof.
  induction nearby as [| agent rest IH]; intros acc; cbn [nearbyLoop filter].
  - now rewrite firstn_nil, app_nil_r.
  - rewrite IH. destruct (isAgentSuitableForTask agent task); cbn [andb]; [| reflexivity].
    destruct (Nat.ltb_spec (List.length acc) 3) as [Hlt | Hge].
    + rewrite length_app. cbn [List.length].
      replace (3 - List.length acc)%nat with (S (3 - (List.length acc + 1))) by lia.
      cbn [firstn]. now rewrite <- app_assoc.
    + replace (3 - List.length acc)%nat with 0%nat by lia. reflexivity.
Qed.

(** The local agent, when there is one and it suits the task. *)
Definition localCandidate (task : SwarmTask) (s : Service) : list SwarmAgent :=
  match localAgent s with
  | Some agent => if isAgentSuitableForTask agent task then [agent] else []
  | None => []
  end.

(** X28.  [findSuitableAgents] answers the local agent, when it suits the task,
    followed by the first nearby agents that suit it, in their order, up to
    three agents in all; every agent answered is active or idle and has
    every capability the type of the task requires. *)
Theorem findSuitableAgents_first_three (task : SwarmTask) (s : Service) :
  let found := findSuitableAgents task s in
  let candidates := filter (fun agent => isAgentSuitableForTask agent task) (nearbyAgents s) in
  found
  = (localCandidate task s
     ++ firstn (3 - List.length (localCandidate task s)) candidates)%list
  /\ (List.length found <= 3)%nat
  /\ List.length found
     = Nat.min 3 (List.length (localCandidate task s) + List.length candidates)
  /\ (forall agent, In agent found ->
        isAgentSuitableForTask agent task = true
        /\ (status agent = active \/ status agent = idle)
        /\ forall capability, In capability (getRequiredCapabilities (taskType task)) ->
                              In capability (capabilities agent)).
Proof.
  cbv zeta. unfold findSuitableAgents. fold (localCandidate task s).
  rewrite nearbyLoop_firstn.
  assert (Hlocal : (List.length (localCandidate task s) <= 1)%nat).
  { unfold localCandidate. destruct (localAgent s) as [agent |]; [| simpl; lia].
    destruct (isAgentSuitableForTask agent task); simpl; lia. }
  split; [reflexivity |]. split; [| split].
  - rewrite length_app, length_firstn. lia.
  - rewrite length_app, length_firstn. lia.
  - intros agent Hin.
    assert (Hsuitable : isAgentSuitableForTask agent task = true).
    { apply in_app_or in Hin as [Hin | Hin].
      - unfold localCandidate in Hin. destruct (localAgent s) as [a |]; [| destruct Hin].
        destruct (isAgentSuitableForTask a task) eqn:Ha; [| destruct Hin].
        destruct Hin as [<- | []]. exact Ha.
      - assert (Hcandidate :
                 In agent (filter (fun agent => isAgentSuitableForTask agent task)
                                  (nearbyAgents s))).
        { rewrite <- (firstn_skipn (3 - List.length (localCandidate task s))).
          apply in_or_app. now left. }
        now apply filter_In in Hcandidate. }
    split; [exact Hsuitable |]. unfold isAgentSuitableForTask in Hsuitable.
    assert (Hcaps : forallb (fun cap => includes (capabilities agent) cap)
                      (getRequiredCapabilities (taskType task)) = true
                    /\ (status agent = active \/ status agent = idle)).
    { destruct (status agent); try discriminate; split; auto. }
    destruct Hcaps as [Hcaps Hstatus]. split; [exact Hstatus |].
    intros capability Hcap. rewrite forallb_forall in Hcaps. specialize (Hcaps _ Hcap).
    unfold includes in Hcaps. apply existsb_exists in Hcaps as [y [Hy Heq]].
    apply String.eqb_eq in Heq. now subst y.
Qed.

End SwarmAgents.

